(** * jedi/parser/representation.py: the syntax tree and its name binding

    A shallow embedding of the tree classes of [jedi.parser.representation]
    ([_Leaf], [Simple], [Node], [Scope], [Statement], [Import], [Flow],
    [Array]) together with the properties its documentation states.

    The embedding comes first:
    - [Py]: exceptions, the error monad, list indexing and slicing as Python
      does them;
    - the tree as a value ([tree]) for the read-only traversals
      ([Statement.get_defined_names], [Import_.get_defined_names],
      [filter_after_position], [Scope], [Function_], [Class_]);
    - [Array]: the two access protocols of [Array];
    - [Store]: the object store, for the methods that write fields or follow
      [parent] pointers ([get_code], [move], [assignment_indexes]), and the
      constructors that fill it;
    - [Flow]: the [next] / [previous] chain of flow segments ([set_next]);
    - [tree_end_pos], [Simple_], [Leaf_] and [Base]: positions, siblings and
      the walks up the [parent] pointers ([get_parent_until],
      [get_parent_scope], [get_definition]), and [space];
    - [ScopeContents] and [GlobalStmt_]: what a scope holds ([statements],
      [subscopes], [returns], [walk]) and the names of a [global]
      statement;
    - [StatementElement]: the call path of [Call] and [Array].

    Then the trees of a few small programs ([Examples]), the vocabulary the
    properties are stated in (the [...Spec] modules), and the lemmas and
    theorems (the [...Facts] modules).

    Recursive methods that run on the store take a [fuel]: the recursion
    depth the interpreter still allows.  Running out of it is Python's
    [RecursionError]. *)

From Stdlib Require Import String Ascii ZArith Bool Arith Lia List.
Import ListNotations.

Set Implicit Arguments.
Set Warnings "-register-all".

(* ================================================================== *)
(** ** Python values: exceptions, results, sequences *)
(* ================================================================== *)

Module Py.

(** The exceptions the modelled methods can raise.  [RecursionError] is what
    a recursive method raises when the interpreter's recursion limit (the
    [fuel] of the recursive definitions below) is exceeded. *)
Inductive exn : Type :=
| IndexError
| AttributeError
| LookupError
| TypeError
| StopIteration
| RecursionError.

Inductive result (A : Type) : Type :=
| Ok (a : A)
| Raise (e : exn).

Arguments Ok {A} a.
Arguments Raise {A} e.

Definition bind {A B : Type} (r : result A) (k : A -> result B) : result B :=
  match r with
  | Ok a => k a
  | Raise e => Raise e
  end.

Definition fmap {A B : Type} (f : A -> B) (r : result A) : result B :=
  bind r (fun a => Ok (f a)).

(** Evaluate [f] on every element, left to right; the first exception wins. *)
Fixpoint mapM {A B : Type} (f : A -> result B) (l : list A) : result (list B) :=
  match l with
  | [] => Ok []
  | x :: tl =>
      bind (f x) (fun y => bind (mapM f tl) (fun ys => Ok (y :: ys)))
  end.

(** [l[i]] for a non-negative index. *)
Definition index {A : Type} (l : list A) (i : nat) : result A :=
  match nth_error l i with
  | Some x => Ok x
  | None => Raise IndexError
  end.

(** [l[-1]] and [l[-2]]. *)
Definition index_last {A : Type} (l : list A) : result A :=
  match rev l with
  | x :: _ => Ok x
  | [] => Raise IndexError
  end.

Definition index_last2 {A : Type} (l : list A) : result A :=
  match rev l with
  | _ :: x :: _ => Ok x
  | _ => Raise IndexError
  end.

(** [l[::2]]: the elements at even indexes. *)
Fixpoint stride2 {A : Type} (l : list A) : list A :=
  match l with
  | [] => []
  | x :: tl =>
      x :: match tl with
           | [] => []
           | _ :: tl' => stride2 tl'
           end
  end.

(** [l[1:-1]]. *)
Definition slice_1_m1 {A : Type} (l : list A) : list A :=
  removelast (tl l).

(** [range(0, stop, 2)]; [stop] is already clipped at 0. *)
Definition range_step2 (stop : nat) : list nat :=
  map (fun k => 2 * k) (seq 0 (Nat.div2 (stop + 1))).

End Py.

Import Py.

Declare Scope py_scope.
Delimit Scope py_scope with py.
Notation "x <- e ;; k" := (Py.bind e (fun x => k))
  (at level 61, e at next level, right associativity) : py_scope.
Open Scope py_scope.
Open Scope string_scope.
Open Scope list_scope.

(* ================================================================== *)
(** ** The tree as a value *)
(* ================================================================== *)

(** The subclasses of [_Leaf]. *)
Inductive leaf_class : Type :=
| Name
| Literal
| Operator
| Keyword
| Whitespace.

(** The subclasses of [Simple] that carry [children].  [Node] is the only one
    with a grammar symbol ([type]); [python_symbols] numbers the symbols
    injectively, so a symbol is identified with its name. *)
Inductive simple_class : Type :=
| Node (type : string)
| Statement
| ExprStmt
| ArrayStmt
| Import
| KeywordStatement
| GlobalStmt
| ReturnStmt
| Class
| Function
| SubModule.

(** A [(line, column)] pair. *)
Definition position : Type := (Z * Z)%type.

Inductive tree : Type :=
| Leaf (cls : leaf_class) (value : string) (start_pos : position)
       (prefix : string)
| Simple (cls : simple_class) (children : list tree).

(** Induction over [tree] with the hypothesis available for every child. *)
Section TreeInd.
Variable P : tree -> Prop.
Hypothesis Hleaf : forall cls v sp p, P (Leaf cls v sp p).
Hypothesis Hsimple : forall cls cs, Forall P cs -> P (Simple cls cs).

Fixpoint tree_ind' (t : tree) : P t :=
  match t with
  | Leaf cls v sp p => Hleaf cls v sp p
  | Simple cls cs =>
      Hsimple cls
        ((fix all (l : list tree) : Forall P l :=
            match l with
            | [] => Forall_nil P
            | c :: tl => Forall_cons c (tree_ind' c) (all tl)
            end) cs)
  end.
End TreeInd.

(** [is_node(node, *symbol_names)]: an instance of [Node] whose type is one
    of the named symbols. *)
Definition is_node (node : tree) (symbol_names : list string) : bool :=
  match node with
  | Simple (Node ty) _ => existsb (String.eqb ty) symbol_names
  | _ => false
  end.

(** [node == s] for a string [s].  [Operator.__eq__] and [Keyword.__eq__]
    compare the value with the string; the other classes define no [__eq__],
    so the comparison is by identity and an object is never a string. *)
Definition eq_str (node : tree) (s : string) : bool :=
  match node with
  | Leaf Operator v _ _ => String.eqb v s
  | Leaf Keyword v _ _ => String.eqb v s
  | _ => false
  end.

(** [node != s]: [Operator.__ne__] is [value != s], [Keyword.__ne__] is
    [not __eq__], and the default is the negation of identity. *)
Definition ne_str (node : tree) (s : string) : bool :=
  negb (eq_str node s).

(** [node.value]; only leaves have the attribute. *)
Definition value_of (node : tree) : result string :=
  match node with
  | Leaf _ v _ _ => Ok v
  | Simple _ _ => Raise AttributeError
  end.

(** [node.children]; leaves have no such attribute. *)
Definition children_of (node : tree) : result (list tree) :=
  match node with
  | Simple _ cs => Ok cs
  | Leaf _ _ _ _ => Raise AttributeError
  end.

(* ================================================================== *)
(** ** Statement.get_defined_names *)
(* ================================================================== *)

Module Statement.

(** The [power] branch of [check_tuple]:
    [if current.children[-2] != '**': trailer = current.children[-1];
     if trailer.children[0] == '.': names.append(trailer.children[1])]. *)
Definition check_power (children : list tree) : result (list tree) :=
  before <- index_last2 children ;;
  if ne_str before "**" then
    trailer <- index_last children ;;
    tcs <- children_of trailer ;;
    t0 <- index tcs 0 ;;
    if eq_str t0 "." then
      t1 <- index tcs 1 ;;
      Ok [t1]
    else Ok []
  else Ok [].

(** The local function [check_tuple] of [Statement.get_defined_names].  The
    inner fixpoint walks [current.children[::2]]. *)
Fixpoint check_tuple (current : tree) : result (list tree) :=
  match current with
  | Simple (Node ty) children =>
      if String.eqb ty "testlist_star_expr" || String.eqb ty "testlist_comp"
      then
        (fix every_other (cs : list tree) : result (list tree) :=
           match cs with
           | [] => Ok []
           | child :: rest =>
               names <- check_tuple child ;;
               more <- match rest with
                       | [] => Ok []
                       | _ :: rest' => every_other rest'
                       end ;;
               Ok (names ++ more)
           end) children
      else if String.eqb ty "atom" then
        match children with
        | _ :: c1 :: _ => check_tuple c1
        | _ => Raise IndexError
        end
      else if String.eqb ty "power" then check_power children
      else Ok [current]
  | _ => Ok [current]
  end.

(** [Statement.get_defined_names]: the live part of the method, up to its
    first [return]:
    [chain.from_iterable(check_tuple(self.children[i])
       for i in range(0, len(self.children) - 2, 2)
       if self.children[i + 1].value == '=')]. *)
Definition get_defined_names (children : list tree) : result (list tree) :=
  fmap (@List.concat tree)
    (mapM (fun i =>
             op <- index children (i + 1) ;;
             v <- value_of op ;;
             if String.eqb v "=" then
               target <- index children i ;;
               check_tuple target
             else Ok [])
          (range_step2 (length children - 2))).

End Statement.

(* ================================================================== *)
(** ** Import.get_defined_names *)
(* ================================================================== *)

Module Import_.

(** The live part of [Import.get_defined_names] (everything after the two
    [return]s is unreachable):
    [if self.children[0] == 'import': return self.children[1:]
     else: return [self.children[-1]]]. *)
Definition get_defined_names (children : list tree) : result (list tree) :=
  c0 <- index children 0 ;;
  if eq_str c0 "import" then Ok (tl children)
  else
    last <- index_last children ;;
    Ok [last].

End Import_.

(* ================================================================== *)
(** ** start_pos and filter_after_position *)
(* ================================================================== *)

(** [start_pos] is read off whatever object a list of names holds.  The line
    may be [None] (names that do not come from a source file), which is why
    [filter_after_position] tests it; the property can raise, as it does on
    a [Simple] without children. *)
Class Positioned (A : Type) : Type :=
  start_pos : A -> result (option Z * Z).

(** [_Leaf.start_pos] is a stored pair of integers; [Simple.start_pos] is
    [self.children[0].start_pos]. *)
Fixpoint tree_start_pos (t : tree) : result position :=
  match t with
  | Leaf _ _ sp _ => Ok sp
  | Simple _ cs =>
      match cs with
      | [] => Raise IndexError
      | c :: _ => tree_start_pos c
      end
  end.

#[export] Instance tree_positioned : Positioned tree :=
  fun t =>
    fmap (fun sp : position => (Some (fst sp), snd sp)) (tree_start_pos t).

(** [a < b] on [(line, column)] tuples. *)
Definition pos_lt (a b : position) : bool :=
  (fst a <? fst b)%Z || ((fst a =? fst b)%Z && (snd a <? snd b)%Z).

(** [n.start_pos[0] is not None and n.start_pos < position]. *)
Definition starts_before (sp : option Z * Z) (pos : position) : bool :=
  match fst sp with
  | None => false
  | Some line => pos_lt (line, snd sp) pos
  end.

Section FilterAfterPosition.
Context {A : Type} `{Positioned A}.

(** The loop of [filter_after_position]; [names_new] is its accumulator. *)
Fixpoint filter_loop (names_new names : list A) (pos : position)
  : result (list A) :=
  match names with
  | [] => Ok names_new
  | n :: rest =>
      sp <- start_pos n ;;
      if starts_before sp pos
      then filter_loop (names_new ++ [n]) rest pos
      else filter_loop names_new rest pos
  end.

Definition filter_after_position (names : list A) (pos : option position)
  : result (list A) :=
  match pos with
  | None => Ok names
  | Some p => filter_loop [] names p
  end.

End FilterAfterPosition.

(* ================================================================== *)
(** ** Scope, Class and Function *)
(* ================================================================== *)

Module Scope.

(** [s.get_defined_names()] for a child [s] of a [simple_stmt] that passed
    [isinstance(s, (ExprStmt, Import, KeywordStatement))].
    [KeywordStatement] inherits from [Simple] only and has no such method. *)
Definition statement_names (s : tree) : result (list tree) :=
  match s with
  | Simple ExprStmt cs => Statement.get_defined_names cs
  | Simple Import cs => Import_.get_defined_names cs
  | _ => Raise AttributeError
  end.

Definition is_statement (s : tree) : bool :=
  match s with
  | Simple ExprStmt _ | Simple Import _ | Simple KeywordStatement _ => true
  | _ => false
  end.

(** [ClassOrFunc.name]: [self.children[1]]. *)
Definition name (children : list tree) : result tree :=
  index children 1.

(** One round of the loop of [Scope.get_defined_names]: what child [c]
    adds to [names]. *)
Definition child_names (c : tree) : result (list tree) :=
  match c with
  | Simple cls cs =>
      if is_node c ["simple_stmt"] then
        fmap (@List.concat tree) (mapM statement_names (filter is_statement cs))
      else
        match cls with
        | Function | Class => n <- name cs ;; Ok [n]
        | _ => Ok []
        end
  | Leaf _ _ _ _ => Ok []
  end.

(** [Scope.get_defined_names]. *)
Definition get_defined_names (children : list tree) : result (list tree) :=
  last <- index_last children ;;
  body <- (if is_node last ["suite"] then children_of last else Ok children) ;;
  fmap (@List.concat tree) (mapM child_names body).

End Scope.

Module Param.

(** [Param]: [tfpdef], [default] and [stars]. *)
Record t : Type := Build {
  tfpdef : tree;
  default : option tree;
  stars : nat
}.

(** [Param.get_name]. *)
Definition get_name (p : t) : result tree :=
  if is_node (tfpdef p) ["tfpdef"] then
    cs <- children_of (tfpdef p) ;;
    index cs 0
  else Ok (tfpdef p).

(** [Param(tfpdef, parent, default, stars)]; the constructor calls
    [get_name] to re-parent the name. *)
Definition init (tfpdef : tree) (default : option tree) (stars : nat)
  : result t :=
  let p := Build tfpdef default stars in
  _ <- get_name p ;;
  Ok p.

End Param.

Module Function_.

(** [n in ('*', '**')]. *)
Definition is_star (n : tree) : bool :=
  eq_str n "*" || eq_str n "**".

(** One round of the loop of [Function._params], entered with [n] taken
    from the iterator and [it] left in it; the result is the parameter made
    and what the iterator has left then:
    [stars = 0
     if n in ('*', '**'): stars = len(n.value); n = next(iterator)
     op = next(iterator, None)
     if op == '=': default = next(iterator); next(iterator, None)
     else: default = None
     params.append(Param(n, self, default, stars))]. *)
Definition params_round (n : tree) (it : list tree)
  : result (Param.t * list tree) :=
  starred <-
    (if is_star n then
       v <- value_of n ;;
       match it with
       | n' :: it' => Ok (String.length v, n', it')
       | [] => Raise StopIteration
       end
     else Ok (0, n, it)) ;;
  let '(stars, n, it) := starred in
  let op := hd_error it in
  let it := tl it in
  dflt <-
    (if match op with Some o => eq_str o "=" | None => false end then
       match it with
       | d :: it' => Ok (Some d, tl it')
       | [] => Raise StopIteration
       end
     else Ok (None, it)) ;;
  let '(default, it) := dflt in
  p <- Param.init n default stars ;;
  Ok (p, it).

(** [for n in iterator: ...]; [fuel] bounds the rounds, and a round takes
    at least one element, so the length of the list is fuel enough. *)
Fixpoint params_loop (fuel : nat) (it : list tree) : result (list Param.t) :=
  match fuel with
  | O => Ok []
  | S fuel' =>
      match it with
      | [] => Ok []
      | n :: it1 =>
          round <- params_round n it1 ;;
          more <- params_loop fuel' (snd round) ;;
          Ok (fst round :: more)
      end
  end.

(** [Function._params]. *)
Definition _params (children : list tree) : result (list Param.t) :=
  c2 <- index children 2 ;;
  cs <- children_of c2 ;;
  match slice_1_m1 cs with
  | [] => Ok []
  | n0 :: _ =>
      if is_node n0 ["typedargslist"] then
        args <- children_of n0 ;;
        params_loop (length args) args
      else
        p <- Param.init n0 None 0 ;;
        Ok [p]
  end.

(** [try: n.append(p.get_name()) except IndexError: debug.warning(...)]. *)
Definition param_name (p : Param.t) : result (list tree) :=
  match Param.get_name p with
  | Ok n => Ok [n]
  | Raise IndexError => Ok []
  | Raise e => Raise e
  end.

(** [Function.get_defined_names]; [params] was computed by [__init__]. *)
Definition get_defined_names (children : list tree) : result (list tree) :=
  params <- _params children ;;
  n <- Scope.get_defined_names children ;;
  ps <- mapM param_name params ;;
  Ok (n ++ List.concat ps).

(** [Function.scope_names_generator]; the generator as the list it yields. *)
Definition scope_names_generator (self : tree) (pos : option position)
  : result (list (tree * list tree)) :=
  cs <- children_of self ;;
  names <- get_defined_names cs ;;
  visible <- filter_after_position names pos ;;
  Ok [(self, visible)].

End Function_.

Module Class_.

(** [Class] inherits [get_defined_names] from [Scope]. *)
Definition get_defined_names := Scope.get_defined_names.

(** [Class.scope_names_generator]. *)
Definition scope_names_generator (self : tree) (pos : option position)
  : result (list (tree * list tree)) :=
  cs <- children_of self ;;
  names <- get_defined_names cs ;;
  visible <- filter_after_position names pos ;;
  Ok [(self, visible)].

End Class_.

(* ================================================================== *)
(** ** Array *)
(* ================================================================== *)

Module Array.

(** [Array.NOARRAY] ([None]), [TUPLE], [LIST], [DICT], [SET]. *)
Inductive array_type : Type :=
| NOARRAY
| TUPLE
| LIST
| DICT
| SET.

Definition array_type_eqb (a b : array_type) : bool :=
  match a, b with
  | NOARRAY, NOARRAY | TUPLE, TUPLE | LIST, LIST | DICT, DICT | SET, SET => true
  | _, _ => false
  end.

Section WithStatement.
(** The statements an array holds. *)
Variable stmt : Type.

(** The fields the methods below read and write.  [Array.__init__] is not
    modelled: it hands four arguments on to [Simple.__init__], which takes
    one, so no array comes out of it; the methods are stated for an array
    with whatever fields it has. *)
Record t : Type := Build {
  type : array_type;
  values : list stmt;
  keys : list stmt
}.

(** [Array.add_statement]. *)
Definition add_statement (self : t) (statement : stmt) (is_key : bool) : t :=
  if is_key
  then Build DICT (values self) (keys self ++ [statement])
  else Build (type self) (values self ++ [statement]) (keys self).

(** [Array.__len__]. *)
Definition __len__ (self : t) : nat :=
  length (values self).

(** [values[key]] for an integer key; a negative key counts from the end. *)
Definition list_getitem (l : list stmt) (key : Z) : result stmt :=
  let n := Z.of_nat (length l) in
  if (0 <=? key)%Z then index l (Z.to_nat key)
  else if (0 <=? n + key)%Z then index l (Z.to_nat (n + key))
  else Raise IndexError.

(** [Array.__getitem__]. *)
Definition __getitem__ (self : t) (key : Z) : result stmt :=
  if array_type_eqb (type self) DICT then Raise TypeError
  else list_getitem (values self) key.

(** [Array.__iter__]; the iterator as the list it runs over. *)
Definition __iter__ (self : t) : result (list stmt) :=
  if array_type_eqb (type self) DICT then Raise TypeError
  else Ok (values self).

(** [Array.items]: [zip(self.keys, self.values)]. *)
Definition items (self : t) : result (list (stmt * stmt)) :=
  if negb (array_type_eqb (type self) DICT) then Raise TypeError
  else Ok (combine (keys self) (values self)).

End WithStatement.

End Array.

(* ================================================================== *)
(** ** The object store: get_code, move, assignment_indexes *)
(* ================================================================== *)

Module Store.

(** A reference to an object. *)
Definition ref : Type := nat.

(** What an object of the tree holds: a [_Leaf] has [value], [start_pos],
    [prefix] and [parent]; a [Simple] has [children] and [parent]. *)
Inductive obj : Type :=
| OLeaf (cls : leaf_class) (value : string) (start_pos : position)
        (prefix : string) (parent : option ref)
| OSimple (cls : simple_class) (children : list ref) (parent : option ref).

(** Every reference denotes an object. *)
Definition store : Type := ref -> obj.

Definition update (h : store) (r : ref) (o : obj) : store :=
  fun r' => if Nat.eqb r' r then o else h r'.

Definition parent_of (o : obj) : option ref :=
  match o with
  | OLeaf _ _ _ _ p => p
  | OSimple _ _ p => p
  end.

Definition with_parent (o : obj) (p : option ref) : obj :=
  match o with
  | OLeaf cls value sp prefix _ => OLeaf cls value sp prefix p
  | OSimple cls children _ => OSimple cls children p
  end.

(** A store together with the first reference not yet in use. *)
Definition heap : Type := (store * ref)%type.

(** [_Leaf.__init__]: the new leaf has no parent. *)
Definition new_leaf (cls : leaf_class) (value : string) (sp : position)
  (prefix : string) (s : heap) : ref * heap :=
  let (h, self) := s in
  (self, (update h self (OLeaf cls value sp prefix None), S self)).

(** [Simple.__init__]:
    [for c in children: c.parent = self
     self.children = children
     self.parent = None]. *)
Definition new_simple (cls : simple_class) (children : list ref) (s : heap)
  : ref * heap :=
  let (h, self) := s in
  let h1 :=
    fold_left (fun h c => update h c (with_parent (h c) (Some self)))
      children h in
  (self, (update h1 self (OSimple cls children None), S self)).

(** The objects of a tree, made bottom-up and left to right as a parser
    calls the constructors: [_Leaf.__init__] for a leaf, [Simple.__init__]
    for a node.  [Node.__init__], [Scope.__init__], [Class.__init__] and
    [SubModule.__init__] call [Simple.__init__] and then set fields of
    their own, and the statements and [Import] inherit it.
    [Function.__init__] does more: it goes on to [_params], which raises on
    a parameter list it cannot read and makes a [Param] for every
    parameter, and [Param.__init__] takes the parameter's name over
    ([self.get_name().parent = self]).  A [Param] is not an object of the
    store; for a [Function], [build] is the [Simple.__init__] part of the
    constructor only, and what is said of built stores is said for trees
    without a [Function] ([StoreSpec.no_function]). *)
Fixpoint build (t : tree) (s : heap) : ref * heap :=
  match t with
  | Leaf cls value sp prefix => new_leaf cls value sp prefix s
  | Simple cls cs =>
      let '(refs, s1) :=
        (fix build_all (l : list tree) (s : heap) : list ref * heap :=
           match l with
           | [] => ([], s)
           | c :: rest =>
               let '(r, s1) := build c s in
               let '(rs, s2) := build_all rest s1 in
               (r :: rs, s2)
           end) cs s in
      new_simple cls refs s1
  end.

(** A store in which nothing was made yet. *)
Definition empty : heap :=
  (fun _ => OLeaf Whitespace "" (0, 0)%Z "" None, 0).

(** [_Leaf.get_code] and [Simple.get_code].  [fuel] is the recursion depth
    the interpreter still allows. *)
Fixpoint get_code (fuel : nat) (h : store) (self : ref) : result string :=
  match fuel with
  | O => Raise RecursionError
  | S fuel' =>
      match h self with
      | OLeaf _ value _ prefix _ => Ok (prefix ++ value)%string
      | OSimple _ children _ =>
          fmap (String.concat "") (mapM (get_code fuel' h) children)
      end
  end.

(** [Simple.move].  The inner loop is [for c in self.children]; it threads
    the store and stops at the first exception. *)
Fixpoint move (fuel : nat) (line_offset column_offset : Z) (h : store)
  (self : ref) : store * result unit :=
  match fuel with
  | O => (h, Raise RecursionError)
  | S fuel' =>
      match h self with
      | OLeaf _ _ _ _ _ => (h, Raise AttributeError)
      | OSimple _ children _ =>
          (fix loop (cs : list ref) (h : store) : store * result unit :=
             match cs with
             | [] => (h, Ok tt)
             | c :: rest =>
                 match h c with
                 | OLeaf cls value sp prefix parent =>
                     loop rest
                       (update h c
                          (OLeaf cls value
                             (fst sp + line_offset, snd sp + column_offset)%Z
                             prefix parent))
                 | OSimple _ _ _ =>
                     match move fuel' line_offset column_offset h c with
                     | (h', Ok _) => loop rest h'
                     | (h', Raise e) => (h', Raise e)
                     end
                 end
             end) children h
      end
  end.

(** [is_node(node, 'testlist_comp') or is_node(node, 'testlist_star_expr')]
    on an object; the children of the node when it holds. *)
Definition tuple_children (o : obj) : option (list ref) :=
  match o with
  | OSimple (Node ty) children _ =>
      if String.eqb ty "testlist_comp" || String.eqb ty "testlist_star_expr"
      then Some children
      else None
  | _ => None
  end.

(** [for i, child in enumerate(children): if child == compare: ... break]:
    the first index holding [compare].  A [Name] and a [Simple] define no
    [__eq__], and [Operator.__eq__] / [Keyword.__eq__] compare their value
    with a non-string to [False], so [==] is identity here. *)
Fixpoint find_child (i : nat) (children : list ref) (compare : ref)
  : option nat :=
  match children with
  | [] => None
  | child :: rest =>
      if Nat.eqb child compare then Some i
      else find_child (S i) rest compare
  end.

(** The [while node is not None] loop of [Name.assignment_indexes]:
    [indexes.insert(0, int(i / 2))] on a hit, [raise LookupError] when the
    [for] runs out, then [compare = node; node = node.parent].  [None] is
    returned when the loop is still running after [fuel] rounds. *)
Fixpoint climb (fuel : nat) (h : store) (indexes : list nat)
  (node : option ref) (compare : ref) : option (result (list nat)) :=
  match node with
  | None => Some (Ok indexes)
  | Some n =>
      match fuel with
      | O => None
      | S fuel' =>
          match tuple_children (h n) with
          | Some children =>
              match find_child 0 children compare with
              | Some i =>
                  climb fuel' h (Nat.div2 i :: indexes) (parent_of (h n)) n
              | None => Some (Raise LookupError)
              end
          | None => climb fuel' h indexes (parent_of (h n)) n
          end
      end
  end.

(** [Name.assignment_indexes]. *)
Definition assignment_indexes (fuel : nat) (h : store) (self : ref)
  : option (result (list nat)) :=
  climb fuel h [] (parent_of (h self)) self.

End Store.

(* ================================================================== *)
(** ** Flow chains: the parent setter and set_next *)
(* ================================================================== *)

Module Flow.

Definition ref : Type := nat.

(** The fields of a [Flow] that [set_next] and the [parent] property touch.
    [_parent] refers to the owning scope. *)
Record t : Type := Build {
  next : option ref;
  previous : option ref;
  _parent : option nat
}.

Definition store : Type := ref -> t.

Definition update (h : store) (r : ref) (o : t) : store :=
  fun r' => if Nat.eqb r' r then o else h r'.

(** The setter of the [parent] property:
    [self._parent = value
     try: self.next.parent = value
     except AttributeError: return].
    Assigning to an attribute of [None] is the [AttributeError] caught
    here.  [fuel] is the recursion depth still allowed. *)
Fixpoint set_parent (fuel : nat) (h : store) (self : ref) (value : option nat)
  : store * result unit :=
  match fuel with
  | O => (h, Raise RecursionError)
  | S fuel' =>
      let o := h self in
      let h1 := update h self (Build (next o) (previous o) value) in
      match next (h1 self) with
      | Some n => set_parent fuel' h1 n value
      | None => (h1, Ok tt)
      end
  end.

(** [Flow.set_next]:
    [if self.next: return self.next.set_next(next)
     else:
         self.next = next
         self.next.parent = self.parent
         self.next.previous = self
         return next]. *)
Fixpoint set_next (fuel : nat) (h : store) (self : ref) (next_ : ref)
  : store * result ref :=
  match fuel with
  | O => (h, Raise RecursionError)
  | S fuel' =>
      match next (h self) with
      | Some n => set_next fuel' h n next_
      | None =>
          let o := h self in
          let h1 :=
            update h self (Build (Some next_) (previous o) (_parent o)) in
          match set_parent fuel' h1 next_ (_parent (h1 self)) with
          | (h2, Ok _) =>
              match next (h2 self) with
              | Some n =>
                  let o' := h2 n in
                  (update h2 n (Build (next o') (Some self) (_parent o')),
                   Ok next_)
              | None => (h2, Raise AttributeError)
              end
          | (h2, Raise e) => (h2, Raise e)
          end
      end
  end.

End Flow.

(* ================================================================== *)
(** ** end_pos, and the positions read off the store *)
(* ================================================================== *)

(** [len(value)] of a [str] is the number of its characters, not of its
    bytes.  A [string] is a row of bytes and holds the text in UTF-8, in
    which the bytes [10xxxxxx] go on with a character and every other byte
    begins one. *)
Definition begins_character (c : ascii) : bool :=
  match c with
  | Ascii _ _ _ _ _ _ b6 b7 => negb (b7 && negb b6)
  end.

Fixpoint len (s : string) : nat :=
  match s with
  | EmptyString => 0
  | String c rest => (if begins_character c then 1 else 0) + len rest
  end.

(** [_Leaf.end_pos] is [(start_pos[0], start_pos[1] + len(value))];
    [Simple.end_pos] is [self.children[-1].end_pos].  The inner fixpoint
    walks to the last child. *)
Fixpoint tree_end_pos (t : tree) : result position :=
  match t with
  | Leaf _ value sp _ =>
      Ok (fst sp, (snd sp + Z.of_nat (len value))%Z)
  | Simple _ cs =>
      (fix last_end (l : list tree) : result position :=
         match l with
         | [] => Raise IndexError
         | [c] => tree_end_pos c
         | _ :: rest => last_end rest
         end) cs
  end.

Module Simple_.
Import Store.

(** [start_pos] of an object: the stored pair of a leaf, the property
    [Simple.start_pos] otherwise.  Only the property is a call, so only it
    needs [fuel]. *)
Fixpoint start_pos (fuel : nat) (h : store) (self : ref) : result position :=
  match h self with
  | OLeaf _ _ sp _ _ => Ok sp
  | OSimple _ children _ =>
      match fuel with
      | O => Raise RecursionError
      | S fuel' =>
          c <- index children 0 ;;
          start_pos fuel' h c
      end
  end.

(** [end_pos] of an object: [_Leaf.end_pos] and [Simple.end_pos] are both
    properties. *)
Fixpoint end_pos (fuel : nat) (h : store) (self : ref) : result position :=
  match fuel with
  | O => Raise RecursionError
  | S fuel' =>
      match h self with
      | OLeaf _ value sp _ _ =>
          Ok (fst sp, (snd sp + Z.of_nat (len value))%Z)
      | OSimple _ children _ =>
          c <- index_last children ;;
          end_pos fuel' h c
      end
  end.

End Simple_.

(* ================================================================== *)
(** ** _Leaf.next_sibling and _Leaf.prev_sibling *)
(* ================================================================== *)

Module Leaf_.
Import Store.

(** [self.parent.children]: [None] has no [children], nor has a leaf. *)
Definition parent_children (h : store) (self : ref) : result (list ref) :=
  match parent_of (h self) with
  | None => Raise AttributeError
  | Some p =>
      match h p with
      | OSimple _ children _ => Ok children
      | OLeaf _ _ _ _ _ => Raise AttributeError
      end
  end.

(** [for i, child in enumerate(children):
       if child is self:
           try: return children[i + 1]
           except IndexError: return None];
    [rest] is what the loop has still to visit, from index [i] on.  A loop
    that runs out returns [None]. *)
Fixpoint next_loop (children rest : list ref) (i : nat) (self : ref)
  : option ref :=
  match rest with
  | [] => None
  | child :: rest' =>
      if Nat.eqb child self then nth_error children (S i)
      else next_loop children rest' (S i) self
  end.

(** [_Leaf.next_sibling]; a [Simple] has no such method. *)
Definition next_sibling (h : store) (self : ref) : result (option ref) :=
  match h self with
  | OSimple _ _ _ => Raise AttributeError
  | OLeaf _ _ _ _ _ =>
      children <- parent_children h self ;;
      Ok (next_loop children children 0 self)
  end.

(** [for i, child in enumerate(children):
       if child is self:
           if i == 0: return None
           return children[i - 1]]. *)
Fixpoint prev_loop (children rest : list ref) (i : nat) (self : ref)
  : result (option ref) :=
  match rest with
  | [] => Ok None
  | child :: rest' =>
      if Nat.eqb child self then
        match i with
        | O => Ok None
        | S i' => c <- index children i' ;; Ok (Some c)
        end
      else prev_loop children rest' (S i) self
  end.

(** [_Leaf.prev_sibling]. *)
Definition prev_sibling (h : store) (self : ref) : result (option ref) :=
  match h self with
  | OSimple _ _ _ => Raise AttributeError
  | OLeaf _ _ _ _ _ =>
      children <- parent_children h self ;;
      prev_loop children children 0 self
  end.

End Leaf_.

(* ================================================================== *)
(** ** Base: isinstance, the walks up the parents, space *)
(* ================================================================== *)

Module Base.
Import Store.

(** The classes of the module. *)
Inductive class_name : Type :=
| PyBase
| PyDocstringMixin
| PyLeaf
| PyWhitespace
| PyName
| PyLiteral
| PyOperator
| PyKeyword
| PySimple
| PyNode
| PyIsScope
| PyScope
| PyModule
| PySubModule
| PyClassOrFunc
| PyClass
| PyFunction
| PyFlow
| PyImport
| PyKeywordStatement
| PyGlobalStmt
| PyReturnStmt
| PyStatement
| PyExprStmt
| PyArrayStmt
| PyStatementElement.

Scheme Equality for class_name.

(** The class an object was made from. *)
Inductive runtime_class : Type :=
| OfLeaf (cls : leaf_class)
| OfSimple (cls : simple_class).

Definition class_of (o : obj) : runtime_class :=
  match o with
  | OLeaf cls _ _ _ _ => OfLeaf cls
  | OSimple cls _ _ => OfSimple cls
  end.

(** The class and the classes it inherits from, as the [class] statements
    give them. *)
Definition bases (c : runtime_class) : list class_name :=
  match c with
  | OfLeaf Whitespace => [PyWhitespace; PyLeaf; PyBase]
  | OfLeaf Name => [PyName; PyLeaf; PyBase]
  | OfLeaf Literal => [PyLiteral; PyLeaf; PyBase]
  | OfLeaf Operator => [PyOperator; PyLeaf; PyBase]
  | OfLeaf Keyword => [PyKeyword; PyLeaf; PyBase]
  | OfSimple (Node _) => [PyNode; PySimple; PyBase]
  | OfSimple Statement => [PyStatement; PySimple; PyBase; PyDocstringMixin]
  | OfSimple ExprStmt =>
      [PyExprStmt; PyStatement; PySimple; PyBase; PyDocstringMixin]
  | OfSimple ArrayStmt =>
      [PyArrayStmt; PyStatement; PySimple; PyBase; PyDocstringMixin]
  | OfSimple Import => [PyImport; PySimple; PyBase]
  | OfSimple KeywordStatement => [PyKeywordStatement; PySimple; PyBase]
  | OfSimple GlobalStmt => [PyGlobalStmt; PySimple; PyBase]
  | OfSimple ReturnStmt => [PyReturnStmt; PySimple; PyBase]
  | OfSimple Class =>
      [PyClass; PyClassOrFunc; PyScope; PySimple; PyBase; PyDocstringMixin]
  | OfSimple Function =>
      [PyFunction; PyClassOrFunc; PyScope; PySimple; PyBase;
       PyDocstringMixin]
  | OfSimple SubModule =>
      [PySubModule; PyScope; PySimple; PyDocstringMixin; PyModule; PyBase]
  end.

(** [is_scope()]: [Scope] and [Module] answer [True], [Base] answers
    [False]. *)
Definition is_scope (c : runtime_class) : bool :=
  existsb (fun b => class_name_beq b PyScope || class_name_beq b PyModule)
    (bases c).

(** [isinstance(self, cls)] for a tuple of classes.  [IsScope] has a
    metaclass whose [__instancecheck__] is [other.is_scope()]. *)
Definition isinstance (c : runtime_class) (cls : list class_name) : bool :=
  existsb (fun k =>
             if class_name_beq k PyIsScope then is_scope c
             else existsb (class_name_beq k) (bases c))
    cls.

(** The loop of [get_parent_until]:
    [while scope.parent is not None:
         if classes and reverse != scope.isinstance( *classes): break
         scope = scope.parent
     return scope].
    [None] is returned when the loop is still running after [fuel]
    rounds. *)
Fixpoint until_loop (fuel : nat) (h : store) (classes : list class_name)
  (reverse : bool) (scope : ref) : option ref :=
  match fuel with
  | O => None
  | S fuel' =>
      match parent_of (h scope) with
      | None => Some scope
      | Some p =>
          if match classes with [] => false | _ :: _ => true end
             && xorb reverse (isinstance (class_of (h scope)) classes)
          then Some scope
          else until_loop fuel' h classes reverse p
      end
  end.

(** [Base.get_parent_until(classes, reverse, include_current)];
    [scope = self if include_current else self.parent], and [None] has no
    [parent]. *)
Definition get_parent_until (fuel : nat) (h : store) (self : ref)
  (classes : list class_name) (reverse include_current : bool)
  : option (result ref) :=
  if include_current then
    option_map Ok (until_loop fuel h classes reverse self)
  else
    match parent_of (h self) with
    | None => Some (Raise AttributeError)
    | Some p => option_map Ok (until_loop fuel h classes reverse p)
    end.

(** The loop of [get_parent_scope]:
    [while scope.parent is not None:
         if scope.is_scope(): break
         scope = scope.parent
     return scope]. *)
Fixpoint scope_loop (fuel : nat) (h : store) (scope : ref) : option ref :=
  match fuel with
  | O => None
  | S fuel' =>
      match parent_of (h scope) with
      | None => Some scope
      | Some p =>
          if is_scope (class_of (h scope)) then Some scope
          else scope_loop fuel' h p
      end
  end.

(** [Base.get_parent_scope]: the walk starts at [self.parent]. *)
Definition get_parent_scope (fuel : nat) (h : store) (self : ref)
  : option (result ref) :=
  match parent_of (h self) with
  | None => Some (Raise AttributeError)
  | Some p => option_map Ok (scope_loop fuel h p)
  end.

(** [Simple._sub_module]: [self.get_parent_until()]. *)
Definition _sub_module (fuel : nat) (h : store) (self : ref)
  : option (result ref) :=
  match h self with
  | OSimple _ _ _ => get_parent_until fuel h self [] false true
  | OLeaf _ _ _ _ _ => Some (Raise AttributeError)
  end.

(** [Name.get_definition]:
    [self.parent.get_parent_until((ArrayStmt, StatementElement, Node),
                                  reverse=True)]. *)
Definition get_definition (fuel : nat) (h : store) (self : ref)
  : option (result ref) :=
  match parent_of (h self) with
  | None => Some (Raise AttributeError)
  | Some p =>
      get_parent_until fuel h p [PyArrayStmt; PyStatementElement; PyNode]
        true true
  end.

(** [Base.newline] and [Base.whitespace]. *)
Definition newline : string := String (ascii_of_nat 10) "".

Definition whitespace : string := " ".

(** [s * n] for a string [s]: empty when [n] is not positive. *)
Definition times (s : string) (n : Z) : string :=
  String.concat "" (repeat s (Z.to_nat n)).

(** [Base.space(from_pos, to_pos)]. *)
Definition space (from_pos to_pos : position) : string :=
  let linecount := (fst to_pos - fst from_pos)%Z in
  if (linecount =? 0)%Z then
    times whitespace (snd to_pos - snd from_pos)
  else
    (times newline linecount ++ times whitespace (snd to_pos))%string.

End Base.

(* ================================================================== *)
(** ** Scope: statements, subscopes, returns, walk *)
(* ================================================================== *)

Module ScopeContents.

(** [isinstance(element, Scope)] and [isinstance(element, ReturnStmt)] on a
    tree. *)
Definition is_Scope (element : tree) : bool :=
  match element with
  | Simple Class _ | Simple Function _ | Simple SubModule _ => true
  | _ => false
  end.

Definition is_ReturnStmt (element : tree) : bool :=
  match element with
  | Simple ReturnStmt _ => true
  | _ => false
  end.

(** What one round of the loop of [scan] adds to [elements]:
    [if isinstance(element, typ): elements.append(element)
     elif is_node(element, 'suite') or is_node(element, 'simple_stmt'):
         elements += scan(element.children)].
    The inner fixpoint is [scan] on the children. *)
Fixpoint scan_element (typ : tree -> bool) (element : tree) : list tree :=
  if typ element then [element]
  else if is_node element ["suite"] || is_node element ["simple_stmt"] then
    match element with
    | Simple _ children =>
        (fix scan (l : list tree) : list tree :=
           match l with
           | [] => []
           | e :: rest => scan_element typ e ++ scan rest
           end) children
    | Leaf _ _ _ _ => []
    end
  else [].

(** The local function [scan] of [Scope._search_in_scope]. *)
Definition scan (typ : tree -> bool) (children : list tree) : list tree :=
  flat_map (scan_element typ) children.

(** [Scope._search_in_scope(typ)]. *)
Definition _search_in_scope (typ : tree -> bool) (children : list tree)
  : list tree :=
  scan typ children.

(** [Scope.subscopes] and [Scope.returns]. *)
Definition subscopes (children : list tree) : list tree :=
  _search_in_scope is_Scope children.

Definition returns (children : list tree) : list tree :=
  _search_in_scope is_ReturnStmt children.

(** [Scope.statements]:
    [[s for c in self.children if is_node(c, 'simple_stmt')
        for s in c.children
        if isinstance(s, (ExprStmt, Import, KeywordStatement))]]. *)
Definition statements (children : list tree) : list tree :=
  flat_map (fun c =>
              if is_node c ["simple_stmt"] then
                match c with
                | Simple _ cs => filter Scope.is_statement cs
                | Leaf _ _ _ _ => []
                end
              else [])
    children.

(** [Scope.walk], the generator as the list it yields:
    [yield self
     for s in self.subscopes:
         for scope in s.walk(): yield scope
     for r in self.statements:
         while isinstance(r, Flow): ...].
    No statement of [statements] is a [Flow], so the last loop yields
    nothing.  Only a [Scope] has the method.  [fuel] is the depth of
    nested generators the interpreter still allows. *)
Fixpoint walk (fuel : nat) (self : tree) : result (list tree) :=
  match fuel with
  | O => Raise RecursionError
  | S fuel' =>
      match self with
      | Simple _ children =>
          if is_Scope self then
            below <- mapM (walk fuel') (subscopes children) ;;
            Ok (self :: List.concat below)
          else Raise AttributeError
      | Leaf _ _ _ _ => Raise AttributeError
      end
  end.

End ScopeContents.

(* ================================================================== *)
(** ** GlobalStmt *)
(* ================================================================== *)

Module GlobalStmt_.

(** [GlobalStmt.names]: [self.children[1::2]]. *)
Definition names (children : list tree) : list tree :=
  stride2 (tl children).

End GlobalStmt_.

(* ================================================================== *)
(** ** StatementElement, Call and Array as links of a call path *)
(* ================================================================== *)

Module StatementElement.

Definition ref : Type := nat.

(** A [Call] holds a [name], an [Array] a [type]; the name is a [Name],
    kept here as its [value], which is what [unicode(name)] gives. *)
Inductive kind : Type :=
| IsCall (name : string)
| IsArray (type : Array.array_type).

(** The fields [set_next] and the call path touch. *)
Record t : Type := Build {
  what : kind;
  next : option ref;
  previous : option ref;
  parent : option nat
}.

Definition store : Type := ref -> t.

Definition update (h : store) (r : ref) (o : t) : store :=
  fun r' => if Nat.eqb r' r then o else h r'.

(** [StatementElement.set_next]:
    [call.parent = self.parent
     if self.next is not None: self.next.set_next(call)
     else:
         self.next = call
         call.previous = self]. *)
Fixpoint set_next (fuel : nat) (h : store) (self : ref) (call : ref)
  : store * result unit :=
  match fuel with
  | O => (h, Raise RecursionError)
  | S fuel' =>
      let c := h call in
      let h1 :=
        update h call (Build (what c) (next c) (previous c) (parent (h self)))
      in
      match next (h1 self) with
      | Some n => set_next fuel' h1 n call
      | None =>
          let s := h1 self in
          let h2 :=
            update h1 self (Build (what s) (Some call) (previous s) (parent s))
          in
          let c' := h2 call in
          (update h2 call (Build (what c') (next c') (Some self) (parent c')),
           Ok tt)
      end
  end.

(** [Array.is_type(instance, *types)]:
    [try:
         if instance.type in types: return True
     except AttributeError: pass
     return False];
    [None] and a [Call] have no [type]. *)
Definition is_type (h : store) (instance : option ref)
  (types : list Array.array_type) : bool :=
  match instance with
  | None => false
  | Some r =>
      match what (h r) with
      | IsArray ty => existsb (Array.array_type_eqb ty) types
      | IsCall _ => false
      end
  end.

(** [StatementElement.next_is_execution]. *)
Definition next_is_execution (h : store) (self : ref) : bool :=
  is_type h (next (h self)) [Array.TUPLE; Array.NOARRAY].

(** What [generate_call_path] yields for an element: its [name], or the
    element itself when it has none. *)
Inductive step : Type :=
| StepName (name : string)
| StepSelf (self : ref).

(** [StatementElement.generate_call_path], the generator as the list it
    yields:
    [try: yield self.name
     except AttributeError: yield self
     if self.next is not None:
         for y in self.next.generate_call_path(): yield y]. *)
Fixpoint generate_call_path (fuel : nat) (h : store) (self : ref)
  : result (list step) :=
  match fuel with
  | O => Raise RecursionError
  | S fuel' =>
      let first :=
        match what (h self) with
        | IsCall name => StepName name
        | IsArray _ => StepSelf self
        end in
      match next (h self) with
      | Some n =>
          rest <- generate_call_path fuel' h n ;;
          Ok (first :: rest)
      | None => Ok [first]
      end
  end.

(** [Call.names]:
    [while call is not None:
         if not isinstance(call, Call): break
         yield unicode(call.name)
         call = call.next].
    [None] is returned when the loop is still running after [fuel]
    rounds. *)
Fixpoint names_loop (fuel : nat) (h : store) (call : option ref)
  : option (list string) :=
  match call with
  | None => Some []
  | Some c =>
      match fuel with
      | O => None
      | S fuel' =>
          match what (h c) with
          | IsArray _ => Some []
          | IsCall name =>
              option_map (cons name) (names_loop fuel' h (next (h c)))
          end
      end
  end.

Definition names (fuel : nat) (h : store) (self : ref)
  : option (list string) :=
  names_loop fuel h (Some self).

End StatementElement.

(* ================================================================== *)
(** ** Trees of small programs *)
(* ================================================================== *)

Module Examples.

Definition name_ (v : string) (line col : Z) (prefix : string) : tree :=
  Leaf Name v (line, col) prefix.
Definition op_ (v : string) (line col : Z) (prefix : string) : tree :=
  Leaf Operator v (line, col) prefix.
Definition kw_ (v : string) (line col : Z) (prefix : string) : tree :=
  Leaf Keyword v (line, col) prefix.
Definition lit_ (v : string) (line col : Z) (prefix : string) : tree :=
  Leaf Literal v (line, col) prefix.

Definition ws_ (v : string) (line col : Z) (prefix : string) : tree :=
  Leaf Whitespace v (line, col) prefix.

(** The text of a line break. *)
Definition newline : string := String (ascii_of_nat 10) "".

(** [a.b = 1] *)
Definition attribute_assignment : list tree :=
  [ Simple (Node "power")
      [ name_ "a" 1 0 "";
        Simple (Node "trailer") [ op_ "." 1 1 ""; name_ "b" 1 2 "" ] ];
    op_ "=" 1 4 " ";
    lit_ "1" 1 6 " " ].

(** [a[0] = 1] *)
Definition subscript_assignment : list tree :=
  [ Simple (Node "power")
      [ name_ "a" 1 0 "";
        Simple (Node "trailer")
          [ op_ "[" 1 1 ""; lit_ "0" 1 2 ""; op_ "]" 1 3 "" ] ];
    op_ "=" 1 5 " ";
    lit_ "1" 1 7 " " ].

(** The target [x, (y, z)]. *)
Definition nested_target : tree :=
  Simple (Node "testlist_star_expr")
    [ name_ "x" 1 0 "";
      op_ "," 1 1 "";
      Simple (Node "atom")
        [ op_ "(" 1 3 " ";
          Simple (Node "testlist_comp")
            [ name_ "y" 1 4 ""; op_ "," 1 5 ""; name_ "z" 1 7 " " ];
          op_ ")" 1 8 "" ] ].

(** [x, (y, z) = 2, ('', '')] *)
Definition tuple_assignment : list tree :=
  [ nested_target;
    op_ "=" 1 10 " ";
    Simple (Node "testlist_star_expr")
      [ lit_ "2" 1 12 " ";
        op_ "," 1 13 "";
        Simple (Node "atom")
          [ op_ "(" 1 15 " ";
            Simple (Node "testlist_comp")
              [ lit_ "''" 1 16 ""; op_ "," 1 18 ""; lit_ "''" 1 20 " " ];
            op_ ")" 1 22 "" ] ] ].

(** [x = y = 2] *)
Definition chained_assignment : list tree :=
  [ name_ "x" 1 0 "";
    op_ "=" 1 2 " ";
    name_ "y" 1 4 " ";
    op_ "=" 1 6 " ";
    lit_ "2" 1 8 " " ].

(** [import a] *)
Definition import_a : list tree :=
  [ kw_ "import" 1 0 ""; name_ "a" 1 7 " " ].

(** [import a as b], with the tokens as direct children. *)
Definition import_a_as_b : list tree :=
  [ kw_ "import" 1 0 ""; name_ "a" 1 7 " "; kw_ "as" 1 9 " ";
    name_ "b" 1 12 " " ].

(** [from x import y] *)
Definition from_x_import_y : list tree :=
  [ kw_ "from" 1 0 ""; name_ "x" 1 5 " "; kw_ "import" 1 7 " ";
    name_ "y" 1 14 " " ].

(** [from x import y as z] *)
Definition from_x_import_y_as_z : list tree :=
  [ kw_ "from" 1 0 ""; name_ "x" 1 5 " "; kw_ "import" 1 7 " ";
    name_ "y" 1 14 " "; kw_ "as" 1 16 " "; name_ "z" 1 19 " " ].

(** [from x import *] *)
Definition from_x_import_star : list tree :=
  [ kw_ "from" 1 0 ""; name_ "x" 1 5 " "; kw_ "import" 1 7 " ";
    op_ "*" 1 14 " " ].

(** The function of
    [class C:
         def f(p):
             a = 1
             b = a] *)
Definition function_f_children : list tree :=
    [ kw_ "def" 2 4 "    "; name_ "f" 2 8 " ";
      Simple (Node "parameters")
        [ op_ "(" 2 9 ""; name_ "p" 2 10 ""; op_ ")" 2 11 "" ];
      op_ ":" 2 12 "";
      Simple (Node "suite")
        [ ws_ newline 2 13 "";
          Simple (Node "simple_stmt")
            [ Simple ExprStmt
                [ name_ "a" 3 8 "        "; op_ "=" 3 10 " ";
                  lit_ "1" 3 12 " " ];
              ws_ newline 3 13 "" ];
          Simple (Node "simple_stmt")
            [ Simple ExprStmt
                [ name_ "b" 4 8 "        "; op_ "=" 4 10 " ";
                  name_ "a" 4 12 " " ];
              ws_ newline 4 13 "" ] ] ].

Definition function_f : tree := Simple Function function_f_children.

Definition class_C_children : list tree :=
  [ kw_ "class" 1 0 ""; name_ "C" 1 6 " "; op_ ":" 1 7 "";
    Simple (Node "suite") [ ws_ newline 1 8 ""; function_f ] ].

Definition class_C : tree := Simple Class class_C_children.

Definition module_of_C : tree :=
  Simple SubModule [ class_C; ws_ "" 5 0 "" ].

(** A name of one character that takes two bytes: the Greek letter lambda,
    [0xCE 0xBB] in UTF-8. *)
Definition lambda_name : tree :=
  name_ (String "206"%char (String "187"%char "")) 1 0 "".

End Examples.

(* ================================================================== *)
(** * Vocabulary of the properties *)
(* ================================================================== *)

(** The leaves below a node, in source order. *)
Fixpoint leaves (t : tree) : list tree :=
  match t with
  | Leaf _ _ _ _ => [t]
  | Simple _ cs => flat_map leaves cs
  end.

Definition is_name (t : tree) : bool :=
  match t with
  | Leaf Name _ _ _ => true
  | _ => false
  end.

(** The [Name] leaves below a node, in source order. *)
Definition name_leaves (t : tree) : list tree :=
  filter is_name (leaves t).

(** The node reached from [t] by taking, at each level, the child whose
    index the path gives. *)
Fixpoint subtree (t : tree) (path : list nat) : option tree :=
  match path with
  | [] => Some t
  | k :: rest =>
      match t with
      | Simple _ cs =>
          match nth_error cs k with
          | Some c => subtree c rest
          | None => None
          end
      | Leaf _ _ _ _ => None
      end
  end.

(** ** Statement.get_defined_names *)

Module StatementSpec.
Import Statement.

Definition is_tuple_symbol (ty : string) : bool :=
  String.eqb ty "testlist_star_expr" || String.eqb ty "testlist_comp".

(** [check_tuple] over [children[::2]], as a function of its own. *)
Fixpoint check_every_other (cs : list tree) : result (list tree) :=
  match cs with
  | [] => Ok []
  | child :: rest =>
      names <- check_tuple child ;;
      more <- match rest with
              | [] => Ok []
              | _ :: rest' => check_every_other rest'
              end ;;
      Ok (names ++ more)
  end.

(** The loop of [get_defined_names], two children at a time: [target]
    and [op] are followed by at least one more child. *)
Fixpoint by_segments (children : list tree) : result (list tree) :=
  match children with
  | target :: op :: ((_ :: _) as rest) =>
      v <- value_of op ;;
      names <- (if String.eqb v "=" then check_tuple target else Ok []) ;;
      more <- by_segments rest ;;
      Ok (names ++ more)
  | _ => Ok []
  end.

(** *** Targets that unpack into names

    A target made of names only: a bare name, a tuple or list display whose
    elements are such targets separated by operator leaves (the commas), or
    such a target between two operator leaves (the brackets). *)
Inductive unpacks : tree -> Prop :=
| unpacks_name v sp p :
    unpacks (Leaf Name v sp p)
| unpacks_tuple ty elems :
    is_tuple_symbol ty = true ->
    unpacks_elems elems ->
    unpacks (Simple (Node ty) elems)
| unpacks_bracket ov osp op inner cv csp cp :
    unpacks inner ->
    unpacks (Simple (Node "atom")
               [Leaf Operator ov osp op; inner; Leaf Operator cv csp cp])
with unpacks_elems : list tree -> Prop :=
| unpacks_none :
    unpacks_elems []
| unpacks_last t :
    unpacks t ->
    unpacks_elems [t]
| unpacks_more t sv ssp sp rest :
    unpacks t ->
    unpacks_elems rest ->
    unpacks_elems (t :: Leaf Operator sv ssp sp :: rest).

Scheme unpacks_mut := Induction for unpacks Sort Prop
  with unpacks_elems_mut := Induction for unpacks_elems Sort Prop.

(** The children of an expression statement: each target with the operator
    that follows it, then the right-hand side. *)
Fixpoint segments (segs : list (tree * tree)) (rhs : tree) : list tree :=
  match segs with
  | [] => [rhs]
  | (target, op) :: more => target :: op :: segments more rhs
  end.

End StatementSpec.

(** ** filter_after_position *)

Module PositionSpec.

(** The order of [(line, column)] tuples. *)
Definition lex_lt (a b : position) : Prop :=
  (fst a < fst b)%Z \/ (fst a = fst b /\ (snd a < snd b)%Z).

Definition lex_le (a b : position) : Prop :=
  (fst a < fst b)%Z \/ (fst a = fst b /\ (snd a <= snd b)%Z).

Section Generic.

Context {A : Type} {PA : Positioned A}.

(** What the test of the loop decides for a name. *)
Definition visible_before (p : position) (n : A) : bool :=
  match start_pos n with
  | Ok sp => starts_before sp p
  | Raise _ => false
  end.

Definition has_start_pos (n : A) : Prop :=
  exists sp, start_pos n = Ok sp.

End Generic.

End PositionSpec.

(** ** scope_names_generator *)

Module ScopeSpec.
Import PositionSpec.

(** [is_scope()]: true for the subclasses of [Scope]. *)
Definition is_scope (t : tree) : bool :=
  match t with
  | Simple Class _ | Simple Function _ | Simple SubModule _ => true
  | _ => false
  end.

(** In the words of the specification: the scopes that enclose the node at
    [path], the innermost first. *)
Fixpoint enclosing_scopes (t : tree) (path : list nat) : list tree :=
  match path with
  | [] => if is_scope t then [t] else []
  | k :: rest =>
      match t with
      | Simple _ cs =>
          match nth_error cs k with
          | Some c => enclosing_scopes c rest
          | None => []
          end
      | Leaf _ _ _ _ => []
      end ++ (if is_scope t then [t] else [])
  end.

(** The names of [names] a reader at [pos] sees. *)
Definition visible (names : list tree) (pos : option position) : list tree :=
  match pos with
  | None => names
  | Some p => filter (visible_before p) names
  end.

End ScopeSpec.

(** ** The object store *)

Module StoreSpec.
Import Store.

(** The store [h] holds the tree [t] at [r], with [parent] in the parent
    field of [r]: every child is held by a reference of its own and points
    back to [r]. *)
Inductive represents (h : store) : tree -> ref -> option ref -> Prop :=
| represents_leaf cls value sp prefix r parent :
    h r = OLeaf cls value sp prefix parent ->
    represents h (Leaf cls value sp prefix) r parent
| represents_simple cls cs refs r parent :
    h r = OSimple cls refs parent ->
    NoDup refs ->
    Forall2 (fun c cr => represents h c cr (Some r)) cs refs ->
    represents h (Simple cls cs) r parent.

(** The store [h] holds the tree [t] at [r] as far as the fields [value],
    [start_pos], [prefix] and [children] go: nothing is asked of the
    [parent] fields, nor of the references being different. *)
Inductive holds (h : store) : tree -> ref -> Prop :=
| holds_leaf cls value sp prefix r parent :
    h r = OLeaf cls value sp prefix parent ->
    holds h (Leaf cls value sp prefix) r
| holds_simple cls cs refs r parent :
    h r = OSimple cls refs parent ->
    Forall2 (holds h) cs refs ->
    holds h (Simple cls cs) r.

(** The number of [Simple] nodes on the longest branch. *)
Fixpoint height (t : tree) : nat :=
  match t with
  | Leaf _ _ _ _ => 0
  | Simple _ cs => S (list_max (map height cs))
  end.

(** The text a tree stands for: prefix and value of a leaf, the texts of
    the children of a node one after the other. *)
Fixpoint tree_code (t : tree) : string :=
  match t with
  | Leaf _ value _ prefix => (prefix ++ value)%string
  | Simple _ cs => String.concat "" (map tree_code cs)
  end.

(** Modelled from the spec: the tokenizer and the parser are not among the
    sources.  The specification says of their result that every leaf's
    prefix holds all the whitespace and comments since the previous leaf:
    read from left to right, the prefixes and values of the leaves make up
    the text. *)
Inductive covers : string -> list tree -> Prop :=
| covers_end :
    covers "" []
| covers_token cls value sp prefix rest text :
    covers text rest ->
    covers (prefix ++ value ++ text)%string
      (Leaf cls value sp prefix :: rest).

(** Modelled from the spec: [root] is a parse of [text] when its leaves,
    in order, cover [text]. *)
Definition parse_of (text : string) (root : tree) : Prop :=
  covers text (leaves root).

(** *** assignment_indexes *)

(** The object reached from [r] through the children the path names. *)
Fixpoint ref_at (h : store) (r : ref) (path : list nat) : option ref :=
  match path with
  | [] => Some r
  | k :: rest =>
      match h r with
      | OSimple _ children _ =>
          match nth_error children k with
          | Some c => ref_at h c rest
          | None => None
          end
      | OLeaf _ _ _ _ _ => None
      end
  end.

(** The object reached from [r] by following [parent] [k] times. *)
Fixpoint nth_parent (h : store) (k : nat) (r : ref) : option ref :=
  match k with
  | O => Some r
  | S k' =>
      match parent_of (h r) with
      | Some p => nth_parent h k' p
      | None => None
      end
  end.

Definition children_of_obj (o : obj) : list ref :=
  match o with
  | OSimple _ children _ => children
  | OLeaf _ _ _ _ _ => []
  end.

Definition is_tuple_class (cls : simple_class) : bool :=
  match cls with
  | Node ty =>
      String.eqb ty "testlist_comp" || String.eqb ty "testlist_star_expr"
  | _ => false
  end.

(** Along [path] from the root down: for every tuple or list level passed,
    half the index of the child taken there. *)
Fixpoint tuple_indexes (t : tree) (path : list nat) : list nat :=
  match path with
  | [] => []
  | k :: rest =>
      match t with
      | Simple cls cs =>
          (if is_tuple_class cls then [Nat.div2 k] else [])
          ++ match nth_error cs k with
             | Some c => tuple_indexes c rest
             | None => []
             end
      | Leaf _ _ _ _ => []
      end
  end.

(** [compare] is at position [i] of [children], and at none before. *)
Definition first_at (children : list ref) (compare : ref) (i : nat) : Prop :=
  nth_error children i = Some compare
  /\ forall j, j < i -> nth_error children j <> Some compare.

(** The way up from [compare], whose parent field holds [node]: after [n]
    objects the [parent] fields end in [None], and every tuple or list
    among the [n] lists the object the way came from.  [levels] has, for
    each of these tuples and lists from the nearest to the outermost, the
    first position at which it lists that object.  Nothing is asked of the
    objects that are not on the way. *)
Inductive way_up (h : store)
  : ref -> option ref -> nat -> list nat -> Prop :=
| way_up_top compare :
    way_up h compare None 0 []
| way_up_tuple compare node children i n levels :
    tuple_children (h node) = Some children ->
    first_at children compare i ->
    way_up h node (parent_of (h node)) n levels ->
    way_up h compare (Some node) (S n) (i :: levels)
| way_up_other compare node n levels :
    tuple_children (h node) = None ->
    way_up h node (parent_of (h node)) n levels ->
    way_up h compare (Some node) (S n) levels.

(** [path] leads from [r] down to [self], and the [parent] fields lead
    back: the parent field of [r] holds [parent], and every object on the
    path lists the next one, first at the index the path gives, and is
    what the parent field of the next one holds.  Nothing is asked of the
    objects off the path. *)
Fixpoint linked (h : store) (r : ref) (parent : option ref)
  (path : list nat) (self : ref) : Prop :=
  parent_of (h r) = parent
  /\ match path with
     | [] => r = self
     | k :: rest =>
         exists c,
           first_at (children_of_obj (h r)) c k
           /\ linked h c (Some r) rest self
     end.

(** *** The stores the constructors build *)

(** No node of the tree is a [Function]: the constructors of the tree are
    those [build] follows. *)
Fixpoint no_function (t : tree) : bool :=
  match t with
  | Leaf _ _ _ _ => true
  | Simple cls cs =>
      match cls with
      | Function => false
      | _ => forallb no_function cs
      end
  end.

(** The inner loop of [build] as a function of its own. *)
Fixpoint build_all (l : list tree) (s : heap) : list ref * heap :=
  match l with
  | [] => ([], s)
  | c :: rest =>
      let '(r, s1) := build c s in
      let '(rs, s2) := build_all rest s1 in
      (r :: rs, s2)
  end.

(** [c.parent = p] for every [c] of [refs]. *)
Definition reparent_all (p : option ref) (refs : list ref) (h : store)
  : store :=
  fold_left (fun h c => update h c (with_parent (h c) p)) refs h.

(** Trees laid one after the other: the first from [lo] on with its root
    at [r], the next from [r + 1] on, the last ending just below [hi]. *)
Inductive consecutive (P : nat -> tree -> ref -> Prop)
  : nat -> list tree -> list ref -> nat -> Prop :=
| consecutive_nil lo :
    consecutive P lo [] [] lo
| consecutive_cons lo c r cs refs hi :
    P lo c r ->
    consecutive P (S r) cs refs hi ->
    consecutive P lo (c :: cs) (r :: refs) hi.

(** The tree [t] fills the references from [lo] to its root [r]: the
    children first, one after the other, then the node itself. *)
Inductive laid_out (h : store) : nat -> tree -> ref -> option ref -> Prop :=
| laid_leaf lo cls value sp prefix parent :
    h lo = OLeaf cls value sp prefix parent ->
    laid_out h lo (Leaf cls value sp prefix) lo parent
| laid_simple lo cls cs refs r parent :
    h r = OSimple cls refs parent ->
    consecutive (fun lo' c cr => laid_out h lo' c cr (Some r)) lo cs refs r ->
    laid_out h lo (Simple cls cs) r parent.

Definition build_spec (t : tree) : Prop :=
  forall h n,
  exists r h',
    build t (h, n) = (r, (h', S r))
    /\ laid_out h' n t r None
    /\ forall x, x < n -> h' x = h x.

(** The store made for a tree, and the reference of its root. *)
Definition store_of (t : tree) : store := fst (snd (build t empty)).

Definition root_of (t : tree) : ref := fst (build t empty).

(** [y] of [x, (y, z) = 2, ('', '')], with its parent set to the tuple on
    the right-hand side, which does not hold it.  The way up from [z],
    object 5, is as it was. *)
Definition misparented_store : store :=
  let h := store_of (Simple ExprStmt Examples.tuple_assignment) in
  update h 3 (with_parent (h 3) (Some 17)).

(** *** move *)

(** The loop of [move] as a function of its own; [fuel] is what the calls
    made for the children get. *)
Fixpoint move_children (fuel : nat) (line_offset column_offset : Z)
  (cs : list ref) (h : store) : store * result unit :=
  match cs with
  | [] => (h, Ok tt)
  | c :: rest =>
      match h c with
      | OLeaf cls value sp prefix parent =>
          move_children fuel line_offset column_offset rest
            (update h c
               (OLeaf cls value
                  (fst sp + line_offset, snd sp + column_offset)%Z
                  prefix parent))
      | OSimple _ _ _ =>
          match move fuel line_offset column_offset h c with
          | (h', Ok _) =>
              move_children fuel line_offset column_offset rest h'
          | (h', Raise e) => (h', Raise e)
          end
      end
  end.

(** An object with its [start_pos] blanked: what [move] must not touch. *)
Definition erase_pos (o : obj) : obj :=
  match o with
  | OLeaf cls value _ prefix parent => OLeaf cls value (0, 0)%Z prefix parent
  | OSimple _ _ _ => o
  end.

(** [h'] differs from [h] in the [start_pos] of leaves at most. *)
Definition same_but_pos (h h' : store) : Prop :=
  forall x, erase_pos (h' x) = erase_pos (h x).

(** [x] lies below [r]: a child of [r], or below one. *)
Inductive beneath (h : store) : ref -> ref -> Prop :=
| beneath_child r c :
    In c (children_of_obj (h r)) -> beneath h r c
| beneath_deeper r c x :
    In c (children_of_obj (h r)) -> beneath h c x -> beneath h r x.

(** No branch from [r] down passes more than [d] nodes. *)
Inductive depth_within (h : store) : nat -> ref -> Prop :=
| depth_leaf d r cls value sp prefix parent :
    h r = OLeaf cls value sp prefix parent ->
    depth_within h d r
| depth_simple d r cls children parent :
    h r = OSimple cls children parent ->
    Forall (depth_within h d) children ->
    depth_within h (S d) r.

(** What [move] makes of a tree: every leaf with its [start_pos] shifted
    by the two offsets, the rest as it was. *)
Fixpoint shift (line_offset column_offset : Z) (t : tree) : tree :=
  match t with
  | Leaf cls value sp prefix =>
      Leaf cls value (fst sp + line_offset, snd sp + column_offset)%Z prefix
  | Simple cls cs => Simple cls (map (shift line_offset column_offset) cs)
  end.

Definition move_spec (line_offset column_offset : Z) (t : tree) : Prop :=
  forall h lo r parent cls cs fuel,
    t = Simple cls cs ->
    laid_out h lo t r parent ->
    height t <= fuel ->
    exists h',
      move fuel line_offset column_offset h r = (h', Ok tt)
      /\ laid_out h' lo (shift line_offset column_offset t) r parent
      /\ forall x, x < lo \/ r < x -> h' x = h x.

End StoreSpec.

(** ** Flow chains *)

Module FlowSpec.
Import Flow.

(** [l] lists the segments from [a] on, following [next] up to the segment
    whose [next] is [None]. *)
Inductive chain (h : store) : ref -> list ref -> Prop :=
| chain_tail a :
    next (h a) = None -> chain h a [a]
| chain_link a b l :
    next (h a) = Some b -> chain h b l -> chain h a (a :: l).

(** A segment on its own. *)
Definition fresh : t := Build None None None.

(** The chain of [if ...: ... elif ...: ...]: segment 0 is followed by
    segment 1, both owned by scope 7; segment 2 (an [else]) is not linked
    yet. *)
Definition if_elif : store :=
  fun r =>
    match r with
    | 0 => Build (Some 1) None (Some 7)
    | 1 => Build None (Some 0) (Some 7)
    | _ => fresh
    end.

End FlowSpec.

(** ** Positions *)

Module PositionsSpec.

(** Every [Simple] node of the tree has a child, as every node that a
    parser makes has. *)
Fixpoint no_empty_node (t : tree) : bool :=
  match t with
  | Leaf _ _ _ _ => true
  | Simple _ cs =>
      match cs with
      | [] => false
      | _ :: _ => forallb no_empty_node cs
      end
  end.

(** The inner loop of [tree_end_pos] as a function of its own. *)
Fixpoint last_end (l : list tree) : result position :=
  match l with
  | [] => Raise IndexError
  | [c] => tree_end_pos c
  | _ :: rest => last_end rest
  end.

(** A position moved by the two offsets. *)
Definition translate (line_offset column_offset : Z) (p : position)
  : position :=
  (fst p + line_offset, snd p + column_offset)%Z.

End PositionsSpec.

(** ** Siblings *)

Module SiblingSpec.
Import Store.

Definition is_leaf (o : obj) : bool :=
  match o with
  | OLeaf _ _ _ _ _ => true
  | OSimple _ _ _ => false
  end.

End SiblingSpec.

(** ** The walks up the parents *)

Module BaseSpec.
Import Base.

(** The class a node of the tree is made from. *)
Definition tree_class (t : tree) : runtime_class :=
  match t with
  | Leaf cls _ _ _ => OfLeaf cls
  | Simple cls _ => OfSimple cls
  end.

(** The test that ends the loop of [get_parent_until] at an object of
    class [c] that has a parent. *)
Definition stops (classes : list class_name) (reverse : bool)
  (c : runtime_class) : bool :=
  match classes with [] => false | _ :: _ => true end
  && xorb reverse (isinstance c classes).

(** The longest prefix of [path], the empty one apart, that leads from [t]
    to a node whose class satisfies [stop]; [None] when there is none. *)
Fixpoint nearest (stop : runtime_class -> bool) (t : tree) (path : list nat)
  : option (list nat) :=
  match path with
  | [] => None
  | k :: rest =>
      match t with
      | Simple _ cs =>
          match nth_error cs k with
          | Some c =>
              match nearest stop c rest with
              | Some p => Some (k :: p)
              | None => if stop (tree_class c) then Some [k] else None
              end
          | None => None
          end
      | Leaf _ _ _ _ => None
      end
  end.

(** Where a walk from the node at [path] ends in a tree whose root has no
    parent: at the nearest node that stops it, else at the root. *)
Definition end_of_walk (stop : runtime_class -> bool) (t : tree)
  (path : list nat) : list nat :=
  match nearest stop t path with
  | Some p => p
  | None => []
  end.

(** [isinstance(node, (ArrayStmt, StatementElement, Node))]: the classes
    [Name.get_definition] walks through. *)
Definition is_expression_part (c : runtime_class) : bool :=
  isinstance c [PyArrayStmt; PyStatementElement; PyNode].

End BaseSpec.

(** ** Function._params *)

Module FunctionSpec.
Import Function_.

(** The token that writes the stars of a parameter. *)
Inductive star_tokens : nat -> list tree -> Prop :=
| no_star :
    star_tokens 0 []
| one_star sp prefix :
    star_tokens 1 [Leaf Operator "*" sp prefix]
| two_stars sp prefix :
    star_tokens 2 [Leaf Operator "**" sp prefix].

(** The tokens that write the default of a parameter. *)
Inductive default_tokens : option tree -> list tree -> Prop :=
| no_default :
    default_tokens None []
| with_default sp prefix d :
    default_tokens (Some d) [Leaf Operator "=" sp prefix; d].

(** A parameter as a [typedargslist] writes it: the stars, the name or
    [tfpdef] node, the default.  A parameter without stars does not begin
    with a star, and a [tfpdef] node has a child. *)
Inductive written_param : Param.t -> list tree -> Prop :=
| written_param_intro tfpdef default stars ss ds n :
    star_tokens stars ss ->
    default_tokens default ds ->
    (stars = 0 -> is_star tfpdef = false) ->
    Param.get_name (Param.Build tfpdef default stars) = Ok n ->
    written_param (Param.Build tfpdef default stars) (ss ++ tfpdef :: ds).

(** The children of a [typedargslist]: the parameters with a separator,
    which is not [=], between two of them, and possibly one at the end. *)
Inductive written_params : list Param.t -> list tree -> Prop :=
| written_none :
    written_params [] []
| written_last p toks :
    written_param p toks ->
    written_params [p] toks
| written_more p toks sep ps rest :
    written_param p toks ->
    eq_str sep "=" = false ->
    written_params ps rest ->
    written_params (p :: ps) (toks ++ sep :: rest).

(** The tokens of parameters that are each followed by a separator. *)
Definition separated (items : list (Param.t * list tree * tree))
  : list tree :=
  flat_map (fun i => snd (fst i) ++ [snd i]) items.

(** Each item is a parameter with the tokens that write it and a
    separator, which is not [=]. *)
Definition well_separated (items : list (Param.t * list tree * tree))
  : Prop :=
  Forall (fun i => written_param (fst (fst i)) (snd (fst i))
                   /\ eq_str (snd i) "=" = false)
    items.

(** [def f(a, b=1, *args, **kwargs): pass], up to the colon. *)
Definition four_params : list tree :=
  [ Examples.name_ "a" 1 6 ""; Examples.op_ "," 1 7 "";
    Examples.name_ "b" 1 9 " "; Examples.op_ "=" 1 10 "";
    Examples.lit_ "1" 1 11 ""; Examples.op_ "," 1 12 "";
    Examples.op_ "*" 1 14 " "; Examples.name_ "args" 1 15 "";
    Examples.op_ "," 1 19 "";
    Examples.op_ "**" 1 21 " "; Examples.name_ "kwargs" 1 23 "" ].

Definition def_four_params : list tree :=
  [ Examples.kw_ "def" 1 0 ""; Examples.name_ "f" 1 4 " ";
    Simple (Node "parameters")
      [ Examples.op_ "(" 1 5 "";
        Simple (Node "typedargslist") four_params;
        Examples.op_ ")" 1 29 "" ];
    Examples.op_ ":" 1 30 "" ].

End FunctionSpec.

(** ** The contents of a scope *)

Module ScopeContentsSpec.
Import ScopeContents.

(** [is_node(element, 'suite') or is_node(element, 'simple_stmt')]. *)
Definition is_block (element : tree) : bool :=
  is_node element ["suite"] || is_node element ["simple_stmt"].

(** The element of type [typ] that [path] leads to from a list of
    children: every element passed on the way is a suite or a simple
    statement, and none of them is of type [typ]. *)
Fixpoint found_at (typ : tree -> bool) (children : list tree)
  (path : list nat) : option tree :=
  match path with
  | [] => None
  | k :: rest =>
      match nth_error children k with
      | None => None
      | Some e =>
          match rest with
          | [] => if typ e then Some e else None
          | _ :: _ =>
              if typ e then None
              else if is_block e then
                match e with
                | Simple _ cs => found_at typ cs rest
                | Leaf _ _ _ _ => None
                end
              else None
          end
      end
  end.

(** The children [Scope.get_defined_names] goes through: those of the
    suite when the last child is one, the children themselves otherwise. *)
Definition body_of (children : list tree) : result (list tree) :=
  last <- index_last children ;;
  if is_node last ["suite"] then children_of last else Ok children.

Definition is_class_or_function (c : tree) : bool :=
  match c with
  | Simple Class _ | Simple Function _ => true
  | _ => false
  end.

Definition is_keyword_statement (s : tree) : bool :=
  match s with
  | Simple KeywordStatement _ => true
  | _ => false
  end.

(** The scopes at and below an element, each before the scopes inside it:
    a scope is looked into, and so is a suite or a simple statement;
    nothing else is. *)
Fixpoint scopes_within (element : tree) : list tree :=
  match element with
  | Simple _ cs =>
      if is_Scope element then element :: flat_map scopes_within cs
      else if is_block element then flat_map scopes_within cs
      else []
  | Leaf _ _ _ _ => []
  end.

(** [pass] on a line of its own. *)
Definition pass_line : tree :=
  Simple (Node "simple_stmt")
    [ Simple KeywordStatement [ Examples.kw_ "pass" 1 0 "" ];
      Examples.ws_ Examples.newline 1 4 "" ].

End ScopeContentsSpec.

(** ** Array.add_statement *)

Module ArraySpec.
Import Array.

Section WithStatement.
Variable stmt : Type.

(** The calls [add_statement(statement, is_key)] of a list, in a row. *)
Definition add_all (a : Array.t stmt) (adds : list (stmt * bool))
  : Array.t stmt :=
  fold_left (fun a p => add_statement a (fst p) (snd p)) adds a.

(** The values of [l] added to the array [a], one after the other. *)
Definition add_values (a : Array.t stmt) (l : list stmt) : Array.t stmt :=
  add_all a (map (fun s => (s, false)) l).

(** The pairs of [l] added to the array [a]: of each the key, then the
    value. *)
Definition add_pairs (a : Array.t stmt) (l : list (stmt * stmt))
  : Array.t stmt :=
  add_all a (flat_map (fun kv => [(fst kv, true); (snd kv, false)]) l).

End WithStatement.

End ArraySpec.

(** ** Call paths *)

Module CallPathSpec.
Import StatementElement.

(** [l] lists the elements from [a] on, following [next] up to the element
    whose [next] is [None]. *)
Inductive chain (h : store) : ref -> list ref -> Prop :=
| chain_tail a :
    next (h a) = None -> chain h a [a]
| chain_link a b l :
    next (h a) = Some b -> chain h b l -> chain h a (a :: l).

(** What [generate_call_path] yields for the element [x]. *)
Definition step_of (h : store) (x : ref) : step :=
  match what (h x) with
  | IsCall name => StepName name
  | IsArray _ => StepSelf x
  end.

(** The names of the calls at the head of a list of elements, up to the
    first array. *)
Fixpoint leading_names (h : store) (l : list ref) : list string :=
  match l with
  | [] => []
  | x :: rest =>
      match what (h x) with
      | IsCall name => name :: leading_names h rest
      | IsArray _ => []
      end
  end.

(** The elements of [a.b(...)]: the calls [a] and [b] are linked, owned by
    statement 9; the array of the arguments, element 2, is not linked
    yet. *)
Definition a_dot_b : store :=
  fun r =>
    match r with
    | 0 => Build (IsCall "a") (Some 1) None (Some 9)
    | 1 => Build (IsCall "b") None (Some 0) (Some 9)
    | _ => Build (IsArray Array.TUPLE) None None None
    end.

End CallPathSpec.

(** ** space *)

Module SpaceSpec.

(** Where a cursor at [pos] stands after the text [s]: a line break leads
    to column 0 of the next line, any other character one column on. *)
Fixpoint advance (pos : position) (s : string) : position :=
  match s with
  | EmptyString => pos
  | String c rest =>
      if Ascii.eqb c (ascii_of_nat 10)
      then advance ((fst pos + 1)%Z, 0%Z) rest
      else advance (fst pos, (snd pos + 1)%Z) rest
  end.

End SpaceSpec.

(** ** GlobalStmt *)

Module GlobalStmtSpec.

(** The children of [global n1, n2, ...] after the keyword and the first
    name: each separator with the name behind it. *)
Definition more_names (rest : list (tree * tree)) : list tree :=
  flat_map (fun p => [fst p; snd p]) rest.

End GlobalStmtSpec.

(* ================================================================== *)
(** * Lemmas and theorems *)
(* ================================================================== *)

Lemma bind_ok {A B : Type} (a : A) (k : A -> result B) :
  Py.bind (Ok a) k = k a.
Proof. reflexivity. Qed.

Lemma mapM_map {A B C : Type} (g : A -> B) (f : B -> result C) (l : list A) :
  mapM f (map g l) = mapM (fun a => f (g a)) l.
Proof.
  induction l as [|a l IH]; simpl; [reflexivity|].
  rewrite IH. reflexivity.
Qed.

Lemma mapM_ext_in {A B : Type} (f g : A -> result B) (l : list A) :
  (forall a, In a l -> f a = g a) -> mapM f l = mapM g l.
Proof.
  induction l as [|a l IH]; intros Hfg; simpl; [reflexivity|].
  rewrite (Hfg a (or_introl eq_refl)), IH; [reflexivity|].
  intros b Hb. apply Hfg. right. exact Hb.
Qed.

(** ** Statement.get_defined_names *)

Module StatementFacts.
Import Statement.
Import StatementSpec.

Lemma check_tuple_node ty cs :
  check_tuple (Simple (Node ty) cs) =
  if is_tuple_symbol ty then check_every_other cs
  else if String.eqb ty "atom" then
         match cs with
         | _ :: c1 :: _ => check_tuple c1
         | _ => Raise IndexError
         end
  else if String.eqb ty "power" then check_power cs
  else Ok [Simple (Node ty) cs].
Proof. reflexivity. Qed.

(** The inner loop of [check_tuple] runs [check_tuple] over
    [children[::2]] and joins the results. *)
Lemma check_every_other_stride2 cs :
  check_every_other cs
  = fmap (@List.concat tree) (mapM check_tuple (stride2 cs)).
Proof.
  revert cs. fix IH 1. intros [|c [|sep rest]].
  - reflexivity.
  - simpl. destruct (check_tuple c); reflexivity.
  - change (check_every_other (c :: sep :: rest))
      with (names <- check_tuple c ;;
            more <- check_every_other rest ;;
            Ok (names ++ more)).
    rewrite (IH rest). simpl.
    destruct (check_tuple c); simpl; [|reflexivity].
    destruct (mapM check_tuple (stride2 rest)); reflexivity.
Qed.

Lemma by_segments_cons target op r rest :
  by_segments (target :: op :: r :: rest) =
  (v <- value_of op ;;
   names <- (if String.eqb v "=" then check_tuple target else Ok []) ;;
   more <- by_segments (r :: rest) ;;
   Ok (names ++ more)).
Proof. reflexivity. Qed.

Lemma range_step2_succ n :
  range_step2 (S n) = 0 :: map (fun i => i + 2) (range_step2 (n - 1)).
Proof.
  unfold range_step2.
  replace (S n + 1) with (S (S n)) by lia.
  replace (Nat.div2 (S (S n))) with (S (Nat.div2 n)) by reflexivity.
  replace (Nat.div2 (n - 1 + 1)) with (Nat.div2 n).
  - simpl seq. simpl map at 1. f_equal.
    rewrite <- seq_shift, !map_map.
    apply map_ext. intros k. lia.
  - destruct n as [|n]; [reflexivity|].
    f_equal. lia.
Qed.

Lemma index_skip2 {A : Type} (a b : A) (l : list A) (i : nat) :
  index (a :: b :: l) (i + 2) = index l i.
Proof.
  unfold index. replace (i + 2) with (S (S i)) by lia. reflexivity.
Qed.

Lemma get_defined_names_by_segments children :
  get_defined_names children = by_segments children.
Proof.
  remember (length children) as n eqn:Hn.
  revert children Hn.
  induction n as [n IH] using lt_wf_ind.
  intros [|target [|op [|r rest]]] Hn; try reflexivity.
  unfold get_defined_names.
  change (length (target :: op :: r :: rest) - 2) with (S (length rest)).
  rewrite range_step2_succ.
  cbn [mapM]. rewrite mapM_map.
  change (index (target :: op :: r :: rest) (0 + 1)) with (Ok op).
  change (index (target :: op :: r :: rest) 0) with (Ok target).
  rewrite by_segments_cons.
  rewrite <- (IH (length (r :: rest))); [|simpl in *; lia|reflexivity].
  unfold get_defined_names.
  replace (length (r :: rest) - 2) with (length rest - 1) by (simpl; lia).
  rewrite (mapM_ext_in
             (fun a =>
                op0 <- index (target :: op :: r :: rest) (a + 2 + 1) ;;
                v <- value_of op0 ;;
                (if String.eqb v "=" then
                   target0 <- index (target :: op :: r :: rest) (a + 2) ;;
                   check_tuple target0
                 else Ok []))
             (fun i =>
                op0 <- index (r :: rest) (i + 1) ;;
                v <- value_of op0 ;;
                (if String.eqb v "=" then
                   target0 <- index (r :: rest) i ;;
                   check_tuple target0
                 else Ok []))).
  - unfold fmap. simpl.
    destruct (value_of op) as [v|e]; simpl; [|reflexivity].
    destruct (if String.eqb v "=" then check_tuple target else Ok [])
      as [names|e]; simpl; [|reflexivity].
    destruct (mapM _ (range_step2 (length rest - 1))); reflexivity.
  - intros i _.
    replace (i + 2 + 1) with ((i + 1) + 2) by lia.
    rewrite !index_skip2. reflexivity.
Qed.

Lemma name_leaves_simple cls cs :
  name_leaves (Simple cls cs) = flat_map name_leaves cs.
Proof.
  unfold name_leaves. simpl.
  induction cs as [|c cs IH]; simpl; [reflexivity|].
  rewrite filter_app, IH. reflexivity.
Qed.

Lemma check_tuple_unpacks t :
  unpacks t -> check_tuple t = Ok (name_leaves t).
Proof.
  intros Ht.
  induction Ht using unpacks_mut
    with (P0 := fun cs _ =>
                  check_every_other cs = Ok (flat_map name_leaves cs)).
  - reflexivity.
  - rewrite check_tuple_node, e, name_leaves_simple. exact IHHt.
  - rewrite check_tuple_node. cbn [is_tuple_symbol String.eqb Ascii.eqb
                                     Bool.eqb orb].
    rewrite IHHt, name_leaves_simple. simpl.
    rewrite app_nil_r. reflexivity.
  - reflexivity.
  - simpl. rewrite IHHt. reflexivity.
  - change (check_every_other (t :: Leaf Operator sv ssp sp :: rest))
      with (names <- check_tuple t ;;
            more <- check_every_other rest ;;
            Ok (names ++ more)).
    rewrite IHHt, IHHt0. reflexivity.
Qed.

(** With [=] after every target, the result is what [check_tuple] finds in
    the targets, one target after the other. *)
Lemma by_segments_all_targets segs rhs :
  Forall (fun s => value_of (snd s) = Ok "=") segs ->
  by_segments (segments segs rhs)
  = fmap (@List.concat tree) (mapM check_tuple (map fst segs)).
Proof.
  induction 1 as [|[target op] segs Hop _ IH]; [reflexivity|].
  simpl in Hop. cbn [segments map fst mapM].
  destruct (segments segs rhs) as [|r rest] eqn:Hseg.
  - destruct segs as [|[? ?] ?]; discriminate.
  - rewrite by_segments_cons, IH, Hop. simpl.
    destruct (check_tuple target); simpl; [|reflexivity].
    destruct (mapM check_tuple (map fst segs)); reflexivity.
Qed.

Lemma by_segments_segments segs rhs :
  Forall (fun s => unpacks (fst s) /\ value_of (snd s) = Ok "=") segs ->
  by_segments (segments segs rhs) =
  Ok (flat_map (fun s => name_leaves (fst s)) segs).
Proof.
  induction 1 as [|[target op] segs [Ht Hop] _ IH]; [reflexivity|].
  simpl in Ht, Hop.
  cbn [segments flat_map fst].
  destruct (segments segs rhs) as [|r rest] eqn:Hseg.
  - destruct segs as [|[? ?] ?]; discriminate.
  - rewrite by_segments_cons, IH, Hop, (check_tuple_unpacks Ht).
    reflexivity.
Qed.

(** C1 (as stated, refuted): for [a.b = 1] the method returns the attribute
    name [b], not the empty list. *)
Lemma attribute_assignment_binds_b :
  get_defined_names Examples.attribute_assignment
  = Ok [Leaf Name "b" (1, 2)%Z ""]
  /\ get_defined_names Examples.attribute_assignment <> Ok [].
Proof.
  split; [reflexivity | discriminate].
Qed.

Lemma check_power_last_trailer front prev tcls tcs :
  ne_str prev "**" = true ->
  check_power (front ++ [prev; Simple tcls tcs]) =
  (t0 <- index tcs 0 ;;
   if eq_str t0 "." then t1 <- index tcs 1 ;; Ok [t1] else Ok []).
Proof.
  intros Hprev. unfold check_power, index_last2, index_last.
  rewrite rev_app_distr. simpl. rewrite Hprev. reflexivity.
Qed.

(** C1 (amended): a statement [target = rhs] whose target is a [power] node
    binds the name of its last trailer when that trailer is an attribute
    access ([.name]), and binds nothing when the last trailer is a subscript
    or a call. *)
Theorem attribute_target_binds_attribute_name :
  (forall front prev tcls dot attr more op rhs,
      ne_str prev "**" = true ->
      eq_str dot "." = true ->
      value_of op = Ok "=" ->
      get_defined_names
        [ Simple (Node "power")
            (front ++ [prev; Simple tcls (dot :: attr :: more)]);
          op; rhs ]
      = Ok [attr])
  /\
  (forall front prev tcls t0 more op rhs,
      ne_str prev "**" = true ->
      eq_str t0 "." = false ->
      value_of op = Ok "=" ->
      get_defined_names
        [ Simple (Node "power") (front ++ [prev; Simple tcls (t0 :: more)]);
          op; rhs ]
      = Ok []).
Proof.
  split; intros; rewrite get_defined_names_by_segments, by_segments_cons.
  - rewrite H1. simpl by_segments. cbn [Py.bind String.eqb Ascii.eqb Bool.eqb].
    rewrite check_tuple_node.
    cbn [is_tuple_symbol String.eqb Ascii.eqb Bool.eqb orb].
    rewrite check_power_last_trailer by assumption.
    simpl. rewrite H0. reflexivity.
  - rewrite H1. simpl by_segments. cbn [Py.bind String.eqb Ascii.eqb Bool.eqb].
    rewrite check_tuple_node.
    cbn [is_tuple_symbol String.eqb Ascii.eqb Bool.eqb orb].
    rewrite check_power_last_trailer by assumption.
    simpl. rewrite H0. reflexivity.
Qed.

Lemma attribute_target_binds_attribute_name_witness :
  get_defined_names Examples.attribute_assignment
  = Ok [Examples.name_ "b" 1 2 ""]
  /\ get_defined_names Examples.subscript_assignment = Ok [].
Proof.
  split.
  - exact (proj1 attribute_target_binds_attribute_name
             [] (Examples.name_ "a" 1 0 "") (Node "trailer")
             (Examples.op_ "." 1 1 "") (Examples.name_ "b" 1 2 "") []
             (Examples.op_ "=" 1 4 " ") (Examples.lit_ "1" 1 6 " ")
             eq_refl eq_refl eq_refl).
  - exact (proj2 attribute_target_binds_attribute_name
             [] (Examples.name_ "a" 1 0 "") (Node "trailer")
             (Examples.op_ "[" 1 1 "")
             [Examples.lit_ "0" 1 2 ""; Examples.op_ "]" 1 3 ""]
             (Examples.op_ "=" 1 5 " ") (Examples.lit_ "1" 1 7 " ")
             eq_refl eq_refl eq_refl).
Defined.


Lemma nested_target_unpacks : unpacks Examples.nested_target.
Proof.
  apply unpacks_tuple; [reflexivity|].
  apply unpacks_more; [apply unpacks_name|].
  apply unpacks_last. apply unpacks_bracket.
  apply unpacks_tuple; [reflexivity|].
  apply unpacks_more; [apply unpacks_name|].
  apply unpacks_last. apply unpacks_name.
Defined.


End StatementFacts.

(** ** Import.get_defined_names *)

Module ImportFacts.
Import Import_.


Lemma index_last_app {A : Type} (l : list A) (x : A) :
  index_last (l ++ [x]) = Ok x.
Proof.
  unfold index_last. rewrite rev_app_distr. reflexivity.
Qed.



End ImportFacts.

(** ** filter_after_position *)

Module PositionFacts.
Import PositionSpec.

Lemma pos_lt_lex a b : pos_lt a b = true <-> lex_lt a b.
Proof.
  unfold pos_lt, lex_lt.
  rewrite orb_true_iff, andb_true_iff, Z.ltb_lt, Z.eqb_eq, Z.ltb_lt.
  reflexivity.
Qed.

Lemma lex_le_not_lt a b : lex_le b a -> ~ lex_lt a b.
Proof.
  unfold lex_le, lex_lt. lia.
Qed.

Section Generic.

Context {A : Type} {PA : Positioned A}.

Lemma filter_loop_filter names : forall names_new p,
  Forall has_start_pos names ->
  filter_loop names_new names p
  = Ok (names_new ++ filter (visible_before p) names).
Proof.
  induction names as [|n names IH]; intros names_new p Hall.
  - simpl. rewrite app_nil_r. reflexivity.
  - inversion Hall as [|? ? [sp Hsp] Hrest]; subst.
    simpl. unfold visible_before at 1. rewrite Hsp. simpl.
    destruct (starts_before sp p).
    + rewrite IH by assumption. rewrite <- app_assoc. reflexivity.
    + apply IH. assumption.
Qed.

Lemma filter_loop_ok names : forall names_new p out,
  filter_loop names_new names p = Ok out ->
  Forall has_start_pos names.
Proof.
  induction names as [|n names IH]; intros names_new p out Hout.
  - constructor.
  - simpl in Hout. destruct (start_pos n) as [sp|e] eqn:Hsp; [|discriminate].
    simpl in Hout. constructor; [exists sp; exact Hsp|].
    destruct (starts_before sp p); eapply IH; exact Hout.
Qed.

Lemma filter_after_position_filter names p :
  Forall has_start_pos names ->
  filter_after_position names (Some p)
  = Ok (filter (visible_before p) names).
Proof.
  intros Hall. unfold filter_after_position.
  rewrite filter_loop_filter by assumption. reflexivity.
Qed.

Lemma visible_before_lex p n l c :
  start_pos n = Ok (Some l, c) ->
  visible_before p n = true <-> lex_lt (l, c) p.
Proof.
  intros Hsp. unfold visible_before, starts_before. rewrite Hsp. simpl.
  apply pos_lt_lex.
Qed.

End Generic.

(** C9: with no position the names come back unchanged; with a position
    [p] a result, when there is one, is the input filtered, in its order,
    to the names that start strictly before [p], and there is one when
    every name has a [start_pos]; so a name that starts at or after [p] is
    dropped (and so is a name whose line is [None]). *)
Theorem filter_after_position_keeps_names_before :
  forall (A : Type) (PA : Positioned A) (names : list A),
    filter_after_position names None = Ok names
    /\
    (forall p out,
        filter_after_position names (Some p) = Ok out ->
        out = filter (visible_before p) names)
    /\
    forall p,
      Forall has_start_pos names ->
      exists out,
        filter_after_position names (Some p) = Ok out
        /\ out = filter (visible_before p) names
        /\ (forall n l c,
               In n names -> start_pos n = Ok (Some l, c) ->
               (In n out <-> lex_lt (l, c) p))
        /\ (forall n l c,
               start_pos n = Ok (Some l, c) -> lex_le p (l, c) ->
               ~ In n out)
        /\ (forall n c, start_pos n = Ok (None, c) -> ~ In n out).
Proof.
  intros A PA names. split; [reflexivity|]. split.
  { intros p out Hout.
    pose proof (filter_loop_ok _ _ _ Hout) as Hall.
    rewrite (filter_after_position_filter p Hall) in Hout.
    injection Hout as <-. reflexivity. }
  intros p Hall. exists (filter (visible_before p) names).
  split; [apply filter_after_position_filter; assumption|].
  split; [reflexivity|].
  split; [|split].
  - intros n l c Hin Hsp. rewrite filter_In.
    rewrite (visible_before_lex p n Hsp). tauto.
  - intros n l c Hsp Hle Hin. apply filter_In in Hin.
    destruct Hin as [_ Hvis].
    apply (visible_before_lex p n Hsp) in Hvis.
    exact (lex_le_not_lt Hle Hvis).
  - intros n c Hsp Hin. apply filter_In in Hin.
    destruct Hin as [_ Hvis].
    unfold visible_before in Hvis. rewrite Hsp in Hvis. discriminate Hvis.
Qed.

Lemma filter_after_position_keeps_names_before_witness :
  filter_after_position
    [ Examples.name_ "a" 1 0 ""; Examples.name_ "b" 2 0 "";
      Examples.name_ "c" 2 4 "" ]
    (Some (2, 4)%Z)
  = Ok [ Examples.name_ "a" 1 0 ""; Examples.name_ "b" 2 0 "" ].
Proof.
  assert (Hall : Forall (@has_start_pos tree tree_positioned)
                   [ Examples.name_ "a" 1 0 ""; Examples.name_ "b" 2 0 "";
                     Examples.name_ "c" 2 4 "" ]).
  { repeat (apply Forall_cons; [eexists; reflexivity|]). apply Forall_nil. }
  destruct (proj2 (proj2 (@filter_after_position_keeps_names_before
                            tree tree_positioned _)) (2, 4)%Z Hall)
    as [out [Hout [Heq _]]].
  rewrite Heq in Hout. exact Hout.
Defined.

End PositionFacts.

(** ** Array *)

Module ArrayFacts.
Import Array.

(** C8: a [DICT] array refuses to be iterated or indexed, every other
    array refuses [items]; whichever protocol an array answers, it refuses
    the other one. *)
Theorem array_protocols_exclude_each_other :
  forall (stmt : Type) (a : Array.t stmt),
    (type a = DICT ->
     __iter__ a = Raise TypeError
     /\ (forall key, __getitem__ a key = Raise TypeError)
     /\ items a = Ok (combine (keys a) (values a)))
    /\
    (type a <> DICT ->
     items a = Raise TypeError
     /\ __iter__ a = Ok (values a)
     /\ (forall key, __getitem__ a key = list_getitem (values a) key))
    /\
    (forall l, __iter__ a = Ok l -> items a = Raise TypeError)
    /\
    (forall l, items a = Ok l ->
               __iter__ a = Raise TypeError
               /\ forall key, __getitem__ a key = Raise TypeError).
Proof.
  intros stmt a.
  unfold __iter__, __getitem__, items.
  destruct (type a); simpl;
    repeat split; intros; try reflexivity; try discriminate;
    try congruence.
Qed.

Lemma array_protocols_exclude_each_other_witness :
  __iter__ (add_statement (add_statement (Build LIST [] []) 1 true) 2 false)
  = Raise TypeError
  /\ items (add_statement (Build LIST [] []) 2 false) = Raise TypeError.
Proof.
  split.
  - exact (proj1
             (proj1 (array_protocols_exclude_each_other
                       (add_statement
                          (add_statement (Build LIST [] []) 1 true)
                          2 false))
                eq_refl)).
  - refine (proj1
              (proj1 (proj2 (array_protocols_exclude_each_other
                               (add_statement (Build LIST [] []) 2 false)))
                 _)).
    simpl. discriminate.
Defined.

End ArrayFacts.

(** ** Function._params *)

Module FunctionFacts.
Import Function_.

Lemma params_round_shorter n it round :
  params_round n it = Ok round -> length (snd round) <= length it.
Proof.
  unfold params_round. intros Hround.
  assert (Htl : forall l : list tree, length (tl l) <= length l)
    by (intros [|x l]; simpl; lia).
  destruct (is_star n).
  - destruct (value_of n) as [v|e]; [|discriminate].
    destruct it as [|n' it']; [discriminate|].
    simpl in Hround.
    destruct (match hd_error it' with
              | Some o => eq_str o "="
              | None => false
              end).
    + destruct (tl it') as [|d it''] eqn:Hit; [discriminate|].
      simpl in Hround.
      destruct (Param.init n' (Some d) (String.length v)); [|discriminate].
      injection Hround as <-. simpl.
      pose proof (Htl it'). pose proof (Htl it''). rewrite Hit in *.
      simpl in *. lia.
    + simpl in Hround.
      destruct (Param.init n' None (String.length v)); [|discriminate].
      injection Hround as <-. simpl. pose proof (Htl it'). lia.
  - simpl in Hround.
    destruct (match hd_error it with
              | Some o => eq_str o "="
              | None => false
              end).
    + destruct (tl it) as [|d it''] eqn:Hit; [discriminate|].
      simpl in Hround.
      destruct (Param.init n (Some d) 0); [|discriminate].
      injection Hround as <-. simpl.
      pose proof (Htl it). pose proof (Htl it''). rewrite Hit in *.
      simpl in *. lia.
    + simpl in Hround.
      destruct (Param.init n None 0); [|discriminate].
      injection Hround as <-. simpl. apply Htl.
Qed.

(** The length of the list is fuel enough for the loop: more changes
    nothing. *)
Lemma params_loop_fuel : forall fuel fuel' it,
  length it <= fuel ->
  length it <= fuel' ->
  params_loop fuel it = params_loop fuel' it.
Proof.
  induction fuel as [|fuel IH]; intros fuel' it Hfuel Hfuel'.
  - destruct it; [|simpl in Hfuel; lia]. destruct fuel'; reflexivity.
  - destruct it as [|n it]; [destruct fuel'; reflexivity|].
    destruct fuel' as [|fuel']; [simpl in Hfuel'; lia|].
    simpl. destruct (params_round n it) as [round|e] eqn:Hround;
      [|reflexivity].
    simpl. apply params_round_shorter in Hround.
    rewrite (IH fuel' (snd round)); [reflexivity| |]; simpl in *; lia.
Qed.

End FunctionFacts.

(** ** scope_names_generator *)

Module ScopeFacts.
Import PositionSpec.
Import PositionFacts.
Import ScopeSpec.

Lemma filter_after_position_visible names pos :
  (pos <> None -> Forall has_start_pos names) ->
  filter_after_position names pos = Ok (visible names pos).
Proof.
  destruct pos as [p|]; intros Hall; [|reflexivity].
  apply filter_after_position_filter. apply Hall. discriminate.
Qed.

(** C6 (as stated, refuted): the function [f] lies in three scopes (itself,
    the class, the module), yet its generator yields one entry. *)
Lemma generator_of_nested_function_yields_once :
  subtree Examples.module_of_C [0; 3; 1] = Some Examples.function_f
  /\ enclosing_scopes Examples.module_of_C [0; 3; 1]
     = [Examples.function_f; Examples.class_C; Examples.module_of_C]
  /\ Function_.scope_names_generator Examples.function_f (Some (4, 0)%Z)
     = Ok [ (Examples.function_f,
             [ Examples.name_ "a" 3 8 "        ";
               Examples.name_ "p" 2 10 "" ]) ].
Proof.
  repeat split.
Qed.

(** C6 (amended): the generator of a class or of a function yields exactly
    one entry, for that scope itself: the scope paired with its defined
    names, all of them when no position is given and else those that start
    strictly before the position.  When [get_defined_names] raises, so does
    the generator. *)
Theorem scope_names_generator_yields_own_scope :
  (forall cs pos names,
      Class_.get_defined_names cs = Ok names ->
      (pos <> None -> Forall has_start_pos names) ->
      Class_.scope_names_generator (Simple Class cs) pos
      = Ok [(Simple Class cs, visible names pos)])
  /\
  (forall cs pos names,
      Function_.get_defined_names cs = Ok names ->
      (pos <> None -> Forall has_start_pos names) ->
      Function_.scope_names_generator (Simple Function cs) pos
      = Ok [(Simple Function cs, visible names pos)])
  /\
  (forall cs pos e,
      Class_.get_defined_names cs = Raise e ->
      Class_.scope_names_generator (Simple Class cs) pos = Raise e)
  /\
  (forall cs pos e,
      Function_.get_defined_names cs = Raise e ->
      Function_.scope_names_generator (Simple Function cs) pos = Raise e).
Proof.
  repeat split.
  - intros cs pos names Hnames Hall.
    unfold Class_.scope_names_generator. simpl. rewrite Hnames. simpl.
    rewrite filter_after_position_visible by assumption. reflexivity.
  - intros cs pos names Hnames Hall.
    unfold Function_.scope_names_generator. simpl. rewrite Hnames. simpl.
    rewrite filter_after_position_visible by assumption. reflexivity.
  - intros cs pos e Hnames.
    unfold Class_.scope_names_generator. simpl. rewrite Hnames. reflexivity.
  - intros cs pos e Hnames.
    unfold Function_.scope_names_generator. simpl. rewrite Hnames.
    reflexivity.
Qed.

Lemma all_leaves_have_start_pos (names : list tree) :
  Forall (fun n => is_name n = true) names ->
  Forall has_start_pos names.
Proof.
  induction 1 as [|n names Hn _ IH]; constructor; [|exact IH].
  destruct n as [cls v sp p|cls cs]; [|discriminate].
  eexists. reflexivity.
Defined.

Lemma scope_names_generator_yields_own_scope_witness :
  Function_.scope_names_generator Examples.function_f (Some (4, 0)%Z)
  = Ok [ (Examples.function_f,
          [ Examples.name_ "a" 3 8 "        "; Examples.name_ "p" 2 10 "" ]) ]
  /\
  Class_.scope_names_generator Examples.class_C None
  = Ok [ (Examples.class_C, [ Examples.name_ "f" 2 8 " " ]) ].
Proof.
  split.
  - refine (proj1 (proj2 scope_names_generator_yields_own_scope)
              Examples.function_f_children (Some (4, 0)%Z)
              [ Examples.name_ "a" 3 8 "        ";
                Examples.name_ "b" 4 8 "        ";
                Examples.name_ "p" 2 10 "" ] eq_refl _).
    intros _. apply all_leaves_have_start_pos.
    repeat (apply Forall_cons; [reflexivity|]). apply Forall_nil.
  - refine (proj1 scope_names_generator_yields_own_scope
              Examples.class_C_children None [ Examples.name_ "f" 2 8 " " ]
              eq_refl _).
    intros Hpos. exfalso. apply Hpos. reflexivity.
Defined.

End ScopeFacts.

(** ** The object store *)

Module StoreFacts.
Import Store.
Import StoreSpec.

(** *** get_code *)

Lemma append_nil_r (s : string) : (s ++ "")%string = s.
Proof.
  induction s as [|a s IH]; simpl; [reflexivity|].
  rewrite IH. reflexivity.
Qed.

Lemma append_assoc (a b c : string) :
  ((a ++ b) ++ c)%string = (a ++ (b ++ c))%string.
Proof.
  induction a as [|x a IH]; simpl; [reflexivity|].
  rewrite IH. reflexivity.
Qed.

Lemma concat_cons (x : string) (l : list string) :
  String.concat "" (x :: l) = (x ++ String.concat "" l)%string.
Proof.
  destruct l as [|y l]; simpl; [|reflexivity].
  rewrite append_nil_r. reflexivity.
Qed.

Lemma concat_app (l1 l2 : list string) :
  String.concat "" (l1 ++ l2)
  = (String.concat "" l1 ++ String.concat "" l2)%string.
Proof.
  induction l1 as [|x l1 IH]; [reflexivity|].
  rewrite <- app_comm_cons, !concat_cons, IH, append_assoc. reflexivity.
Qed.

Lemma tree_code_leaves t :
  tree_code t = String.concat "" (map tree_code (leaves t)).
Proof.
  induction t as [cls v sp p|cls cs IH] using tree_ind'.
  - reflexivity.
  - simpl. induction IH as [|c cs Hc _ IHcs]; [reflexivity|].
    simpl flat_map. rewrite map_app, concat_app, <- Hc, <- IHcs.
    simpl map. apply concat_cons.
Qed.

Lemma height_child c cs :
  In c cs -> height c <= list_max (map height cs).
Proof.
  intros Hin.
  assert (H : Forall (fun k => k <= list_max (map height cs))
                (map height cs))
    by (apply list_max_le; lia).
  rewrite Forall_forall in H. apply H. apply in_map. exact Hin.
Qed.

Lemma represents_holds h t : forall r parent,
  represents h t r parent -> holds h t r.
Proof.
  induction t as [cls v sp p|cls cs IH] using tree_ind'; intros r parent Hrep.
  - inversion Hrep as [? ? ? ? ? ? Hr|]; subst.
    eapply holds_leaf. exact Hr.
  - inversion Hrep as [|? ? refs ? ? Hr _ Hall]; subst.
    eapply holds_simple; [exact Hr|].
    clear Hr Hrep.
    induction Hall as [|c cr cs refs Hc _ IHall]; constructor;
      inversion IH as [|? ? IHc IHcs]; subst.
    + exact (IHc _ _ Hc).
    + exact (IHall IHcs).
Qed.

(** [get_code] reads the children and the leaves' [prefix] and [value],
    and nothing else. *)
Lemma get_code_holds h t : forall r fuel,
  holds h t r ->
  height t < fuel ->
  get_code fuel h r = Ok (tree_code t).
Proof.
  induction t as [cls v sp p|cls cs IH] using tree_ind';
    intros r fuel Hrep Hfuel.
  - inversion Hrep as [? ? ? ? ? ? Hr|]; subst.
    destruct fuel as [|fuel]; [lia|]. simpl. rewrite Hr. reflexivity.
  - inversion Hrep as [|? ? refs ? ? Hr Hall]; subst.
    destruct fuel as [|fuel]; [lia|]. simpl. rewrite Hr.
    assert (Hcs : mapM (get_code fuel h) refs = Ok (map tree_code cs)).
    { assert (Hh : forall c, In c cs -> height c < fuel).
      { intros c Hc. apply height_child in Hc. simpl in Hfuel. lia. }
      clear Hr Hrep Hfuel.
      induction Hall as [|c cr cs refs Hc _ IHall]; [reflexivity|].
      inversion IH as [|? ? IHc IHcs]; subst.
      simpl. rewrite (IHc _ _ Hc) by (apply Hh; left; reflexivity).
      simpl. rewrite IHall; [reflexivity|exact IHcs|].
      intros c' Hc'. apply Hh. right. exact Hc'. }
    rewrite Hcs. reflexivity.
Qed.

Lemma covers_concat text ls :
  covers text ls -> String.concat "" (map tree_code ls) = text.
Proof.
  induction 1 as [|cls value sp prefix rest text _ IH]; [reflexivity|].
  simpl map. rewrite concat_cons, IH. simpl. apply append_assoc.
Qed.

(** *** assignment_indexes *)

Lemma find_child_none i children compare :
  ~ In compare children -> find_child i children compare = None.
Proof.
  revert i. induction children as [|c children IH]; intros i Hnot.
  - reflexivity.
  - simpl. destruct (Nat.eqb_spec c compare) as [->|_].
    + exfalso. apply Hnot. left. reflexivity.
    + apply IH. intros Hin. apply Hnot. right. exact Hin.
Qed.

Lemma find_child_nth children : forall i k compare,
  NoDup children ->
  nth_error children k = Some compare ->
  find_child i children compare = Some (i + k).
Proof.
  induction children as [|c children IH]; intros i k compare Hnd Hk.
  - destruct k; discriminate.
  - inversion Hnd as [|? ? Hnotin Hnd']; subst.
    destruct k as [|k]; simpl in *.
    + injection Hk as ->. rewrite Nat.eqb_refl. f_equal. lia.
    + destruct (Nat.eqb_spec c compare) as [->|_].
      * exfalso. apply Hnotin. eapply nth_error_In. exact Hk.
      * rewrite (IH (S i) k compare Hnd' Hk). f_equal. lia.
Qed.

Lemma tuple_children_some o children :
  tuple_children o = Some children ->
  children = children_of_obj o.
Proof.
  destruct o as [| [ty| | | | | | | | | |] cs par]; simpl; try discriminate.
  destruct (_ || _); [|discriminate].
  intros [= ->]. reflexivity.
Qed.

Lemma tuple_children_class cls children parent :
  tuple_children (OSimple cls children parent)
  = if is_tuple_class cls then Some children else None.
Proof.
  destruct cls; reflexivity.
Qed.

Lemma climb_top fuel h indexes compare :
  climb fuel h indexes None compare = Some (Ok indexes).
Proof. destruct fuel; reflexivity. Qed.

(** An ancestor that does not hold the branch it was reached from stops
    the loop with [LookupError], whatever came before. *)
Lemma climb_raises h : forall k self compare node indexes fuel,
  nth_parent h k self = Some compare ->
  parent_of (h compare) = Some node ->
  tuple_children (h node) <> None ->
  ~ In compare (children_of_obj (h node)) ->
  k < fuel ->
  climb fuel h indexes (parent_of (h self)) self = Some (Raise LookupError).
Proof.
  induction k as [|k IH];
    intros self compare node indexes fuel Hk Hpar Htuple Hnotin Hfuel;
    (destruct fuel as [|fuel]; [lia|]); simpl in Hk.
  - injection Hk as ->. rewrite Hpar. simpl.
    destruct (tuple_children (h node)) as [children|] eqn:Hc;
      [|contradiction].
    rewrite (tuple_children_some _ Hc), find_child_none by exact Hnotin.
    reflexivity.
  - destruct (parent_of (h self)) as [p|] eqn:Hp; [|discriminate].
    simpl.
    destruct (tuple_children (h p)) as [children|].
    + destruct (find_child 0 children self) as [i|]; [|reflexivity].
      eapply IH; eauto. lia.
    + eapply IH; eauto. lia.
Qed.

Lemma find_child_first_at children : forall k i compare,
  first_at children compare i ->
  find_child k children compare = Some (k + i).
Proof.
  induction children as [|c children IH]; intros k i compare [Hi Hfirst].
  - destruct i; discriminate.
  - simpl. destruct (Nat.eqb_spec c compare) as [->|Hne].
    + destruct i as [|i]; [f_equal; lia|].
      exfalso. apply (Hfirst 0); [lia|reflexivity].
    + destruct i as [|i]; [simpl in Hi; congruence|].
      rewrite (IH (S k) i compare); [f_equal; lia|].
      split; [exact Hi|].
      intros j Hj. apply (Hfirst (S j)). lia.
Qed.

(** Along a way up the loop finds each object where the tuple or list
    above lists it, and returns when the [parent] fields end. *)
Lemma climb_way_up h compare node n levels :
  way_up h compare node n levels ->
  forall fuel indexes,
  n <= fuel ->
  climb fuel h indexes node compare
  = Some (Ok (rev (map Nat.div2 levels) ++ indexes)).
Proof.
  induction 1 as [compare
                 |compare node children i n levels Hc Hi _ IH
                 |compare node n levels Hc _ IH];
    intros fuel indexes Hfuel.
  - apply climb_top.
  - destruct fuel as [|fuel]; [lia|].
    simpl climb. rewrite Hc, (find_child_first_at 0 Hi).
    rewrite IH by lia. simpl. rewrite <- app_assoc. reflexivity.
  - destruct fuel as [|fuel]; [lia|].
    simpl climb. rewrite Hc. apply IH. lia.
Qed.

Lemma parent_of_represents h t r parent :
  represents h t r parent -> parent_of (h r) = parent.
Proof.
  intros Hrep.
  inversion Hrep as [? ? ? ? ? ? Hr|? ? ? ? ? Hr _ _]; subst;
    rewrite Hr; reflexivity.
Qed.

Lemma Forall2_nth_error {A B : Type} (R : A -> B -> Prop) l1 l2 :
  Forall2 R l1 l2 ->
  forall k b, nth_error l2 k = Some b ->
  exists a, nth_error l1 k = Some a /\ R a b.
Proof.
  induction 1 as [|a0 b0 l1 l2 Hab _ IH]; intros k b Hk.
  - destruct k; discriminate.
  - destruct k as [|k]; simpl in *.
    + injection Hk as <-. exists a0. split; [reflexivity|exact Hab].
    + apply IH. exact Hk.
Qed.

(** The way up from the end of a linked path: it passes the objects of
    the path and goes on as the way up from its beginning does, and the
    positions it finds at the tuples and lists of the path are those of
    [tuple_indexes]. *)
Lemma way_up_linked h : forall path t r parent self n above,
  holds h t r ->
  linked h r parent path self ->
  way_up h r parent n above ->
  exists levels,
    way_up h self (parent_of (h self)) (length path + n) (levels ++ above)
    /\ rev (map Nat.div2 levels) = tuple_indexes t path.
Proof.
  induction path as [|k path IH];
    intros t r parent self n above Hholds [Hpar Hpath] Hway; subst parent.
  - subst self. exists []. split; [exact Hway|reflexivity].
  - destruct Hpath as [c [[Hk Hfirst] Hrest]].
    inversion Hholds as [? ? ? ? ? ? Hr|cls cs refs ? ? Hr Hall]; subst;
      rewrite Hr in Hk, Hfirst; simpl in Hk, Hfirst;
      [destruct k; discriminate|].
    destruct (Forall2_nth_error Hall k Hk) as [tc [Htc Hc]].
    assert (Hwayc : way_up h c (Some r) (S n)
                      ((if is_tuple_class cls then [k] else []) ++ above)).
    { destruct (is_tuple_class cls) eqn:Hcls.
      - apply way_up_tuple with (children := refs).
        + rewrite Hr, tuple_children_class, Hcls. reflexivity.
        + split; [exact Hk|exact Hfirst].
        + exact Hway.
      - apply way_up_other.
        + rewrite Hr, tuple_children_class, Hcls. reflexivity.
        + exact Hway. }
    destruct (IH tc c (Some r) self (S n) _ Hc Hrest Hwayc)
      as [levels [Hlevels Hindexes]].
    exists (levels ++ (if is_tuple_class cls then [k] else [])). split.
    + rewrite <- app_assoc.
      replace (length (k :: path) + n) with (length path + S n)
        by (simpl; lia).
      exact Hlevels.
    + rewrite map_app, rev_app_distr. simpl tuple_indexes.
      rewrite Htc, Hindexes. destruct (is_tuple_class cls); reflexivity.
Qed.

Lemma NoDup_first_at children k compare :
  NoDup children ->
  nth_error children k = Some compare ->
  first_at children compare k.
Proof.
  intros Hnd Hk. split; [exact Hk|].
  intros j Hj Hjc.
  assert (Hlen : j < length children)
    by (apply nth_error_Some; rewrite Hjc; discriminate).
  rewrite NoDup_nth_error in Hnd.
  specialize (Hnd j k Hlen). rewrite Hk, Hjc in Hnd.
  specialize (Hnd eq_refl). lia.
Qed.

(** In a store in which every child points back to the node that lists
    it, every path is linked. *)
Lemma represents_linked h : forall path t r parent self,
  represents h t r parent ->
  ref_at h r path = Some self ->
  linked h r parent path self.
Proof.
  induction path as [|k path IH]; intros t r parent self Hrep Hat.
  - simpl in Hat. injection Hat as <-.
    split; [exact (parent_of_represents Hrep)|reflexivity].
  - split; [exact (parent_of_represents Hrep)|].
    simpl in Hat.
    inversion Hrep as [? ? ? ? ? ? Hr|cls cs refs ? ? Hr Hnd Hall]; subst;
      rewrite Hr in Hat; [discriminate|].
    destruct (nth_error refs k) as [c|] eqn:Hk; [|discriminate].
    destruct (Forall2_nth_error Hall k Hk) as [tc [_ Hc]].
    exists c. rewrite Hr. simpl. split.
    + apply NoDup_first_at; assumption.
    + exact (IH tc c (Some r) self Hc Hat).
Qed.

(** *** The stores the constructors build *)

Lemma build_simple cls cs s :
  build (Simple cls cs) s
  = let '(refs, s1) := build_all cs s in new_simple cls refs s1.
Proof. reflexivity. Qed.

Lemma consecutive_le (P : nat -> tree -> ref -> Prop) lo cs refs hi :
  consecutive P lo cs refs hi ->
  (forall lo' c r, In c cs -> P lo' c r -> lo' <= r) ->
  lo <= hi.
Proof.
  induction 1 as [lo|lo c r cs refs hi Hc _ IH]; intros Hle; [lia|].
  specialize (Hle lo c r (or_introl eq_refl) Hc) as Hlo.
  assert (S r <= hi); [|lia].
  apply IH. intros lo' c' r' Hin. apply Hle. right. exact Hin.
Qed.

Lemma consecutive_impl (P Q : nat -> tree -> ref -> Prop) lo0 :
  forall lo cs refs hi,
  consecutive P lo cs refs hi ->
  (forall lo' c r, In c cs -> P lo' c r -> lo' <= r) ->
  lo0 <= lo ->
  (forall lo' c r, In c cs -> lo0 <= lo' -> r < hi -> P lo' c r -> Q lo' c r) ->
  consecutive Q lo cs refs hi.
Proof.
  induction 1 as [lo|lo c r cs refs hi Hc Hrest IH]; intros Hle Hlo HPQ.
  - constructor.
  - assert (Hr : lo <= r) by (apply (Hle lo c r); [left; reflexivity|exact Hc]).
    assert (Hhi : S r <= hi).
    { apply (consecutive_le Hrest).
      intros lo' c' r' Hin. apply Hle. right. exact Hin. }
    constructor.
    + apply HPQ; [left; reflexivity|lia|lia|exact Hc].
    + apply IH.
      * intros lo' c' r' Hin. apply Hle. right. exact Hin.
      * lia.
      * intros lo' c' r' Hin. apply HPQ. right. exact Hin.
Qed.

Lemma consecutive_refs (P : nat -> tree -> ref -> Prop) lo cs refs hi :
  consecutive P lo cs refs hi ->
  (forall lo' c r, In c cs -> P lo' c r -> lo' <= r) ->
  forall x, In x refs -> lo <= x < hi.
Proof.
  induction 1 as [lo|lo c r cs refs hi Hc Hrest IH]; intros Hle x Hx.
  - destruct Hx.
  - assert (Hr : lo <= r) by (apply (Hle lo c r); [left; reflexivity|exact Hc]).
    assert (Hle' : forall lo' c' r', In c' cs -> P lo' c' r' -> lo' <= r').
    { intros lo' c' r' Hin. apply Hle. right. exact Hin. }
    assert (Hhi : S r <= hi) by (apply (consecutive_le Hrest Hle')).
    destruct Hx as [<-|Hx]; [lia|].
    specialize (IH Hle' x Hx). lia.
Qed.

Lemma laid_out_le h t : forall lo r parent,
  laid_out h lo t r parent -> lo <= r.
Proof.
  induction t as [cls v sp p|cls cs IH] using tree_ind';
    intros lo r parent Hlaid.
  - inversion Hlaid; subst. lia.
  - inversion Hlaid as [|? ? ? refs ? ? _ Hcs]; subst.
    apply (consecutive_le Hcs).
    intros lo' c r' Hin Hc.
    rewrite Forall_forall in IH. exact (IH c Hin _ _ _ Hc).
Qed.

Lemma laid_out_frame h h' t : forall lo r parent,
  laid_out h lo t r parent ->
  (forall x, lo <= x <= r -> h' x = h x) ->
  laid_out h' lo t r parent.
Proof.
  induction t as [cls v sp p|cls cs IH] using tree_ind';
    intros lo r parent Hlaid Hsame.
  - inversion Hlaid as [? ? ? ? ? ? Hr|]; subst.
    constructor. rewrite Hsame by lia. exact Hr.
  - inversion Hlaid as [|? ? ? refs ? ? Hr Hcs]; subst.
    assert (Hlo : lo <= r) by (apply (laid_out_le Hlaid)).
    apply laid_simple with (refs := refs).
    + rewrite Hsame by lia. exact Hr.
    + eapply consecutive_impl with (lo0 := lo); [exact Hcs| | |].
      * intros lo' c r' _ Hc. apply (laid_out_le Hc).
      * lia.
      * intros lo' c r' Hin Hlo' Hr' Hc.
        rewrite Forall_forall in IH.
        apply (IH c Hin _ _ _ Hc).
        intros x Hx. apply Hsame. lia.
Qed.

Lemma update_same h r o : update h r o r = o.
Proof. unfold update. rewrite Nat.eqb_refl. reflexivity. Qed.

Lemma update_other h r o x : x <> r -> update h r o x = h x.
Proof.
  intros Hx. unfold update.
  destruct (Nat.eqb_spec x r); [contradiction|reflexivity].
Qed.

Lemma laid_out_reparent h t lo r parent p :
  laid_out h lo t r parent ->
  laid_out (update h r (with_parent (h r) p)) lo t r p.
Proof.
  intros Hlaid.
  inversion Hlaid as [? ? ? ? ? ? Hr|? cls cs refs ? ? Hr Hcs]; subst.
  - constructor. rewrite update_same, Hr. reflexivity.
  - apply laid_simple with (refs := refs).
    + rewrite update_same, Hr. reflexivity.
    + eapply consecutive_impl with (lo0 := lo); [exact Hcs| | |].
      * intros lo' c r' _ Hc. apply (laid_out_le Hc).
      * lia.
      * intros lo' c r' _ Hlo' Hr' Hc.
        eapply laid_out_frame; [exact Hc|].
        intros x Hx. apply update_other. lia.
Qed.

Lemma reparent_all_other p refs : forall h x,
  ~ In x refs -> reparent_all p refs h x = h x.
Proof.
  induction refs as [|r refs IH]; intros h x Hx; [reflexivity|].
  unfold reparent_all in *. simpl. rewrite IH.
  - apply update_other. intros ->. apply Hx. left. reflexivity.
  - intros Hin. apply Hx. right. exact Hin.
Qed.

Lemma consecutive_reparent parent p : forall cs refs lo hi h,
  consecutive (fun lo' c r => laid_out h lo' c r parent) lo cs refs hi ->
  consecutive (fun lo' c r => laid_out (reparent_all p refs h) lo' c r p)
    lo cs refs hi.
Proof.
  induction cs as [|c cs IH]; intros refs lo hi h Hcs;
    inversion Hcs as [|? ? r ? refs' ? Hc Hrest]; subst.
  - constructor.
  - assert (Hle : forall lo' c' r',
               In c' cs -> laid_out h lo' c' r' parent -> lo' <= r').
    { intros lo' c' r' _ Hc'. apply (laid_out_le Hc'). }
    pose proof (consecutive_refs Hrest Hle) as Hrefs.
    set (h1 := update h r (with_parent (h r) p)).
    change (reparent_all p (r :: refs') h) with (reparent_all p refs' h1).
    constructor.
    + eapply laid_out_frame; [eapply laid_out_reparent; exact Hc|].
      intros x Hx. apply reparent_all_other.
      intros Hin. apply Hrefs in Hin. lia.
    + apply IH.
      eapply consecutive_impl with (lo0 := S r);
        [exact Hrest|exact Hle|lia|].
      intros lo' c' r' _ Hlo' _ Hc'.
      eapply laid_out_frame; [exact Hc'|].
      intros x Hx. apply update_other. lia.
Qed.

Lemma build_all_spec cs :
  Forall build_spec cs ->
  forall h n,
  exists refs h' n',
    build_all cs (h, n) = (refs, (h', n'))
    /\ consecutive (fun lo c r => laid_out h' lo c r None) n cs refs n'
    /\ forall x, x < n -> h' x = h x.
Proof.
  induction 1 as [|c cs Hc _ IH]; intros h n.
  - exists [], h, n. repeat split. constructor.
  - destruct (Hc h n) as [r [h1 [Hb [Hlaid Hframe1]]]].
    destruct (IH h1 (S r)) as [refs [h2 [n' [Hbs [Hcons Hframe2]]]]].
    exists (r :: refs), h2, n'.
    pose proof (laid_out_le Hlaid) as Hle.
    simpl. rewrite Hb. simpl. unfold ref in *. rewrite Hbs. repeat split.
    + constructor; [|exact Hcons].
      eapply laid_out_frame; [exact Hlaid|].
      intros x Hx. apply Hframe2. lia.
    + intros x Hx. rewrite Hframe2 by lia. apply Hframe1. exact Hx.
Qed.

Lemma build_laid_out t : build_spec t.
Proof.
  induction t as [cls v sp p|cls cs IH] using tree_ind'; intros h n.
  - exists n, (update h n (OLeaf cls v sp p None)). simpl. repeat split.
    + constructor. apply update_same.
    + intros x Hx. apply update_other. lia.
  - destruct (build_all_spec IH h n) as [refs [h1 [n1 [Hbs [Hcons Hframe]]]]].
    assert (Hle : forall lo' c' r',
               In c' cs -> laid_out h1 lo' c' r' None -> lo' <= r').
    { intros lo' c' r' _ Hc'. apply (laid_out_le Hc'). }
    pose proof (consecutive_le Hcons Hle) as Hn1.
    pose proof (consecutive_refs Hcons Hle) as Hrefs.
    exists n1, (update (reparent_all (Some n1) refs h1) n1
                  (OSimple cls refs None)).
    rewrite build_simple. unfold ref in *. rewrite Hbs. simpl. repeat split.
    + apply laid_simple with (refs := refs); [apply update_same|].
      pose proof (consecutive_reparent (Some n1) Hcons) as Hre.
      eapply consecutive_impl with (lo0 := n); [exact Hre| | |].
      * intros lo' c' r' _ Hc'. apply (laid_out_le Hc').
      * lia.
      * intros lo' c' r' _ Hlo' Hr' Hc'.
        eapply laid_out_frame; [exact Hc'|].
        intros x Hx. apply update_other. lia.
    + intros x Hx. rewrite update_other by lia.
      rewrite reparent_all_other; [apply Hframe; exact Hx|].
      intros Hin. apply Hrefs in Hin. lia.
Qed.

Lemma consecutive_NoDup (P : nat -> tree -> ref -> Prop) lo cs refs hi :
  consecutive P lo cs refs hi ->
  (forall lo' c r, In c cs -> P lo' c r -> lo' <= r) ->
  NoDup refs.
Proof.
  induction 1 as [lo|lo c r cs refs hi Hc Hrest IH]; intros Hle.
  - constructor.
  - assert (Hle' : forall lo' c' r', In c' cs -> P lo' c' r' -> lo' <= r').
    { intros lo' c' r' Hin. apply Hle. right. exact Hin. }
    constructor; [|apply IH; exact Hle'].
    intros Hin. apply (consecutive_refs Hrest Hle') in Hin. lia.
Qed.

Lemma consecutive_Forall2 (P : nat -> tree -> ref -> Prop)
  (R : tree -> ref -> Prop) lo cs refs hi :
  consecutive P lo cs refs hi ->
  (forall lo' c r, In c cs -> P lo' c r -> R c r) ->
  Forall2 R cs refs.
Proof.
  induction 1 as [lo|lo c r cs refs hi Hc _ IH]; intros HPR.
  - constructor.
  - constructor.
    + apply (HPR lo). left; reflexivity. exact Hc.
    + apply IH. intros lo' c' r' Hin. apply HPR. right. exact Hin.
Qed.

Lemma laid_out_represents h t : forall lo r parent,
  laid_out h lo t r parent -> represents h t r parent.
Proof.
  induction t as [cls v sp p|cls cs IH] using tree_ind';
    intros lo r parent Hlaid.
  - inversion Hlaid as [? ? ? ? ? ? Hr|]; subst. constructor. exact Hr.
  - inversion Hlaid as [|? ? ? refs ? ? Hr Hcs]; subst.
    apply represents_simple with (refs := refs); [exact Hr| |].
    + apply (consecutive_NoDup Hcs).
      intros lo' c r' _ Hc. apply (laid_out_le Hc).
    + eapply consecutive_Forall2; [exact Hcs|].
      intros lo' c cr Hin Hc. rewrite Forall_forall in IH.
      exact (IH c Hin _ _ _ Hc).
Qed.

Lemma build_represents t :
  represents (store_of t) t (root_of t) None.
Proof.
  unfold store_of, root_of.
  destruct (build_laid_out t (fst empty) (snd empty))
    as [r [h' [Hb [Hlaid _]]]].
  change (build t empty = (r, (h', S r))) in Hb.
  rewrite Hb. simpl. exact (laid_out_represents Hlaid).
Qed.

Lemma ref_at_subtree h : forall path t r parent c,
  represents h t r parent ->
  subtree t path = Some c ->
  exists self, ref_at h r path = Some self.
Proof.
  induction path as [|k path IH]; intros t r parent c Hrep Hsub.
  - exists r. reflexivity.
  - simpl in Hsub. destruct t as [|cls cs]; [discriminate|].
    destruct (nth_error cs k) as [tc|] eqn:Hk; [|discriminate].
    inversion Hrep as [|? ? refs ? ? Hr _ Hall]; subst.
    simpl. rewrite Hr.
    assert (Hc : exists cr, nth_error refs k = Some cr
                            /\ represents h tc cr (Some r)).
    { clear Hr Hrep. revert k Hk.
      induction Hall as [|a b l1 l2 Hab _ IHall]; intros k Hk.
      - destruct k; discriminate.
      - destruct k as [|k]; simpl in *.
        + injection Hk as ->. exists b. split; [reflexivity|exact Hab].
        + apply IHall. exact Hk. }
    destruct Hc as [cr [Hcr Hrepc]]. rewrite Hcr.
    exact (IH tc cr (Some r) c Hrepc Hsub).
Qed.

Lemma covers_own_code ls :
  Forall (fun l => exists cls v sp p, l = Leaf cls v sp p) ls ->
  covers (String.concat "" (map tree_code ls)) ls.
Proof.
  induction 1 as [|l ls [cls [v [sp [p ->]]]] _ IH].
  - constructor.
  - simpl map. rewrite concat_cons. simpl tree_code. rewrite append_assoc.
    constructor. exact IH.
Qed.

Lemma leaves_are_leaves t :
  Forall (fun l => exists cls v sp p, l = Leaf cls v sp p) (leaves t).
Proof.
  induction t as [cls v sp p|cls cs IH] using tree_ind'.
  - constructor; [|constructor]. exists cls, v, sp, p. reflexivity.
  - simpl. induction IH as [|c cs Hc _ IHcs]; [constructor|].
    simpl. apply Forall_app. split; assumption.
Qed.

(** Every tree is a parse of the text it stands for. *)
Lemma parse_of_own_code t : parse_of (tree_code t) t.
Proof.
  unfold parse_of. rewrite tree_code_leaves.
  apply covers_own_code, leaves_are_leaves.
Qed.

(** C2: a leaf's code is its prefix followed by its value; a node's code
    is the codes of its children joined in child order; so on a store that
    holds a parse of [text], whatever its [parent] fields are, the root
    gives back [text].  The store the constructors make for a tree without
    a [Function] is such a store. *)
Theorem get_code_reproduces_source :
  (forall fuel h self cls value sp prefix parent,
      h self = OLeaf cls value sp prefix parent ->
      get_code (S fuel) h self = Ok (prefix ++ value)%string)
  /\
  (forall fuel h self cls children parent,
      h self = OSimple cls children parent ->
      get_code (S fuel) h self
      = fmap (String.concat "") (mapM (get_code fuel h) children))
  /\
  (forall h root t text fuel,
      holds h t root ->
      parse_of text t ->
      height t < fuel ->
      get_code fuel h root = Ok text)
  /\
  (forall t text fuel,
      no_function t = true ->
      parse_of text t ->
      height t < fuel ->
      get_code fuel (store_of t) (root_of t) = Ok text).
Proof.
  assert (Hround : forall h root t text fuel,
             holds h t root ->
             parse_of text t ->
             height t < fuel ->
             get_code fuel h root = Ok text).
  { intros h root t text fuel Hrep Hparse Hfuel.
    rewrite (get_code_holds Hrep Hfuel), tree_code_leaves.
    f_equal. apply covers_concat. exact Hparse. }
  split; [|split; [|split; [exact Hround|]]].
  - intros fuel h self cls value sp prefix parent Hself.
    simpl. rewrite Hself. reflexivity.
  - intros fuel h self cls children parent Hself.
    simpl. rewrite Hself. reflexivity.
  - intros t text fuel _ Hparse Hfuel.
    exact (Hround _ _ _ _ _ (represents_holds (build_represents t))
             Hparse Hfuel).
Qed.

Lemma get_code_reproduces_source_witness :
  get_code 4
    (store_of (Simple ExprStmt Examples.attribute_assignment))
    (root_of (Simple ExprStmt Examples.attribute_assignment))
  = Ok "a.b = 1".
Proof.
  apply (proj1 (proj2 (proj2 get_code_reproduces_source)))
    with (t := Simple ExprStmt Examples.attribute_assignment).
  - apply represents_holds with (parent := None). apply build_represents.
  - exact (parse_of_own_code (Simple ExprStmt Examples.attribute_assignment)).
  - simpl. lia.
Defined.

(** C7: a tuple or list ancestor whose children do not hold the branch the
    walk came from makes [assignment_indexes] raise [LookupError].  When
    every tuple or list on the way up from the name lists the object the
    way came from, whatever the rest of the store is, it returns half the
    position of that object at each of them, outermost level first.  So in
    a store that holds a tree, for a name at the end of a linked path from
    the root, these are the halved indexes the path takes at the tuples
    and lists; for [y] in [x, (y, z) = 2, ('', '')] that is [[1; 0]]. *)
Theorem assignment_indexes_raises_or_returns_indexes :
  (forall h self k compare node fuel,
      nth_parent h k self = Some compare ->
      parent_of (h compare) = Some node ->
      tuple_children (h node) <> None ->
      ~ In compare (children_of_obj (h node)) ->
      k < fuel ->
      assignment_indexes fuel h self = Some (Raise LookupError))
  /\
  (forall h self n levels fuel,
      way_up h self (parent_of (h self)) n levels ->
      n <= fuel ->
      assignment_indexes fuel h self
      = Some (Ok (rev (map Nat.div2 levels))))
  /\
  (forall h t root path self fuel,
      holds h t root ->
      linked h root None path self ->
      length path <= fuel ->
      assignment_indexes fuel h self = Some (Ok (tuple_indexes t path)))
  /\
  (forall t path c,
      no_function t = true ->
      subtree t path = Some c ->
      exists self,
        ref_at (store_of t) (root_of t) path = Some self
        /\ assignment_indexes (length path) (store_of t) self
           = Some (Ok (tuple_indexes t path)))
  /\
  (let t := Simple ExprStmt Examples.tuple_assignment in
   ref_at (store_of t) (root_of t) [0; 2; 1; 0] = Some 3
   /\ store_of t 3 = OLeaf Name "y" (1, 4)%Z "" (Some 6)
   /\ assignment_indexes 4 (store_of t) 3 = Some (Ok [1; 0])).
Proof.
  assert (Hway :
            forall h self n levels fuel,
              way_up h self (parent_of (h self)) n levels ->
              n <= fuel ->
              assignment_indexes fuel h self
              = Some (Ok (rev (map Nat.div2 levels)))).
  { intros h self n levels fuel Hway Hfuel.
    unfold assignment_indexes.
    rewrite (climb_way_up Hway [] Hfuel), app_nil_r. reflexivity. }
  assert (Hreturns :
            forall h t root path self fuel,
              holds h t root ->
              linked h root None path self ->
              length path <= fuel ->
              assignment_indexes fuel h self
              = Some (Ok (tuple_indexes t path))).
  { intros h t root path self fuel Hholds Hlinked Hfuel.
    destruct (@way_up_linked h path t root None self 0 []
                Hholds Hlinked (way_up_top h root))
      as [levels [Hlevels Hindexes]].
    rewrite app_nil_r in Hlevels. rewrite <- Hindexes.
    apply (Hway h self (length path + 0) levels fuel Hlevels). lia. }
  split; [|split; [exact Hway|split; [exact Hreturns|split]]].
  - intros h self k compare node fuel Hk Hpar Htuple Hnotin Hfuel.
    unfold assignment_indexes. eapply climb_raises; eauto.
  - intros t path c _ Hsub.
    destruct (ref_at_subtree path (build_represents t) Hsub) as [self Hself].
    exists self. split; [exact Hself|].
    apply (Hreturns _ t (root_of t) path).
    + exact (represents_holds (build_represents t)).
    + exact (represents_linked path (build_represents t) Hself).
    + lia.
  - repeat split.
Qed.

Lemma assignment_indexes_raises_or_returns_indexes_witness :
  assignment_indexes 1 misparented_store 3 = Some (Raise LookupError)
  /\ assignment_indexes 4
       (store_of (Simple ExprStmt Examples.tuple_assignment)) 3
     = Some (Ok [1; 0])
  /\ assignment_indexes 4 misparented_store 5
     = Some (Ok (rev (map Nat.div2 [2; 2]))).
Proof.
  split; [|split].
  - apply (proj1 assignment_indexes_raises_or_returns_indexes)
      with (k := 0) (compare := 3) (node := 17).
    + reflexivity.
    + reflexivity.
    + discriminate.
    + simpl. intros [H|[H|[H|H]]]; try discriminate H. exact H.
    + lia.
  - apply (proj1 (proj2 (proj2 assignment_indexes_raises_or_returns_indexes)))
      with (t := Simple ExprStmt Examples.tuple_assignment)
           (root := root_of (Simple ExprStmt Examples.tuple_assignment))
           (path := [0; 2; 1; 0]).
    + apply represents_holds with (parent := None). apply build_represents.
    + apply represents_linked
        with (t := Simple ExprStmt Examples.tuple_assignment);
        [apply build_represents|reflexivity].
    + simpl. lia.
  - apply (proj1 (proj2 assignment_indexes_raises_or_returns_indexes))
      with (n := 4).
    + apply way_up_tuple with (children := [3; 4; 5]);
        [reflexivity|split; [reflexivity|]|].
      { intros [|[|j]] Hj; [discriminate|discriminate|lia]. }
      apply way_up_other; [reflexivity|].
      apply way_up_tuple with (children := [0; 1; 8]);
        [reflexivity|split; [reflexivity|]|].
      { intros [|[|j]] Hj; [discriminate|discriminate|lia]. }
      apply way_up_other; [reflexivity|].
      apply way_up_top.
    + lia.
Defined.

(** *** move *)

Lemma move_unfold fuel line_offset column_offset h self :
  move (S fuel) line_offset column_offset h self
  = match h self with
    | OLeaf _ _ _ _ _ => (h, Raise AttributeError)
    | OSimple _ children _ =>
        move_children fuel line_offset column_offset children h
    end.
Proof.
  simpl. destruct (h self) as [|cls children parent]; [reflexivity|].
  generalize h. induction children as [|c rest IH]; intros h0.
  - reflexivity.
  - simpl. destruct (h0 c); [apply IH|].
    destruct (move fuel line_offset column_offset h0 c) as [h' [[]|e]];
      [apply IH|reflexivity].
Qed.

Lemma same_but_pos_refl h : same_but_pos h h.
Proof. intros x. reflexivity. Qed.

Lemma same_but_pos_trans h1 h2 h3 :
  same_but_pos h1 h2 -> same_but_pos h2 h3 -> same_but_pos h1 h3.
Proof.
  intros H12 H23 x. rewrite H23. apply H12.
Qed.

Lemma same_but_pos_shift h c cls value sp sp' prefix parent :
  h c = OLeaf cls value sp prefix parent ->
  same_but_pos h (update h c (OLeaf cls value sp' prefix parent)).
Proof.
  intros Hc x. unfold update.
  destruct (Nat.eqb_spec x c) as [->|_]; [|reflexivity].
  rewrite Hc. reflexivity.
Qed.

Lemma move_same_but_pos fuel line_offset column_offset :
  forall h self,
  same_but_pos h (fst (move fuel line_offset column_offset h self)).
Proof.
  induction fuel as [|fuel IH]; intros h self.
  - apply same_but_pos_refl.
  - rewrite move_unfold.
    destruct (h self) as [|cls children parent]; [apply same_but_pos_refl|].
    assert (Hloop : forall cs h0,
               same_but_pos h0
                 (fst (move_children fuel line_offset column_offset cs h0))).
    { induction cs as [|c rest IHcs]; intros h0.
      - apply same_but_pos_refl.
      - simpl. destruct (h0 c) as [lc v sp p par|] eqn:Hc.
        + eapply same_but_pos_trans;
            [eapply same_but_pos_shift; exact Hc|apply IHcs].
        + pose proof (IH h0 c) as Hmove.
          destruct (move fuel line_offset column_offset h0 c)
            as [h' [[]|e]]; simpl in Hmove.
          * eapply same_but_pos_trans; [exact Hmove|apply IHcs].
          * exact Hmove. }
    apply Hloop.
Qed.

Lemma get_code_same_but_pos h h' :
  same_but_pos h h' ->
  forall fuel x, get_code fuel h' x = get_code fuel h x.
Proof.
  intros Hsame. induction fuel as [|fuel IH]; intros x; [reflexivity|].
  simpl. specialize (Hsame x).
  destruct (h x) as [lc v sp p par|cls cs par],
           (h' x) as [lc' v' sp' p' par'|cls' cs' par'];
    simpl in Hsame; try discriminate.
  - injection Hsame as _ -> -> _. reflexivity.
  - injection Hsame as _ -> _. f_equal.
    apply mapM_ext_in. intros c _. apply IH.
Qed.

Lemma children_same_but_pos h h' r :
  same_but_pos h h' ->
  children_of_obj (h' r) = children_of_obj (h r).
Proof.
  intros Hsame. specialize (Hsame r).
  destruct (h r), (h' r); simpl in *; try discriminate; [reflexivity|].
  injection Hsame as _ -> _. reflexivity.
Qed.

Lemma beneath_same_but_pos h h' r x :
  same_but_pos h h' -> beneath h' r x -> beneath h r x.
Proof.
  intros Hsame. induction 1 as [r c Hc|r c x Hc _ IH].
  - apply beneath_child. rewrite <- (children_same_but_pos r Hsame).
    exact Hc.
  - apply beneath_deeper with (c := c); [|exact IH].
    rewrite <- (children_same_but_pos r Hsame). exact Hc.
Qed.

Lemma move_touches_beneath fuel line_offset column_offset :
  forall h self x,
  fst (move fuel line_offset column_offset h self) x = h x
  \/ beneath h self x.
Proof.
  induction fuel as [|fuel IH]; intros h self x; [left; reflexivity|].
  rewrite move_unfold.
  destruct (h self) as [|cls children parent] eqn:Hself;
    [left; reflexivity|].
  assert (Hloop : forall cs h0,
             fst (move_children fuel line_offset column_offset cs h0) x
             = h0 x
             \/ exists c, In c cs /\ (x = c \/ beneath h0 c x)).
  { induction cs as [|c rest IHcs]; intros h0; [left; reflexivity|].
    simpl. destruct (h0 c) as [lc v sp p par|] eqn:Hc.
    - destruct (IHcs (update h0 c
                        (OLeaf lc v
                           (fst sp + line_offset, snd sp + column_offset)%Z
                           p par)))
        as [Heq|[c' [Hin [->|Hb]]]].
      + destruct (Nat.eq_dec x c) as [->|Hne].
        * right. exists c. split; [left; reflexivity|left; reflexivity].
        * left. rewrite Heq. apply update_other. exact Hne.
      + right. exists c'. split; [right; exact Hin|left; reflexivity].
      + right. exists c'. split; [right; exact Hin|right].
        eapply beneath_same_but_pos;
          [eapply same_but_pos_shift; exact Hc|exact Hb].
    - pose proof (IH h0 c x) as Hmove.
      pose proof (move_same_but_pos fuel line_offset column_offset h0 c)
        as Hsame.
      destruct (move fuel line_offset column_offset h0 c) as [h' [[]|e]];
        simpl in Hmove, Hsame.
      + destruct (IHcs h') as [Heq|[c' [Hin [->|Hb]]]].
        * destruct Hmove as [Heq'|Hb].
          -- left. rewrite Heq. exact Heq'.
          -- right. exists c. split; [left; reflexivity|right; exact Hb].
        * right. exists c'. split; [right; exact Hin|left; reflexivity].
        * right. exists c'. split; [right; exact Hin|right].
          eapply beneath_same_but_pos; [exact Hsame|exact Hb].
      + simpl. destruct Hmove as [Heq'|Hb].
        * left. exact Heq'.
        * right. exists c. split; [left; reflexivity|right; exact Hb]. }
  destruct (Hloop children h) as [Heq|[c [Hin [->|Hb]]]].
  - left. exact Heq.
  - right. apply beneath_child. rewrite Hself. exact Hin.
  - right. apply beneath_deeper with (c := c); [|exact Hb].
    rewrite Hself. exact Hin.
Qed.

Lemma depth_within_same_but_pos h h' :
  same_but_pos h h' ->
  forall d r, depth_within h d r -> depth_within h' d r.
Proof.
  intros Hsame. induction d as [|d IH]; intros r Hd.
  - inversion Hd as [? ? cls v sp p par Hr|]; subst.
    specialize (Hsame r). rewrite Hr in Hsame.
    destruct (h' r) as [cls' v' sp' p' par'|] eqn:Hr'; [|discriminate].
    eapply depth_leaf. exact Hr'.
  - inversion Hd as [? ? cls v sp p par Hr|? ? cls cs par Hr Hcs]; subst.
    + specialize (Hsame r). rewrite Hr in Hsame.
      destruct (h' r) as [cls' v' sp' p' par'|] eqn:Hr'; [|discriminate].
      eapply depth_leaf. exact Hr'.
    + specialize (Hsame r). rewrite Hr in Hsame.
      destruct (h' r) as [|cls' cs' par'] eqn:Hr'; [discriminate|].
      simpl in Hsame. injection Hsame as -> -> ->.
      eapply depth_simple; [exact Hr'|].
      eapply Forall_impl; [|exact Hcs]. exact (IH).
Qed.

Lemma move_children_returns line_offset column_offset d fuel :
  (forall h c cls cs parent,
      h c = OSimple cls cs parent ->
      depth_within h d c ->
      snd (move fuel line_offset column_offset h c) = Ok tt) ->
  forall cs h,
  Forall (depth_within h d) cs ->
  snd (move_children fuel line_offset column_offset cs h) = Ok tt.
Proof.
  intros Hmove. induction cs as [|c rest IH]; intros h Hcs; [reflexivity|].
  inversion Hcs as [|? ? Hc Hrest]; subst.
  simpl. destruct (h c) as [lc v sp p par|cls cs par] eqn:Hhc.
  - apply IH.
    eapply Forall_impl; [|exact Hrest].
    intros r. apply depth_within_same_but_pos.
    eapply same_but_pos_shift; exact Hhc.
  - pose proof (Hmove h c cls cs par Hhc Hc) as Hok.
    pose proof (move_same_but_pos fuel line_offset column_offset h c)
      as Hsame.
    destruct (move fuel line_offset column_offset h c) as [h' res].
    simpl in Hok, Hsame. subst res.
    apply IH.
    eapply Forall_impl; [|exact Hrest].
    intros r. apply depth_within_same_but_pos. exact Hsame.
Qed.

Lemma move_returns line_offset column_offset :
  forall d fuel h self cls children parent,
  h self = OSimple cls children parent ->
  depth_within h d self ->
  d <= fuel ->
  snd (move fuel line_offset column_offset h self) = Ok tt.
Proof.
  induction d as [|d IH]; intros fuel h self cls children parent Hself Hd Hfuel.
  - inversion Hd as [? ? ? ? ? ? ? Hr|]; subst. congruence.
  - destruct fuel as [|fuel]; [lia|].
    rewrite move_unfold, Hself.
    inversion Hd as [? ? ? ? ? ? ? Hr|? ? cls' cs' par' Hr Hcs]; subst;
      [congruence|].
    rewrite Hself in Hr. injection Hr as <- <- <-.
    eapply move_children_returns with (d := d); [|exact Hcs].
    intros h0 c cls0 cs0 par0 Hc Hdc.
    apply (IH fuel h0 c cls0 cs0 par0 Hc Hdc). lia.
Qed.

Lemma depth_within_le h : forall d d' r,
  depth_within h d r -> d <= d' -> depth_within h d' r.
Proof.
  induction d as [|d IH]; intros d' r Hd Hle.
  - inversion Hd; subst. eapply depth_leaf. eassumption.
  - inversion Hd as [|? ? cls cs par Hr Hcs]; subst.
    + eapply depth_leaf. eassumption.
    + destruct d' as [|d']; [lia|].
      eapply depth_simple; [exact Hr|].
      eapply Forall_impl; [|exact Hcs].
      intros c Hc. apply (IH d' c Hc). lia.
Qed.

Lemma holds_depth_within h t : forall r,
  holds h t r -> depth_within h (height t) r.
Proof.
  induction t as [cls v sp p|cls cs IH] using tree_ind'; intros r Hrep.
  - inversion Hrep; subst. eapply depth_leaf. eassumption.
  - inversion Hrep as [|? ? refs ? ? Hr Hall]; subst.
    simpl. eapply depth_simple; [exact Hr|].
    assert (Hh : forall c, In c cs -> height c <= list_max (map height cs))
      by (intros c; apply height_child).
    clear Hr Hrep. revert Hh. generalize (list_max (map height cs)) as m.
    induction Hall as [|c cr cs refs Hc _ IHall]; intros m Hh; constructor.
    + inversion IH as [|? ? IHc _]; subst.
      apply (depth_within_le (IHc _ Hc)). apply Hh. left. reflexivity.
    + inversion IH as [|? ? _ IHrest]; subst.
      apply IHall; [exact IHrest|].
      intros c' Hc'. apply Hh. right. exact Hc'.
Qed.

Lemma consecutive_frame h h' parent lo cs refs hi :
  consecutive (fun lo' c r => laid_out h lo' c r parent) lo cs refs hi ->
  (forall x, lo <= x < hi -> h' x = h x) ->
  consecutive (fun lo' c r => laid_out h' lo' c r parent) lo cs refs hi.
Proof.
  intros Hcs Hsame.
  eapply consecutive_impl with (lo0 := lo); [exact Hcs| |lia|].
  - intros lo' c r' _ Hc. apply (laid_out_le Hc).
  - intros lo' c r' _ Hlo' Hr' Hc.
    eapply laid_out_frame; [exact Hc|].
    intros x Hx. apply Hsame. lia.
Qed.

Lemma move_children_laid_out line_offset column_offset fuel parent :
  forall cs refs lo hi h,
  Forall (move_spec line_offset column_offset) cs ->
  (forall c, In c cs -> height c <= fuel) ->
  consecutive (fun lo' c r => laid_out h lo' c r parent) lo cs refs hi ->
  exists h',
    move_children fuel line_offset column_offset refs h = (h', Ok tt)
    /\ consecutive (fun lo' c r => laid_out h' lo' c r parent) lo
         (map (shift line_offset column_offset) cs) refs hi
    /\ forall x, x < lo \/ hi <= x -> h' x = h x.
Proof.
  induction cs as [|c cs IH]; intros refs lo hi h Hspec Hheight Hcs;
    inversion Hcs as [|? ? r1 ? refs' ? Hc Hrest]; subst.
  - exists h. split; [reflexivity|]. split; [constructor|reflexivity].
  - inversion Hspec as [|? ? Hspec_c Hspec_cs]; subst.
    pose proof (laid_out_le Hc) as Hle.
    assert (Hhi : S r1 <= hi).
    { apply (consecutive_le Hrest).
      intros lo' c' r' _ Hc'. apply (laid_out_le Hc'). }
    assert (Hstep : exists h1,
               (forall rest,
                   move_children fuel line_offset column_offset (r1 :: rest) h
                   = move_children fuel line_offset column_offset rest h1)
               /\ laid_out h1 lo (shift line_offset column_offset c) r1 parent
               /\ forall x, x < lo \/ r1 < x -> h1 x = h x).
    { inversion Hc as [? lc v sp p ? Hr|? cls ccs crefs ? ? Hr Hccs]; subst.
      - eexists. split; [|split].
        + intros rest. simpl. rewrite Hr. reflexivity.
        + simpl. constructor. apply update_same.
        + intros x Hx. apply update_other. lia.
      - destruct (Hspec_c h lo r1 parent cls ccs fuel eq_refl Hc)
          as [h1 [Hrun [Hlaid Hout]]].
        { apply Hheight. left. reflexivity. }
        exists h1. split; [|split; [exact Hlaid|exact Hout]].
        intros rest. simpl. rewrite Hr, Hrun. reflexivity. }
    destruct Hstep as [h1 [Hrun1 [Hlaid1 Hout1]]].
    destruct (IH refs' (S r1) hi h1 Hspec_cs) as [h' [Hrun [Hlaid Hout]]].
    { intros c' Hc'. apply Hheight. right. exact Hc'. }
    { eapply consecutive_frame; [exact Hrest|].
      intros x Hx. apply Hout1. lia. }
    exists h'. rewrite Hrun1, Hrun. split; [reflexivity|]. split.
    + simpl map. constructor; [|exact Hlaid].
      eapply laid_out_frame; [exact Hlaid1|].
      intros x Hx. apply Hout. lia.
    + intros x Hx. rewrite Hout by lia. apply Hout1. lia.
Qed.

Lemma move_laid_out line_offset column_offset t :
  move_spec line_offset column_offset t.
Proof.
  induction t as [lc v sp p|cls0 cs0 IH] using tree_ind';
    intros h lo r parent cls cs fuel Ht Hlaid Hfuel; [discriminate|].
  injection Ht as -> ->.
  inversion Hlaid as [|? ? ? refs ? ? Hr Hcs]; subst.
  destruct fuel as [|fuel]; [simpl in Hfuel; lia|].
  assert (Hle : lo <= r).
  { apply (consecutive_le Hcs).
    intros lo' c' r' _ Hc'. apply (laid_out_le Hc'). }
  destruct (@move_children_laid_out line_offset column_offset fuel (Some r)
              cs refs lo r h IH) as [h' [Hrun [Hlaid' Hout]]].
  { intros c Hc. apply height_child in Hc. simpl in Hfuel. lia. }
  { exact Hcs. }
  exists h'. rewrite move_unfold, Hr. split; [exact Hrun|]. split.
  - simpl shift. apply laid_simple with (refs := refs); [|exact Hlaid'].
    rewrite Hout by lia. exact Hr.
  - intros x Hx. apply Hout. lia.
Qed.

Lemma store_of_laid_out t : laid_out (store_of t) 0 t (root_of t) None.
Proof.
  unfold store_of, root_of.
  destruct (build_laid_out t (fst empty) (snd empty))
    as [r [h' [Hb [Hlaid _]]]].
  change (build t empty = (r, (h', S r))) in Hb.
  rewrite Hb. exact Hlaid.
Qed.

(** C10: whatever [move] does, and whether it returns or raises, the store
    afterwards differs from the store before in the [start_pos] of leaves
    at most, and only in leaves below the node; so every [get_code] gives
    what it gave before.  On a store that holds a tree, whatever its
    [parent] fields are, [move] returns; and on the store the constructors
    made for a tree without a [Function] it leaves that tree with every
    leaf shifted by the two offsets. *)
Theorem move_changes_start_pos_only :
  (forall fuel line_offset column_offset h self,
      let h' := fst (move fuel line_offset column_offset h self) in
      (forall x, erase_pos (h' x) = erase_pos (h x))
      /\ (forall x, ~ beneath h self x -> h' x = h x)
      /\ (forall fuel' x, get_code fuel' h' x = get_code fuel' h x))
  /\
  (forall fuel line_offset column_offset h self cls cs,
      holds h (Simple cls cs) self ->
      height (Simple cls cs) <= fuel ->
      snd (move fuel line_offset column_offset h self) = Ok tt)
  /\
  (forall fuel line_offset column_offset cls cs,
      no_function (Simple cls cs) = true ->
      height (Simple cls cs) <= fuel ->
      exists h',
        move fuel line_offset column_offset
          (store_of (Simple cls cs)) (root_of (Simple cls cs))
        = (h', Ok tt)
        /\ represents h'
             (shift line_offset column_offset (Simple cls cs))
             (root_of (Simple cls cs)) None).
Proof.
  split; [|split].
  - intros fuel line_offset column_offset h self h'.
    pose proof (move_same_but_pos fuel line_offset column_offset h self)
      as Hsame.
    split; [exact Hsame|split].
    + intros x Hnot.
      destruct (move_touches_beneath fuel line_offset column_offset h self x)
        as [Heq|Hb]; [exact Heq|contradiction].
    + apply get_code_same_but_pos. exact Hsame.
  - intros fuel line_offset column_offset h self cls cs Hrep Hfuel.
    inversion Hrep as [|? ? refs ? ? Hr _]; subst.
    eapply move_returns; [exact Hr| |exact Hfuel].
    exact (holds_depth_within Hrep).
  - intros fuel line_offset column_offset cls cs _ Hfuel.
    destruct (@move_laid_out line_offset column_offset (Simple cls cs)
                (store_of (Simple cls cs)) 0 (root_of (Simple cls cs)) None
                cls cs fuel eq_refl (store_of_laid_out (Simple cls cs)) Hfuel)
      as [h' [Hrun [Hlaid _]]].
    exists h'. split; [exact Hrun|].
    exact (laid_out_represents Hlaid).
Qed.

Lemma move_changes_start_pos_only_witness :
  snd (move 3 1 2
         (store_of (Simple ExprStmt Examples.attribute_assignment))
         (root_of (Simple ExprStmt Examples.attribute_assignment)))
  = Ok tt
  /\ get_code 4
       (fst (move 3 1 2
               (store_of (Simple ExprStmt Examples.attribute_assignment))
               (root_of (Simple ExprStmt Examples.attribute_assignment))))
       (root_of (Simple ExprStmt Examples.attribute_assignment))
     = Ok "a.b = 1"
  /\ fst (move 3 1 2
            (store_of (Simple ExprStmt Examples.attribute_assignment))
            (root_of (Simple ExprStmt Examples.attribute_assignment))) 0
     = OLeaf Name "a" (2, 2)%Z "" (Some 4).
Proof.
  destruct move_changes_start_pos_only as [Hframe [Hreturns _]].
  destruct (Hframe 3 1%Z 2%Z
              (store_of (Simple ExprStmt Examples.attribute_assignment))
              (root_of (Simple ExprStmt Examples.attribute_assignment)))
    as [_ [_ Hcode]].
  split; [|split].
  - apply Hreturns with (cls := ExprStmt)
                        (cs := Examples.attribute_assignment).
    + apply represents_holds with (parent := None). apply build_represents.
    + vm_compute. lia.
  - rewrite Hcode. reflexivity.
  - reflexivity.
Defined.

End StoreFacts.

(** ** Flow chains *)

Module FlowFacts.
Import Flow.
Import FlowSpec.

Lemma chain_functional h a l1 :
  chain h a l1 -> forall l2, chain h a l2 -> l1 = l2.
Proof.
  induction 1 as [a Ha|a b l Ha _ IH]; intros l2 H2;
    inversion H2 as [? Ha2|? b2 l2' Ha2 Hrest]; subst; try congruence.
  rewrite Ha in Ha2. injection Ha2 as <-.
  f_equal. apply IH. exact Hrest.
Qed.

Lemma chain_suffix h a l :
  chain h a l ->
  forall x, In x l -> exists l', chain h x l' /\ length l' <= length l.
Proof.
  induction 1 as [a Ha|a b l Ha Hrest IH]; intros x Hx.
  - destruct Hx as [<-|[]]. exists [a]. split; [constructor; exact Ha|lia].
  - destruct Hx as [<-|Hx].
    + exists (a :: l). split; [econstructor; eassumption|lia].
    + destruct (IH x Hx) as [l' [Hl' Hlen]].
      exists l'. split; [exact Hl'|simpl; lia].
Qed.

(** A chain that ends has no segment twice. *)
Lemma chain_NoDup h a l : chain h a l -> NoDup l.
Proof.
  induction 1 as [a Ha|a b l Ha Hrest IH].
  - constructor; [intros []|constructor].
  - constructor; [|exact IH].
    intros Hin.
    destruct (chain_suffix Hrest a Hin) as [l' [Hl' Hlen]].
    assert (Heq : l' = a :: l).
    { apply (chain_functional Hl'). econstructor; eassumption. }
    subst l'. simpl in Hlen. lia.
Qed.

Lemma chain_ext h h' a l :
  chain h a l ->
  (forall x, In x l -> next (h' x) = next (h x)) ->
  chain h' a l.
Proof.
  induction 1 as [a Ha|a b l Ha _ IH]; intros Hsame.
  - constructor. rewrite Hsame by (left; reflexivity). exact Ha.
  - econstructor.
    + rewrite Hsame by (left; reflexivity). exact Ha.
    + apply IH. intros x Hx. apply Hsame. right. exact Hx.
Qed.

Lemma flow_update_same h r o : update h r o r = o.
Proof. unfold update. rewrite Nat.eqb_refl. reflexivity. Qed.

Lemma flow_update_other h r o x : x <> r -> update h r o x = h x.
Proof.
  intros Hx. unfold update.
  destruct (Nat.eqb_spec x r); [contradiction|reflexivity].
Qed.

Lemma set_parent_keeps_links value : forall fuel h a x,
  next (fst (set_parent fuel h a value) x) = next (h x)
  /\ previous (fst (set_parent fuel h a value) x) = previous (h x).
Proof.
  induction fuel as [|fuel IH]; intros h a x; [split; reflexivity|].
  simpl. rewrite flow_update_same. simpl.
  assert (Hupd : next (update h a (Build (next (h a)) (previous (h a)) value) x)
                 = next (h x)
                 /\ previous
                      (update h a (Build (next (h a)) (previous (h a)) value) x)
                    = previous (h x)).
  { destruct (Nat.eq_dec x a) as [->|Hne].
    - rewrite flow_update_same. split; reflexivity.
    - rewrite flow_update_other by exact Hne. split; reflexivity. }
  destruct (next (h a)) as [n|]; [|exact Hupd].
  destruct (IH (update h a (Build (Some n) (previous (h a)) value)) n x)
    as [Hn Hp].
  rewrite Hn, Hp. exact Hupd.
Qed.

(** The setter run on a chain that ends: it returns, having written
    [value] into every segment of the chain and nothing else. *)
Lemma set_parent_chain value : forall l h a fuel,
  chain h a l ->
  length l <= fuel ->
  exists h',
    set_parent fuel h a value = (h', Ok tt)
    /\ (forall x, In x l -> _parent (h' x) = value)
    /\ (forall x, ~ In x l -> h' x = h x).
Proof.
  induction l as [|a0 l IH]; intros h a fuel Hchain Hfuel;
    [inversion Hchain|].
  destruct fuel as [|fuel]; [simpl in Hfuel; lia|].
  pose proof (chain_NoDup Hchain) as Hnd.
  inversion Hchain as [? Ha|? b ? Ha Hrest]; subst;
    simpl; rewrite flow_update_same; simpl; rewrite Ha.
  - eexists. split; [reflexivity|split].
    + intros x [<-|[]]. rewrite flow_update_same. reflexivity.
    + intros x Hx. apply flow_update_other.
      intros ->. apply Hx. left. reflexivity.
  - set (h1 := update h a0 (Build (Some b) (previous (h a0)) value)).
    assert (Hchain1 : chain h1 b l).
    { eapply chain_ext; [exact Hrest|]. intros x Hx. unfold h1.
      rewrite flow_update_other; [reflexivity|].
      intros ->. inversion Hnd; contradiction. }
    destruct (IH h1 b fuel Hchain1) as [h' [Hrun [Hin Hout]]];
      [simpl in Hfuel; lia|].
    exists h'. rewrite Hrun. split; [reflexivity|split].
    + intros x [<-|Hx]; [|apply Hin; exact Hx].
      rewrite Hout by (inversion Hnd; assumption).
      unfold h1. rewrite flow_update_same. reflexivity.
    + intros x Hx. rewrite Hout by (intros Hl; apply Hx; right; exact Hl).
      apply flow_update_other. intros ->. apply Hx. left. reflexivity.
Qed.

Lemma chain_head h a l : chain h a l -> exists l', l = a :: l'.
Proof.
  intros [a' _|a' b l' _ _]; eexists; reflexivity.
Qed.

Lemma last_cons_in (a : ref) (l : list ref) (d : ref) :
  In (last (a :: l) d) (a :: l).
Proof.
  revert a. induction l as [|b l IH]; intros a.
  - left. reflexivity.
  - right. exact (IH b).
Qed.

Lemma last_cons_default (a : ref) (l : list ref) (d d' : ref) :
  last (a :: l) d = last (a :: l) d'.
Proof.
  revert a. induction l as [|b l IH]; intros a; [reflexivity|].
  exact (IH b).
Qed.

(** [set_next] writes [next] only where it was [None]. *)
Lemma set_next_keeps_links next_ : forall fuel h self x,
  next (h x) <> None ->
  next (fst (set_next fuel h self next_) x) = next (h x).
Proof.
  induction fuel as [|fuel IH]; intros h self x Hx; [reflexivity|].
  simpl. destruct (next (h self)) as [n|] eqn:Hself; [apply IH; exact Hx|].
  rewrite flow_update_same. simpl.
  set (h1 := update h self
               (Build (Some next_) (previous (h self)) (_parent (h self)))).
  assert (Hx1 : next (h1 x) = next (h x)).
  { unfold h1. rewrite flow_update_other; [reflexivity|]. congruence. }
  pose proof (set_parent_keeps_links (_parent (h self)) fuel h1 next_) as Hsp.
  destruct (set_parent fuel h1 next_ (_parent (h self))) as [h2 [[]|e]];
    simpl in Hsp.
  - destruct (next (h2 self)) as [n|]; simpl.
    + destruct (Nat.eq_dec x n) as [->|Hne].
      * rewrite flow_update_same. simpl. exact (eq_trans (proj1 (Hsp n)) Hx1).
      * rewrite flow_update_other by exact Hne.
        exact (eq_trans (proj1 (Hsp x)) Hx1).
    + exact (eq_trans (proj1 (Hsp x)) Hx1).
  - exact (eq_trans (proj1 (Hsp x)) Hx1).
Qed.

(** [set_next] on a chain that ends, with a segment whose own chain ends
    and shares nothing with it. *)
Lemma set_next_chain next_ l2 : forall l1 h self fuel,
  chain h self l1 ->
  chain h next_ l2 ->
  (forall x, In x l1 -> ~ In x l2) ->
  length l1 + length l2 <= fuel ->
  exists h',
    set_next fuel h self next_ = (h', Ok next_)
    /\ chain h' self (l1 ++ l2)
    /\ next (h' (last l1 self)) = Some next_
    /\ previous (h' next_) = Some (last l1 self)
    /\ (forall x, In x l2 -> _parent (h' x) = _parent (h (last l1 self)))
    /\ (forall x, x <> last l1 self -> ~ In x l2 -> h' x = h x).
Proof.
  induction l1 as [|a l1 IH]; intros h self fuel Hc1 Hc2 Hdisj Hfuel;
    [inversion Hc1|].
  destruct fuel as [|fuel]; [simpl in Hfuel; lia|].
  destruct (chain_head Hc2) as [l2' Hl2].
  assert (Hnext_in : In next_ l2) by (rewrite Hl2; left; reflexivity).
  inversion Hc1 as [? Hself|? b ? Hself Hrest]; subst a.
  - (* [self] is the tail *)
    subst l1. simpl last. simpl set_next. rewrite Hself, flow_update_same.
    cbn [_parent].
    set (h1 := update h self
                 (Build (Some next_) (previous (h self)) (_parent (h self)))).
    assert (Hself2 : ~ In self l2) by (apply Hdisj; left; reflexivity).
    assert (Hne : self <> next_) by congruence.
    assert (Hc2' : chain h1 next_ l2).
    { eapply chain_ext; [exact Hc2|]. intros x Hx. unfold h1.
      rewrite flow_update_other; [reflexivity|]. congruence. }
    destruct (set_parent_chain (_parent (h self)) (fuel := fuel) Hc2')
      as [h2 [Hrun [Hin Hout]]]; [simpl in Hfuel; lia|].
    pose proof (set_parent_keeps_links (_parent (h self)) fuel h1 next_)
      as Hlinks.
    rewrite Hrun in Hlinks. simpl in Hlinks.
    rewrite Hrun.
    assert (Hh2self : h2 self = h1 self) by (apply Hout; exact Hself2).
    rewrite Hh2self. unfold h1 at 1. rewrite flow_update_same. cbn [next].
    eexists. split; [reflexivity|].
    split; [|split; [|split; [|split]]].
    + simpl app. econstructor.
      * rewrite flow_update_other by exact Hne.
        rewrite Hh2self. unfold h1. rewrite flow_update_same. reflexivity.
      * eapply chain_ext; [exact Hc2|]. intros x Hx.
        destruct (Nat.eq_dec x next_) as [->|Hxn].
        -- rewrite flow_update_same. cbn [next].
           rewrite (proj1 (Hlinks next_)). unfold h1.
           rewrite flow_update_other by congruence. reflexivity.
        -- rewrite flow_update_other by exact Hxn.
           rewrite (proj1 (Hlinks x)). unfold h1.
           rewrite flow_update_other by congruence. reflexivity.
    + rewrite flow_update_other by exact Hne.
      rewrite Hh2self. unfold h1. rewrite flow_update_same. reflexivity.
    + rewrite flow_update_same. reflexivity.
    + intros x Hx. destruct (Nat.eq_dec x next_) as [->|Hxn].
      * rewrite flow_update_same. cbn [_parent]. apply Hin. exact Hnext_in.
      * rewrite flow_update_other by exact Hxn. apply Hin. exact Hx.
    + intros x Hxs Hx2.
      rewrite flow_update_other by congruence.
      rewrite Hout by exact Hx2. unfold h1. apply flow_update_other. exact Hxs.
  - (* [self] has a successor *)
    destruct (chain_head Hrest) as [l1' Hl1]. rewrite Hl1 in *.
    pose proof (chain_NoDup Hc1) as Hnd.
    assert (Hlast : last (self :: b :: l1') self = last (b :: l1') b)
      by (apply (last_cons_default b l1' self b)).
    rewrite Hlast.
    simpl set_next. rewrite Hself.
    destruct (IH h b fuel Hrest Hc2) as [h' [Hrun [Hch [Htail [Hprev [Hpar Hout]]]]]].
    { intros x Hx. apply Hdisj. right. exact Hx. }
    { simpl in *. lia. }
    exists h'. split; [exact Hrun|].
    split; [|split; [exact Htail|split; [exact Hprev|split; [exact Hpar|exact Hout]]]].
    change ((self :: b :: l1') ++ l2) with (self :: ((b :: l1') ++ l2)).
    econstructor; [|exact Hch].
    rewrite Hout; [exact Hself| |apply Hdisj; left; reflexivity].
    intros Heq. apply NoDup_cons_iff in Hnd as [Hnotin _].
    apply Hnotin. rewrite Heq. apply last_cons_in.
Qed.

Lemma set_parent_on_loop value : forall fuel h c,
  next (h c) = Some c ->
  snd (set_parent fuel h c value) = Raise RecursionError.
Proof.
  induction fuel as [|fuel IH]; intros h c Hc; [reflexivity|].
  simpl. rewrite flow_update_same. simpl. rewrite Hc.
  apply IH. rewrite flow_update_same. reflexivity.
Qed.

Lemma set_next_on_own_tail : forall fuel h c,
  next (h c) = None ->
  snd (set_next fuel h c c) = Raise RecursionError.
Proof.
  intros [|fuel] h c Hc; [reflexivity|].
  simpl. rewrite Hc, flow_update_same. cbn [_parent].
  pose proof (@set_parent_on_loop (_parent (h c)) fuel
                (update h c (Build (Some c) (previous (h c)) (_parent (h c))))
                c) as Hloop.
  rewrite flow_update_same in Hloop. specialize (Hloop eq_refl).
  destruct (set_parent fuel _ c _) as [h2 res]. simpl in Hloop.
  subst res. reflexivity.
Qed.




End FlowFacts.

(** ** Positions *)

Module PositionsFacts.
Import Store.
Import StoreSpec.
Import PositionsSpec.
Import StoreFacts.

Lemma tree_end_pos_simple cls cs :
  tree_end_pos (Simple cls cs) = last_end cs.
Proof. reflexivity. Qed.

Lemma last_end_last : forall cs c, last_end (cs ++ [c]) = tree_end_pos c.
Proof.
  induction cs as [|c0 cs IH]; intros c; [reflexivity|].
  simpl. destruct (cs ++ [c]) as [|x l] eqn:Hl.
  - destruct cs; discriminate.
  - rewrite <- Hl. apply IH.
Qed.

Lemma flat_map_leaves_last cs c :
  flat_map leaves (cs ++ [c]) = flat_map leaves cs ++ leaves c.
Proof. rewrite flat_map_app. simpl. rewrite app_nil_r. reflexivity. Qed.

(** X1: in a tree without empty nodes, [start_pos] is the [start_pos] of
    the first leaf and [end_pos] is the [end_pos] of the last leaf: its
    line, and its column plus the number of characters of its value. *)
Theorem start_and_end_pos_are_those_of_the_outer_leaves t :
  no_empty_node t = true ->
  exists cls1 v1 sp1 p1 after cls2 v2 sp2 p2 before,
    leaves t = Leaf cls1 v1 sp1 p1 :: after
    /\ leaves t = before ++ [Leaf cls2 v2 sp2 p2]
    /\ tree_start_pos t = Ok sp1
    /\ tree_end_pos t
       = Ok (fst sp2, (snd sp2 + Z.of_nat (len v2))%Z).
Proof.
  induction t as [cls v sp p|cls cs IH] using tree_ind'; intros Hne.
  - exists cls, v, sp, p, [], cls, v, sp, p, [].
    repeat split; reflexivity.
  - simpl in Hne. destruct cs as [|c cs]; [discriminate|].
    rewrite forallb_forall in Hne. rewrite Forall_forall in IH.
    destruct (IH c (or_introl eq_refl) (Hne c (or_introl eq_refl)))
      as (cls1 & v1 & sp1 & p1 & after & _ & _ & _ & _ & _
          & Hfirst & _ & Hstart & _).
    destruct (@exists_last _ (c :: cs)) as [front [cl Hcl]]; [discriminate|].
    assert (Hin : In cl (c :: cs))
      by (rewrite Hcl; apply in_or_app; right; left; reflexivity).
    destruct (IH cl Hin (Hne cl Hin))
      as (_ & _ & _ & _ & _ & cls2 & v2 & sp2 & p2 & before
          & _ & Hlast & _ & Hend).
    exists cls1, v1, sp1, p1, (after ++ flat_map leaves cs),
      cls2, v2, sp2, p2, (flat_map leaves front ++ before).
    split; [|split; [|split]].
    + simpl. rewrite Hfirst. reflexivity.
    + change (leaves (Simple cls (c :: cs))) with (flat_map leaves (c :: cs)).
      rewrite Hcl, flat_map_leaves_last, Hlast. apply app_assoc.
    + exact Hstart.
    + rewrite tree_end_pos_simple, Hcl, last_end_last. exact Hend.
Qed.

Lemma start_and_end_pos_are_those_of_the_outer_leaves_witness :
  no_empty_node (Simple ExprStmt Examples.tuple_assignment) = true
  /\ (exists cls1 v1 sp1 p1 after cls2 v2 sp2 p2 before,
         leaves (Simple ExprStmt Examples.tuple_assignment)
         = Leaf cls1 v1 sp1 p1 :: after
         /\ leaves (Simple ExprStmt Examples.tuple_assignment)
            = before ++ [Leaf cls2 v2 sp2 p2]
         /\ tree_start_pos (Simple ExprStmt Examples.tuple_assignment)
            = Ok sp1
         /\ tree_end_pos (Simple ExprStmt Examples.tuple_assignment)
            = Ok (fst sp2, (snd sp2 + Z.of_nat (len v2))%Z))
  /\ tree_end_pos (Simple ExprStmt Examples.tuple_assignment)
     = Ok (1, 23)%Z
  /\ tree_end_pos (Simple ExprStmt [Examples.lambda_name]) = Ok (1, 1)%Z.
Proof.
  split; [reflexivity|]. split; [|split; reflexivity].
  apply (@start_and_end_pos_are_those_of_the_outer_leaves
           (Simple ExprStmt Examples.tuple_assignment)).
  reflexivity.
Defined.

(** On a store that holds a tree, the positions read off the store are
    those of the tree. *)
Lemma start_pos_represents h t : forall r parent fuel,
  represents h t r parent ->
  height t <= fuel ->
  Simple_.start_pos fuel h r = tree_start_pos t.
Proof.
  induction t as [cls v sp p|cls cs IH] using tree_ind';
    intros r parent fuel Hrep Hfuel.
  - inversion Hrep as [? ? ? ? ? ? Hr|]; subst.
    destruct fuel; simpl; rewrite Hr; reflexivity.
  - inversion Hrep as [|? ? refs ? ? Hr _ Hall]; subst.
    destruct fuel as [|fuel]; [simpl in Hfuel; lia|].
    simpl. rewrite Hr.
    destruct Hall as [|c cr cs refs Hc _]; [reflexivity|].
    simpl. inversion IH as [|? ? IHc _]; subst.
    apply (IHc cr (Some r) fuel Hc).
    pose proof (@height_child c (c :: cs) (or_introl eq_refl)).
    simpl in Hfuel. simpl in H. lia.
Qed.

Lemma index_last_last {A : Type} (l : list A) (x : A) :
  index_last (l ++ [x]) = Ok x.
Proof. unfold index_last. rewrite rev_app_distr. reflexivity. Qed.

Lemma end_pos_represents h t : forall r parent fuel,
  represents h t r parent ->
  height t < fuel ->
  Simple_.end_pos fuel h r = tree_end_pos t.
Proof.
  induction t as [cls v sp p|cls cs IH] using tree_ind';
    intros r parent fuel Hrep Hfuel.
  - inversion Hrep as [? ? ? ? ? ? Hr|]; subst.
    destruct fuel; [lia|]. simpl. rewrite Hr. reflexivity.
  - inversion Hrep as [|? ? refs ? ? Hr _ Hall]; subst.
    destruct fuel as [|fuel]; [lia|].
    simpl Simple_.end_pos. rewrite Hr, tree_end_pos_simple.
    destruct cs as [|c0 cs0].
    + inversion Hall; subst. reflexivity.
    + destruct (@exists_last _ (c0 :: cs0)) as [front [cl Hcl]];
        [discriminate|].
      rewrite Hcl in *. clear Hcl.
      apply Forall2_app_inv_l in Hall.
      destruct Hall as (rfront & rlast & _ & Hlast & ->).
      inversion Hlast as [|? cr ? ? Hcl Hnil]; subst.
      inversion Hnil; subst.
      rewrite index_last_last, last_end_last. simpl.
      rewrite Forall_forall in IH.
      apply (IH cl) with (parent := Some r); [|exact Hcl|].
      * apply in_or_app. right. left. reflexivity.
      * assert (Hin : In cl (front ++ [cl]))
          by (apply in_or_app; right; left; reflexivity).
        pose proof (height_child _ _ Hin). simpl in Hfuel. lia.
Qed.

Lemma start_pos_shift lo co t :
  tree_start_pos (shift lo co t)
  = fmap (translate lo co) (tree_start_pos t).
Proof.
  induction t as [cls v sp p|cls cs IH] using tree_ind'; [reflexivity|].
  destruct cs as [|c cs]; [reflexivity|].
  simpl. inversion IH; subst. assumption.
Qed.

Lemma last_end_shift lo co cs :
  Forall (fun t => tree_end_pos (shift lo co t)
                   = fmap (translate lo co) (tree_end_pos t)) cs ->
  last_end (map (shift lo co) cs) = fmap (translate lo co) (last_end cs).
Proof.
  induction 1 as [|c cs Hc Hcs IH]; [reflexivity|].
  destruct cs as [|c' cs]; [exact Hc|].
  exact IH.
Qed.

Lemma end_pos_shift lo co t :
  tree_end_pos (shift lo co t) = fmap (translate lo co) (tree_end_pos t).
Proof.
  induction t as [cls v sp p|cls cs IH] using tree_ind'.
  { unfold translate, fmap. simpl. do 2 apply f_equal. lia. }
  simpl shift. rewrite !tree_end_pos_simple. apply last_end_shift. exact IH.
Qed.

Lemma height_shift lo co t : height (shift lo co t) = height t.
Proof.
  induction t as [cls v sp p|cls cs IH] using tree_ind'; [reflexivity|].
  simpl. f_equal. rewrite map_map. f_equal.
  apply map_ext_Forall. exact IH.
Qed.

Lemma shift_shift a b c d t :
  shift c d (shift a b t) = shift (a + c) (b + d) t.
Proof.
  induction t as [cls v sp p|cls cs IH] using tree_ind'.
  { simpl. rewrite <- !Z.add_assoc. reflexivity. }
  simpl. f_equal. rewrite map_map. apply map_ext_Forall. exact IH.
Qed.

Lemma shift_zero t : shift 0 0 t = t.
Proof.
  induction t as [cls v sp p|cls cs IH] using tree_ind'.
  - simpl. rewrite !Z.add_0_r. destruct sp. reflexivity.
  - simpl. f_equal. rewrite <- (map_id cs) at 2.
    apply map_ext_Forall. exact IH.
Qed.

(** X2: [move] on the store the constructors made for a node without a
    [Function] in it returns, and afterwards the node's [start_pos] and
    [end_pos] are the former ones moved by the two offsets (or they raise
    as they did before). *)
Theorem move_shifts_start_pos_and_end_pos
  line_offset column_offset cls cs fuel :
  no_function (Simple cls cs) = true ->
  height (Simple cls cs) <= fuel ->
  exists h',
    move fuel line_offset column_offset
      (store_of (Simple cls cs)) (root_of (Simple cls cs))
    = (h', Ok tt)
    /\ Simple_.start_pos fuel h' (root_of (Simple cls cs))
       = fmap (translate line_offset column_offset)
           (Simple_.start_pos fuel (store_of (Simple cls cs))
              (root_of (Simple cls cs)))
    /\ Simple_.end_pos (S fuel) h' (root_of (Simple cls cs))
       = fmap (translate line_offset column_offset)
           (Simple_.end_pos (S fuel) (store_of (Simple cls cs))
              (root_of (Simple cls cs))).
Proof.
  intros _ Hfuel.
  destruct (@move_laid_out line_offset column_offset (Simple cls cs)
              (store_of (Simple cls cs)) 0 (root_of (Simple cls cs)) None
              cls cs fuel eq_refl (store_of_laid_out (Simple cls cs)) Hfuel)
    as [h' [Hrun [Hlaid _]]].
  exists h'. split; [exact Hrun|].
  pose proof (laid_out_represents Hlaid) as Hrep'.
  pose proof (build_represents (Simple cls cs)) as Hrep.
  split.
  - rewrite (start_pos_represents Hrep' (fuel := fuel))
      by (rewrite height_shift; exact Hfuel).
    rewrite (start_pos_represents Hrep Hfuel).
    apply start_pos_shift.
  - rewrite (end_pos_represents Hrep' (fuel := S fuel))
      by (rewrite height_shift; lia).
    rewrite (end_pos_represents Hrep (fuel := S fuel)) by lia.
    apply end_pos_shift.
Qed.

Lemma move_shifts_start_pos_and_end_pos_witness :
  no_function (Simple ExprStmt Examples.attribute_assignment) = true
  /\ height (Simple ExprStmt Examples.attribute_assignment) <= 3
  /\ exists h',
       move 3 1 2
         (store_of (Simple ExprStmt Examples.attribute_assignment))
         (root_of (Simple ExprStmt Examples.attribute_assignment))
       = (h', Ok tt)
       /\ Simple_.start_pos 3 h'
            (root_of (Simple ExprStmt Examples.attribute_assignment))
          = fmap (translate 1 2)
              (Simple_.start_pos 3
                 (store_of (Simple ExprStmt Examples.attribute_assignment))
                 (root_of (Simple ExprStmt Examples.attribute_assignment)))
       /\ Simple_.end_pos 4 h'
            (root_of (Simple ExprStmt Examples.attribute_assignment))
          = fmap (translate 1 2)
              (Simple_.end_pos 4
                 (store_of (Simple ExprStmt Examples.attribute_assignment))
                 (root_of (Simple ExprStmt Examples.attribute_assignment))).
Proof.
  split; [reflexivity|]. split; [vm_compute; lia|].
  apply (@move_shifts_start_pos_and_end_pos 1 2 ExprStmt
           Examples.attribute_assignment 3).
  - reflexivity.
  - vm_compute. lia.
Defined.

(** X3: on the store the constructors made for a node without a
    [Function] in it, two moves in a row are one move by the sums of the
    offsets: both return, and the store then holds the tree with every
    leaf shifted by the sums.  So a move by the opposite offsets puts the
    tree back. *)
Theorem moves_add_up a b c d cls cs fuel :
  no_function (Simple cls cs) = true ->
  height (Simple cls cs) <= fuel ->
  exists h1 h2,
    move fuel a b (store_of (Simple cls cs)) (root_of (Simple cls cs))
    = (h1, Ok tt)
    /\ move fuel c d h1 (root_of (Simple cls cs)) = (h2, Ok tt)
    /\ represents h2 (shift (a + c) (b + d) (Simple cls cs))
         (root_of (Simple cls cs)) None
    /\ (c = (- a)%Z -> d = (- b)%Z ->
        represents h2 (Simple cls cs) (root_of (Simple cls cs)) None).
Proof.
  intros _ Hfuel.
  destruct (@move_laid_out a b (Simple cls cs)
              (store_of (Simple cls cs)) 0 (root_of (Simple cls cs)) None
              cls cs fuel eq_refl (store_of_laid_out (Simple cls cs)) Hfuel)
    as [h1 [Hrun1 [Hlaid1 _]]].
  destruct (@move_laid_out c d (shift a b (Simple cls cs))
              h1 0 (root_of (Simple cls cs)) None
              cls (map (shift a b) cs) fuel eq_refl Hlaid1)
    as [h2 [Hrun2 [Hlaid2 _]]].
  { rewrite height_shift. exact Hfuel. }
  exists h1, h2. split; [exact Hrun1|]. split; [exact Hrun2|].
  rewrite shift_shift in Hlaid2.
  split; [exact (laid_out_represents Hlaid2)|].
  intros -> ->.
  replace (a + - a)%Z with 0%Z in Hlaid2 by lia.
  replace (b + - b)%Z with 0%Z in Hlaid2 by lia.
  rewrite shift_zero in Hlaid2.
  exact (laid_out_represents Hlaid2).
Qed.

Lemma moves_add_up_witness :
  no_function (Simple ExprStmt Examples.attribute_assignment) = true
  /\ height (Simple ExprStmt Examples.attribute_assignment) <= 3
  /\ exists h1 h2,
       move 3 1 2
         (store_of (Simple ExprStmt Examples.attribute_assignment))
         (root_of (Simple ExprStmt Examples.attribute_assignment))
       = (h1, Ok tt)
       /\ move 3 (-1) (-2) h1
            (root_of (Simple ExprStmt Examples.attribute_assignment))
          = (h2, Ok tt)
       /\ represents h2
            (shift (1 + -1) (2 + -2)
               (Simple ExprStmt Examples.attribute_assignment))
            (root_of (Simple ExprStmt Examples.attribute_assignment)) None
       /\ ((-1)%Z = (- 1)%Z -> (-2)%Z = (- 2)%Z ->
           represents h2 (Simple ExprStmt Examples.attribute_assignment)
             (root_of (Simple ExprStmt Examples.attribute_assignment)) None).
Proof.
  split; [reflexivity|]. split; [vm_compute; lia|].
  apply (@moves_add_up 1 2 (-1) (-2) ExprStmt
           Examples.attribute_assignment 3).
  - reflexivity.
  - vm_compute. lia.
Defined.

End PositionsFacts.

(** ** Paths in a store that holds a tree *)

Module PathFacts.
Import Store.
Import StoreSpec.
Import StoreFacts.

Lemma ref_at_app h : forall p r q,
  ref_at h r (p ++ q)
  = match ref_at h r p with
    | Some m => ref_at h m q
    | None => None
    end.
Proof.
  induction p as [|k p IH]; intros r q; [reflexivity|].
  simpl. destruct (h r) as [| cls children parent]; [reflexivity|].
  destruct (nth_error children k) as [c|]; [apply IH|reflexivity].
Qed.

(** What a path reaches in the store is what it reaches in the tree. *)
Lemma represents_at h : forall path t r parent x,
  represents h t r parent ->
  ref_at h r path = Some x ->
  exists tx px, subtree t path = Some tx /\ represents h tx x px.
Proof.
  induction path as [|k path IH]; intros t r parent x Hrep Hat.
  - simpl in Hat. injection Hat as <-. exists t, parent.
    split; [reflexivity|exact Hrep].
  - simpl in Hat.
    inversion Hrep as [? ? ? ? ? ? Hr|cls cs refs ? ? Hr Hnd Hall]; subst;
      rewrite Hr in Hat; [discriminate|].
    destruct (nth_error refs k) as [c|] eqn:Hk; [|discriminate].
    destruct (Forall2_nth_error Hall k Hk) as [tc [Htc Hc]].
    destruct (IH tc c (Some r) x Hc Hat) as [tx [px [Hsub Hx]]].
    exists tx, px. split; [|exact Hx]. simpl. rewrite Htc. exact Hsub.
Qed.

(** The object a path ending in [k] reaches is child [k] of the object
    the path without [k] reaches, and points back to it. *)
Lemma child_at h t r parent path k x :
  represents h t r parent ->
  ref_at h r (path ++ [k]) = Some x ->
  exists p cls children pp,
    ref_at h r path = Some p
    /\ h p = OSimple cls children pp
    /\ NoDup children
    /\ nth_error children k = Some x
    /\ parent_of (h x) = Some p.
Proof.
  intros Hrep Hat. rewrite ref_at_app in Hat.
  destruct (ref_at h r path) as [p|] eqn:Hp; [|discriminate].
  destruct (represents_at path Hrep Hp) as [tp [pp [_ Hrepp]]].
  simpl in Hat.
  inversion Hrepp as [? ? ? ? ? ? Hr|cls cs refs ? ? Hr Hnd Hall]; subst;
    rewrite Hr in Hat; [discriminate|].
  destruct (nth_error refs k) as [c|] eqn:Hk; [|discriminate].
  injection Hat as ->.
  destruct (Forall2_nth_error Hall k Hk) as [tc [_ Hc]].
  exists p, cls, refs, pp.
  repeat (split; [eassumption || reflexivity|]).
  exact (parent_of_represents Hc).
Qed.

Lemma ref_at_child h r path p cls children pp k :
  ref_at h r path = Some p ->
  h p = OSimple cls children pp ->
  ref_at h r (path ++ [k]) = nth_error children k.
Proof.
  intros Hp Hr. rewrite ref_at_app, Hp. simpl. rewrite Hr.
  destruct (nth_error children k); reflexivity.
Qed.

End PathFacts.

(** ** The constructors *)

Module ConstructorFacts.
Import Store.
Import StoreSpec.
Import StoreFacts.
Import PathFacts.

(** X4: for a tree without a [Function], the constructors, called
    bottom-up and from left to right as a parser calls them, make a store
    that holds the tree: every node lists its children in their order,
    every child's [parent] is the node that lists it, and the [parent] of
    the root is [None]. *)
Theorem constructors_build_the_tree t :
  no_function t = true ->
  represents (store_of t) t (root_of t) None
  /\ parent_of (store_of t (root_of t)) = None
  /\ (forall path k x,
         ref_at (store_of t) (root_of t) (path ++ [k]) = Some x ->
         exists p,
           ref_at (store_of t) (root_of t) path = Some p
           /\ parent_of (store_of t x) = Some p
           /\ nth_error (children_of_obj (store_of t p)) k = Some x)
  /\ (forall path c,
         subtree t path = Some c ->
         exists x px,
           ref_at (store_of t) (root_of t) path = Some x
           /\ represents (store_of t) c x px).
Proof.
  intros _.
  pose proof (build_represents t) as Hrep.
  split; [exact Hrep|]. split; [exact (parent_of_represents Hrep)|]. split.
  - intros path k x Hat.
    destruct (child_at path k Hrep Hat)
      as (p & cls & children & pp & Hp & Hr & _ & Hk & Hpar).
    exists p. split; [exact Hp|]. split; [exact Hpar|].
    rewrite Hr. exact Hk.
  - intros path c Hsub.
    destruct (ref_at_subtree path Hrep Hsub) as [x Hx].
    destruct (represents_at path Hrep Hx) as [tx [px [Hsub' Hrepx]]].
    rewrite Hsub in Hsub'. injection Hsub' as <-.
    exists x, px. split; assumption.
Qed.

Lemma constructors_build_the_tree_witness :
  no_function (Simple ExprStmt Examples.tuple_assignment) = true
  /\ represents (store_of (Simple ExprStmt Examples.tuple_assignment))
       (Simple ExprStmt Examples.tuple_assignment) 21 None
  /\ parent_of (store_of (Simple ExprStmt Examples.tuple_assignment) 3)
     = Some 6
  /\ nth_error
       (children_of_obj
          (store_of (Simple ExprStmt Examples.tuple_assignment) 6)) 0
     = Some 3.
Proof.
  destruct (@constructors_build_the_tree
              (Simple ExprStmt Examples.tuple_assignment) eq_refl)
    as (Hrep & _ & Hchild & _).
  split; [reflexivity|]. split; [exact Hrep|].
  destruct (Hchild [0; 2; 1] 0 3 eq_refl) as (p & Hp & Hpar & Hk).
  injection Hp as <-. split; [exact Hpar|exact Hk].
Defined.

Lemma with_parent_twice o p q :
  with_parent (with_parent o p) q = with_parent o q.
Proof. destruct o; reflexivity. Qed.

Lemma reparent_all_in p : forall refs h x,
  In x refs -> reparent_all p refs h x = with_parent (h x) p.
Proof.
  induction refs as [|r refs IH]; intros h x Hx; [destruct Hx|].
  change (reparent_all p (r :: refs) h)
    with (reparent_all p refs (update h r (with_parent (h r) p))).
  destruct (in_dec Nat.eq_dec x refs) as [Hin|Hout].
  - rewrite (IH _ x Hin).
    destruct (Nat.eq_dec x r) as [->|Hne].
    + rewrite update_same. apply with_parent_twice.
    + rewrite update_other by exact Hne. reflexivity.
  - rewrite reparent_all_other by exact Hout.
    destruct Hx as [<-|Hx]; [|contradiction].
    apply update_same.
Qed.

(** X5: [Simple.__init__] takes its children over: the new node lists
    them and has no parent, each child's [parent] is the new node
    whatever it was before, and nothing else changes.  So a child handed
    to a second node points to the second one, while the first still lists
    it. *)
Theorem simple_init_takes_its_children_over cls children h n :
  ~ In n children ->
  fst (new_simple cls children (h, n)) = n
  /\ snd (snd (new_simple cls children (h, n))) = S n
  /\ fst (snd (new_simple cls children (h, n))) n
     = OSimple cls children None
  /\ (forall c,
         In c children ->
         fst (snd (new_simple cls children (h, n))) c
         = with_parent (h c) (Some n))
  /\ (forall x,
         x <> n -> ~ In x children ->
         fst (snd (new_simple cls children (h, n))) x = h x)
  /\ (forall cls' children' c,
         In c children -> In c children' ->
         ~ In n children' -> ~ In (S n) children' ->
         let h'' :=
           fst (snd (new_simple cls' children'
                       (snd (new_simple cls children (h, n))))) in
         parent_of (h'' c) = Some (S n)
         /\ In c (children_of_obj (h'' n))).
Proof.
  intros Hfresh.
  assert (Hrun : forall cls0 children0 h0 n0,
             new_simple cls0 children0 (h0, n0)
             = (n0, (update (reparent_all (Some n0) children0 h0) n0
                       (OSimple cls0 children0 None), S n0)))
    by reflexivity.
  rewrite Hrun. cbn [fst snd].
  split; [reflexivity|]. split; [reflexivity|].
  split; [apply update_same|]. split; [|split].
  - intros c Hc. rewrite update_other by (intros ->; contradiction).
    apply reparent_all_in. exact Hc.
  - intros x Hx Hout. rewrite update_other by exact Hx.
    apply reparent_all_other. exact Hout.
  - intros cls' children' c Hc Hc' Hn HSn.
    rewrite Hrun. cbn [fst snd]. split.
    + rewrite update_other by (intros ->; contradiction).
      rewrite (@reparent_all_in (Some (S n)) children' _ c Hc').
      destruct (update _ n _ c); reflexivity.
    + rewrite update_other by lia.
      rewrite reparent_all_other by exact Hn.
      rewrite update_same. exact Hc.
Qed.

Lemma simple_init_takes_its_children_over_witness :
  fst (snd (new_simple (Node "atom") [0]
              (snd (new_simple ExprStmt [0]
                      (snd (new_leaf Name "x" (1, 0)%Z "" empty)))))) 0
  = OLeaf Name "x" (1, 0)%Z "" (Some 2)
  /\ fst (snd (new_simple ExprStmt [0]
                 (snd (new_leaf Name "x" (1, 0)%Z "" empty)))) 1
     = OSimple ExprStmt [0] None.
Proof.
  split; [reflexivity|].
  apply (@simple_init_takes_its_children_over ExprStmt [0]
           (fst (snd (new_leaf Name "x" (1, 0)%Z "" empty))) 1).
  simpl. intros [H|[]]. discriminate.
Defined.

End ConstructorFacts.

(** ** Siblings *)

Module SiblingFacts.
Import Store.
Import StoreSpec.
Import SiblingSpec.
Import Leaf_.
Import StoreFacts.
Import PathFacts.

Lemma NoDup_same_index {A : Type} (l : list A) i j x :
  NoDup l -> nth_error l i = Some x -> nth_error l j = Some x -> i = j.
Proof.
  intros Hnd Hi Hj.
  apply (proj1 (NoDup_nth_error l) Hnd).
  - apply nth_error_Some. rewrite Hi. discriminate.
  - rewrite Hi, Hj. reflexivity.
Qed.

Lemma nth_error_middle {A : Type} (pre rest : list A) (c : A) :
  nth_error (pre ++ c :: rest) (length pre) = Some c.
Proof. rewrite nth_error_app2, Nat.sub_diag by lia. reflexivity. Qed.

Lemma next_loop_nth children self k : forall rest pre,
  children = pre ++ rest ->
  NoDup children ->
  nth_error children k = Some self ->
  length pre <= k ->
  next_loop children rest (length pre) self = nth_error children (S k).
Proof.
  induction rest as [|c rest IH]; intros pre Hch Hnd Hk Hle.
  - rewrite app_nil_r in Hch. subst pre.
    assert (k < length children)
      by (apply nth_error_Some; rewrite Hk; discriminate).
    lia.
  - simpl. pose proof (nth_error_middle pre rest c) as Hc.
    rewrite <- Hch in Hc.
    destruct (Nat.eqb_spec c self) as [->|Hne].
    + rewrite (NoDup_same_index _ _ Hnd Hk Hc). reflexivity.
    + assert (Hlt : length pre <> k).
      { intros <-. rewrite Hc in Hk. congruence. }
      specialize (IH (pre ++ [c])).
      rewrite length_app in IH. simpl in IH.
      replace (length pre + 1) with (S (length pre)) in IH by lia.
      apply IH; [|exact Hnd|exact Hk|lia].
      rewrite <- app_assoc. exact Hch.
Qed.

Lemma prev_loop_nth children self k : forall rest pre,
  children = pre ++ rest ->
  NoDup children ->
  nth_error children k = Some self ->
  length pre <= k ->
  prev_loop children rest (length pre) self
  = Ok (match k with
        | O => None
        | S k' => nth_error children k'
        end).
Proof.
  induction rest as [|c rest IH]; intros pre Hch Hnd Hk Hle.
  - rewrite app_nil_r in Hch. subst pre.
    assert (k < length children)
      by (apply nth_error_Some; rewrite Hk; discriminate).
    lia.
  - simpl. pose proof (nth_error_middle pre rest c) as Hc.
    rewrite <- Hch in Hc.
    destruct (Nat.eqb_spec c self) as [->|Hne].
    + rewrite <- (NoDup_same_index _ _ Hnd Hk Hc).
      destruct k as [|k']; [reflexivity|].
      unfold index.
      destruct (nth_error children k') as [c'|] eqn:Hk'; [reflexivity|].
      apply nth_error_None in Hk'.
      assert (S k' < length children)
        by (apply nth_error_Some; rewrite Hk; discriminate).
      lia.
    + assert (Hlt : length pre <> k).
      { intros <-. rewrite Hc in Hk. congruence. }
      specialize (IH (pre ++ [c])).
      rewrite length_app in IH. simpl in IH.
      replace (length pre + 1) with (S (length pre)) in IH by lia.
      apply IH; [|exact Hnd|exact Hk|lia].
      rewrite <- app_assoc. exact Hch.
Qed.

Lemma Ok_inj {A : Type} (a b : A) : Ok a = Ok b -> a = b.
Proof. intros H. injection H as ->. reflexivity. Qed.

Lemma is_leaf_inv o :
  is_leaf o = true -> exists cls v sp p parent, o = OLeaf cls v sp p parent.
Proof.
  destruct o as [cls v sp p parent|]; [|discriminate].
  intros _. exists cls, v, sp, p, parent. reflexivity.
Qed.

(** The leaf that is child [k] of the node at [path]: the list its loops
    run over is the list of the children of that node. *)
Lemma siblings_at h t r parent path k x :
  represents h t r parent ->
  ref_at h r (path ++ [k]) = Some x ->
  is_leaf (h x) = true ->
  exists children,
    next_sibling h x = Ok (next_loop children children 0 x)
    /\ prev_sibling h x = prev_loop children children 0 x
    /\ NoDup children
    /\ nth_error children k = Some x
    /\ forall j, ref_at h r (path ++ [j]) = nth_error children j.
Proof.
  intros Hrep Hat Hleaf.
  destruct (child_at path k Hrep Hat)
    as (p & cls & children & pp & Hp & Hr & Hnd & Hk & Hpar).
  destruct (is_leaf_inv _ Hleaf) as (lc & v & sp & pre & lp & Hx).
  exists children.
  unfold next_sibling, prev_sibling, parent_children.
  rewrite Hx. rewrite Hx in Hpar. simpl in Hpar. simpl. rewrite Hpar.
  simpl. rewrite Hr. simpl.
  repeat (split; [assumption || reflexivity|]).
  intros j. exact (@ref_at_child h r path p cls children pp j Hp Hr).
Qed.

(** X6: in a store that holds a tree, the next sibling of the leaf that is
    child [k] of a node is child [k + 1] of that node, and [None] when
    there is none; its previous sibling is child [k - 1], and [None] for
    the first child. *)
Theorem siblings_are_the_neighbours h t r parent path k x :
  represents h t r parent ->
  ref_at h r (path ++ [k]) = Some x ->
  is_leaf (h x) = true ->
  next_sibling h x = Ok (ref_at h r (path ++ [S k]))
  /\ prev_sibling h x
     = Ok (match k with
           | O => None
           | S k' => ref_at h r (path ++ [k'])
           end).
Proof.
  intros Hrep Hat Hleaf.
  destruct (siblings_at path k Hrep Hat Hleaf)
    as (children & Hnext & Hprev & Hnd & Hk & Hat').
  rewrite Hnext, Hprev. split.
  - pose proof (@next_loop_nth children x k children [] eq_refl Hnd Hk
                  (Nat.le_0_l _)) as Hn.
    cbn [length] in Hn. rewrite Hn, Hat'. reflexivity.
  - pose proof (@prev_loop_nth children x k children [] eq_refl Hnd Hk
                  (Nat.le_0_l _)) as Hn.
    cbn [length] in Hn. rewrite Hn.
    destruct k as [|k']; [reflexivity|]. rewrite Hat'. reflexivity.
Qed.

Lemma siblings_are_the_neighbours_witness :
  represents (store_of (Simple ExprStmt Examples.chained_assignment))
    (Simple ExprStmt Examples.chained_assignment)
    (root_of (Simple ExprStmt Examples.chained_assignment)) None
  /\ ref_at (store_of (Simple ExprStmt Examples.chained_assignment))
       (root_of (Simple ExprStmt Examples.chained_assignment)) ([] ++ [4])
     = Some 4
  /\ next_sibling (store_of (Simple ExprStmt Examples.chained_assignment)) 4
     = Ok None
  /\ prev_sibling (store_of (Simple ExprStmt Examples.chained_assignment)) 4
     = Ok (Some 3).
Proof.
  split; [apply build_represents|]. split; [reflexivity|].
  apply (@siblings_are_the_neighbours
           (store_of (Simple ExprStmt Examples.chained_assignment))
           (Simple ExprStmt Examples.chained_assignment)
           (root_of (Simple ExprStmt Examples.chained_assignment)) None
           [] 4 4).
  - apply build_represents.
  - reflexivity.
  - reflexivity.
Defined.

(** X7: between leaves of a tree, [prev_sibling] undoes [next_sibling] and
    [next_sibling] undoes [prev_sibling]. *)
Theorem prev_sibling_undoes_next_sibling h t r parent path k x y :
  represents h t r parent ->
  ref_at h r (path ++ [k]) = Some x ->
  is_leaf (h x) = true ->
  is_leaf (h y) = true ->
  (next_sibling h x = Ok (Some y) -> prev_sibling h y = Ok (Some x))
  /\ (prev_sibling h x = Ok (Some y) -> next_sibling h y = Ok (Some x)).
Proof.
  intros Hrep Hat Hx Hy.
  destruct (siblings_at path k Hrep Hat Hx)
    as (children & Hnext & Hprev & Hnd & Hk & Hat').
  pose proof (@next_loop_nth children x k children [] eq_refl Hnd Hk
                (Nat.le_0_l _)) as Hn.
  pose proof (@prev_loop_nth children x k children [] eq_refl Hnd Hk
                (Nat.le_0_l _)) as Hp.
  cbn [length] in Hn, Hp. rewrite Hnext, Hn, Hprev, Hp.
  split; intros Hcall; apply Ok_inj in Hcall.
  - rewrite <- Hat' in Hcall.
    destruct (siblings_at path (S k) Hrep Hcall Hy)
      as (children' & _ & Hprev' & Hnd' & Hk' & Hat'').
    pose proof (@prev_loop_nth children' y (S k) children' [] eq_refl
                  Hnd' Hk' (Nat.le_0_l _)) as Hp'.
    cbn [length] in Hp'. rewrite Hprev', Hp', <- Hat'', Hat. reflexivity.
  - destruct k as [|k']; [discriminate|].
    rewrite <- Hat' in Hcall.
    destruct (siblings_at path k' Hrep Hcall Hy)
      as (children' & Hnext' & _ & Hnd' & Hk' & Hat'').
    pose proof (@next_loop_nth children' y k' children' [] eq_refl
                  Hnd' Hk' (Nat.le_0_l _)) as Hn'.
    cbn [length] in Hn'. rewrite Hnext', Hn', <- Hat'', Hat. reflexivity.
Qed.

Lemma prev_sibling_undoes_next_sibling_witness :
  next_sibling (store_of (Simple ExprStmt Examples.chained_assignment)) 1
  = Ok (Some 2)
  /\ prev_sibling (store_of (Simple ExprStmt Examples.chained_assignment)) 2
     = Ok (Some 1).
Proof.
  split; [reflexivity|].
  apply (@prev_sibling_undoes_next_sibling
           (store_of (Simple ExprStmt Examples.chained_assignment))
           (Simple ExprStmt Examples.chained_assignment)
           (root_of (Simple ExprStmt Examples.chained_assignment)) None
           [] 1 1 2).
  - apply build_represents.
  - reflexivity.
  - reflexivity.
  - reflexivity.
  - reflexivity.
Defined.

End SiblingFacts.

(** ** The walks up the parents *)

Module BaseFacts.
Import Store.
Import StoreSpec.
Import ScopeSpec.
Import Base.
Import BaseSpec.
Import StoreFacts.
Import PathFacts.

Lemma class_of_represents h t r parent :
  represents h t r parent -> class_of (h r) = tree_class t.
Proof.
  intros Hrep.
  inversion Hrep as [? ? ? ? ? ? Hr|? ? ? ? ? Hr _ _]; subst;
    rewrite Hr; reflexivity.
Qed.

Lemma until_loop_unfold fuel h classes reverse scope :
  until_loop (S fuel) h classes reverse scope
  = match parent_of (h scope) with
    | None => Some scope
    | Some p =>
        if stops classes reverse (class_of (h scope)) then Some scope
        else until_loop fuel h classes reverse p
    end.
Proof. reflexivity. Qed.

(** The walk from the object at [path] ends at the nearest node that
    stops it, and goes on from the root of the tree when there is none. *)
Lemma until_loop_represents h classes reverse :
  forall path t r parent x fuel,
  represents h t r parent ->
  ref_at h r path = Some x ->
  until_loop (length path + fuel) h classes reverse x
  = match nearest (stops classes reverse) t path with
    | Some p => ref_at h r p
    | None => until_loop fuel h classes reverse r
    end.
Proof.
  induction path as [|k path IH]; intros t r parent x fuel Hrep Hat.
  - simpl in Hat. injection Hat as <-. reflexivity.
  - simpl in Hat.
    inversion Hrep as [? ? ? ? ? ? Hr|cls cs refs ? ? Hr Hnd Hall]; subst;
      rewrite Hr in Hat; [discriminate|].
    destruct (nth_error refs k) as [c|] eqn:Hk; [|discriminate].
    destruct (Forall2_nth_error Hall k Hk) as [tc [Htc Hc]].
    replace (length (k :: path) + fuel) with (length path + S fuel)
      by (simpl; lia).
    rewrite (IH tc c (Some r) x (S fuel) Hc Hat).
    simpl nearest. rewrite Htc.
    destruct (nearest (stops classes reverse) tc path) as [p|].
    + simpl. rewrite Hr, Hk. reflexivity.
    + rewrite until_loop_unfold, (parent_of_represents Hc),
        (class_of_represents Hc).
      destruct (stops classes reverse (tree_class tc)); [|reflexivity].
      simpl. rewrite Hr, Hk. reflexivity.
Qed.

(** In a tree whose root has no parent the walk ends inside the tree. *)
Lemma until_loop_in_tree h classes reverse path t r x fuel :
  represents h t r None ->
  ref_at h r path = Some x ->
  length path < fuel ->
  exists s,
    until_loop fuel h classes reverse x = Some s
    /\ ref_at h r (end_of_walk (stops classes reverse) t path) = Some s.
Proof.
  intros Hrep Hat Hfuel.
  replace fuel with (length path + S (fuel - length path - 1)) by lia.
  rewrite (until_loop_represents classes reverse path _ Hrep Hat).
  unfold end_of_walk.
  destruct (nearest (stops classes reverse) t path) as [p|] eqn:Hnear.
  - assert (Hsome : exists s, ref_at h r p = Some s).
    { clear Hfuel. revert t r x p Hrep Hat Hnear.
      generalize (@None ref).
      induction path as [|k path IH]; intros parent t r x p Hrep Hat Hnear;
        [discriminate|].
      simpl in Hat, Hnear.
      inversion Hrep as [? ? ? ? ? ? Hr|cls cs refs ? ? Hr Hnd Hall]; subst;
        rewrite Hr in Hat; [discriminate|].
      destruct (nth_error refs k) as [c|] eqn:Hk; [|discriminate].
      destruct (Forall2_nth_error Hall k Hk) as [tc [Htc Hc]].
      rewrite Htc in Hnear.
      destruct (nearest (stops classes reverse) tc path) as [p'|] eqn:Hn'.
      - injection Hnear as <-.
        destruct (IH (Some r) tc c x p' Hc Hat Hn') as [s Hs].
        exists s. simpl. rewrite Hr, Hk. exact Hs.
      - destruct (stops classes reverse (tree_class tc)); [|discriminate].
        injection Hnear as <-. exists c. simpl. rewrite Hr, Hk.
        reflexivity. }
    destruct Hsome as [s Hs]. exists s. split; exact Hs.
  - exists r. rewrite until_loop_unfold, (parent_of_represents Hrep).
    split; reflexivity.
Qed.

Lemma stops_no_class reverse c : stops [] reverse c = false.
Proof. reflexivity. Qed.

Lemma nearest_never stop :
  (forall c, stop c = false) ->
  forall path t, nearest stop t path = None.
Proof.
  intros Hstop. induction path as [|k path IH]; intros t; [reflexivity|].
  simpl. destruct t as [|cls cs]; [reflexivity|].
  destruct (nth_error cs k) as [c|]; [|reflexivity].
  rewrite IH, Hstop. reflexivity.
Qed.

(** X8: with no classes given, [get_parent_until] returns the root of the
    tree from every node of it, whatever [reverse] is; so [_sub_module],
    which a [Simple] has, is the root of the tree of every node that is
    not a leaf. *)
Theorem get_parent_until_without_classes_is_the_root
  h t r path x reverse fuel :
  represents h t r None ->
  ref_at h r path = Some x ->
  length path < fuel ->
  get_parent_until fuel h x [] reverse true = Some (Ok r)
  /\ (SiblingSpec.is_leaf (h x) = false ->
      _sub_module fuel h x = Some (Ok r)).
Proof.
  intros Hrep Hat Hfuel.
  destruct (@until_loop_in_tree h [] reverse path t r x fuel Hrep Hat Hfuel)
    as [s [Hrun Hs]].
  destruct (@until_loop_in_tree h [] false path t r x fuel Hrep Hat Hfuel)
    as [s' [Hrun' Hs']].
  unfold _sub_module, get_parent_until. rewrite Hrun, Hrun'.
  unfold end_of_walk in Hs, Hs'.
  rewrite (@nearest_never _ (stops_no_class reverse)) in Hs.
  rewrite (@nearest_never _ (stops_no_class false)) in Hs'.
  injection Hs as <-. injection Hs' as <-.
  split; [reflexivity|].
  destruct (h x); [discriminate|reflexivity].
Qed.

Lemma get_parent_until_without_classes_is_the_root_witness :
  get_parent_until 5
    (store_of (Simple ExprStmt Examples.tuple_assignment)) 3 [] false true
  = Some (Ok (root_of (Simple ExprStmt Examples.tuple_assignment)))
  /\ _sub_module 5 (store_of (Simple ExprStmt Examples.tuple_assignment)) 6
     = Some (Ok (root_of (Simple ExprStmt Examples.tuple_assignment))).
Proof.
  split.
  - apply (@get_parent_until_without_classes_is_the_root
             (store_of (Simple ExprStmt Examples.tuple_assignment))
             (Simple ExprStmt Examples.tuple_assignment)
             (root_of (Simple ExprStmt Examples.tuple_assignment))
             [0; 2; 1; 0] 3 false 5).
    + apply build_represents.
    + reflexivity.
    + simpl. lia.
  - apply (@get_parent_until_without_classes_is_the_root
             (store_of (Simple ExprStmt Examples.tuple_assignment))
             (Simple ExprStmt Examples.tuple_assignment)
             (root_of (Simple ExprStmt Examples.tuple_assignment))
             [0; 2; 1] 6 false 5).
    + apply build_represents.
    + reflexivity.
    + simpl. lia.
    + reflexivity.
Defined.

Lemma scope_loop_until_loop h : forall fuel scope,
  scope_loop fuel h scope = until_loop fuel h [PyIsScope] false scope.
Proof.
  induction fuel as [|fuel IH]; intros scope; [reflexivity|].
  simpl. destruct (parent_of (h scope)) as [p|]; [|reflexivity].
  rewrite IH. rewrite Bool.orb_false_r. reflexivity.
Qed.

(** X9: [get_parent_scope()] is [get_parent_until(IsScope,
    include_current=False)]: the same result, the same exception, and the
    same number of rounds. *)
Theorem get_parent_scope_is_get_parent_until_IsScope fuel h self :
  get_parent_scope fuel h self
  = get_parent_until fuel h self [PyIsScope] false false.
Proof.
  unfold get_parent_scope, get_parent_until.
  destruct (parent_of (h self)) as [p|]; [|reflexivity].
  rewrite scope_loop_until_loop. reflexivity.
Qed.

Lemma is_scope_tree_class t :
  Base.is_scope (tree_class t) = ScopeSpec.is_scope t.
Proof.
  destruct t as [[] v sp p|[] cs]; reflexivity.
Qed.

Lemma stops_IsScope c : stops [PyIsScope] false c = Base.is_scope c.
Proof. unfold stops. simpl. apply Bool.orb_false_r. Qed.

Lemma nearest_ext stop1 stop2 :
  (forall c, stop1 c = stop2 c) ->
  forall path t, nearest stop1 t path = nearest stop2 t path.
Proof.
  intros Hext. induction path as [|k path IH]; intros t; [reflexivity|].
  simpl. destruct t as [|cls cs]; [reflexivity|].
  destruct (nth_error cs k) as [c|]; [|reflexivity].
  rewrite IH, Hext. reflexivity.
Qed.

(** The nearest scope on a path is the first of the enclosing scopes. *)
Lemma nearest_scope_encloses : forall path t,
  match nearest Base.is_scope t path with
  | Some p =>
      exists scope more rest,
        subtree t p = Some scope
        /\ enclosing_scopes t path = scope :: more
        /\ path = p ++ rest
  | None =>
      enclosing_scopes t path = if ScopeSpec.is_scope t then [t] else []
  end.
Proof.
  induction path as [|k path IH]; intros t; [reflexivity|].
  simpl. destruct t as [|cls cs]; [reflexivity|].
  destruct (nth_error cs k) as [c|] eqn:Hk; [|reflexivity].
  specialize (IH c).
  destruct (nearest Base.is_scope c path) as [p|].
  - destruct IH as (scope & more & rest & Hsub & Henc & Hpath).
    exists scope, (more ++ if ScopeSpec.is_scope (Simple cls cs)
                           then [Simple cls cs] else []), rest.
    split; [|split].
    + simpl. rewrite Hk. exact Hsub.
    + rewrite Henc. reflexivity.
    + rewrite Hpath. reflexivity.
  - rewrite is_scope_tree_class, IH.
    destruct (ScopeSpec.is_scope c); [|reflexivity].
    exists c, (if ScopeSpec.is_scope (Simple cls cs)
               then [Simple cls cs] else []), path.
    split; [|split]; [|reflexivity|reflexivity].
    simpl. rewrite Hk. reflexivity.
Qed.

(** X10: in a tree whose root has no parent, [get_parent_scope] of a node
    other than the root returns the innermost scope that encloses the
    node's parent, the parent included; when no scope does, it returns the
    root. *)
Theorem get_parent_scope_is_the_innermost_scope h t r path k x fuel :
  represents h t r None ->
  ref_at h r (path ++ [k]) = Some x ->
  length path < fuel ->
  exists s p rest,
    get_parent_scope fuel h x = Some (Ok s)
    /\ path = p ++ rest
    /\ ref_at h r p = Some s
    /\ match enclosing_scopes t path with
       | scope :: _ => subtree t p = Some scope
       | [] => p = []
       end.
Proof.
  intros Hrep Hat Hfuel.
  destruct (child_at path k Hrep Hat)
    as (y & cls & children & pp & Hy & _ & _ & _ & Hpar).
  destruct (@until_loop_in_tree h [PyIsScope] false path t r y fuel
              Hrep Hy Hfuel) as [s [Hrun Hs]].
  unfold get_parent_scope. rewrite Hpar, scope_loop_until_loop, Hrun.
  unfold end_of_walk in Hs.
  rewrite (@nearest_ext _ _ stops_IsScope) in Hs.
  pose proof (nearest_scope_encloses path t) as Henc.
  destruct (nearest Base.is_scope t path) as [p|].
  - destruct Henc as (scope & more & rest & Hsub & Henc & Hpath).
    exists s, p, rest. rewrite Henc.
    repeat (split; [assumption || reflexivity|]). exact Hsub.
  - exists s, [], path. split; [reflexivity|]. split; [reflexivity|].
    split; [exact Hs|].
    rewrite Henc. destruct (ScopeSpec.is_scope t); reflexivity.
Qed.

Lemma get_parent_scope_is_the_innermost_scope_witness :
  exists s p rest,
    get_parent_scope 7 (store_of Examples.module_of_C) 12 = Some (Ok s)
    /\ [0; 3; 1; 4; 1; 0] = p ++ rest
    /\ ref_at (store_of Examples.module_of_C)
         (root_of Examples.module_of_C) p = Some s
    /\ match enclosing_scopes Examples.module_of_C [0; 3; 1; 4; 1; 0] with
       | scope :: _ => subtree Examples.module_of_C p = Some scope
       | [] => p = []
       end.
Proof.
  apply (@get_parent_scope_is_the_innermost_scope
           (store_of Examples.module_of_C) Examples.module_of_C
           (root_of Examples.module_of_C) [0; 3; 1; 4; 1; 0] 0 12 7).
  - apply build_represents.
  - reflexivity.
  - simpl. lia.
Defined.

(** X11: in a tree whose root has no parent, [get_definition] of a node
    other than the root returns its nearest ancestor that is neither an
    [ArrayStmt] nor a [Node], and the root when every ancestor is one. *)
Theorem get_definition_is_the_nearest_statement h t r path k x fuel :
  represents h t r None ->
  ref_at h r (path ++ [k]) = Some x ->
  length path < fuel ->
  exists s,
    get_definition fuel h x = Some (Ok s)
    /\ ref_at h r
         (end_of_walk (fun c => negb (is_expression_part c)) t path)
       = Some s.
Proof.
  intros Hrep Hat Hfuel.
  destruct (child_at path k Hrep Hat)
    as (y & cls & children & pp & Hy & _ & _ & _ & Hpar).
  destruct (@until_loop_in_tree h [PyArrayStmt; PyStatementElement; PyNode]
              true path t r y fuel Hrep Hy Hfuel) as [s [Hrun Hs]].
  exists s. unfold get_definition, get_parent_until.
  rewrite Hpar, Hrun. split; [reflexivity|].
  unfold end_of_walk in *.
  rewrite (@nearest_ext (fun c => negb (is_expression_part c))
             (stops [PyArrayStmt; PyStatementElement; PyNode] true));
    [exact Hs|].
  intros c. reflexivity.
Qed.

Lemma get_definition_is_the_nearest_statement_witness :
  get_definition 4 (store_of (Simple ExprStmt Examples.tuple_assignment)) 3
  = Some (Ok (root_of (Simple ExprStmt Examples.tuple_assignment))).
Proof.
  destruct (@get_definition_is_the_nearest_statement
              (store_of (Simple ExprStmt Examples.tuple_assignment))
              (Simple ExprStmt Examples.tuple_assignment)
              (root_of (Simple ExprStmt Examples.tuple_assignment))
              [0; 2; 1] 0 3 4) as [s [Hrun Hs]].
  - apply build_represents.
  - reflexivity.
  - simpl. lia.
  - vm_compute in Hs. injection Hs as <-. exact Hrun.
Defined.

End BaseFacts.

(** ** The parameters of a function *)

Module ParamFacts.
Import Function_.
Import FunctionSpec.
Import FunctionFacts.

Lemma written_param_nonempty p toks :
  written_param p toks -> exists n it, toks = n :: it.
Proof.
  intros [tfpdef default stars ss ds n Hss _ _ _].
  destruct Hss; simpl; eauto.
Qed.

(** One round of the loop reads one written parameter and the separator
    behind it. *)
Lemma params_round_written p n it tail :
  written_param p (n :: it) ->
  match tail with
  | [] => True
  | sep :: _ => eq_str sep "=" = false
  end ->
  params_round n (it ++ tail) = Ok (p, tl tail).
Proof.
  intros Hp Htail.
  inversion Hp as [tfpdef default stars ss ds nm Hss Hds Hstar Hname Hp0 Htoks].
  subst p. unfold params_round.
  assert (Hinit : Param.init tfpdef default stars
                  = Ok (Param.Build tfpdef default stars)).
  { unfold Param.init. rewrite Hname. reflexivity. }
  destruct Hss as [|sp prefix|sp prefix]; simpl in Htoks.
  - injection Htoks as -> <-. rewrite (Hstar eq_refl). simpl.
    destruct Hds as [|sp' prefix' d]; simpl.
    + destruct tail as [|sep tail]; simpl.
      * rewrite Hinit. reflexivity.
      * rewrite Htail. simpl. rewrite Hinit. reflexivity.
    + rewrite Hinit. reflexivity.
  - injection Htoks as <- <-. simpl.
    destruct Hds as [|sp' prefix' d]; simpl.
    + destruct tail as [|sep tail]; simpl.
      * rewrite Hinit. reflexivity.
      * rewrite Htail. simpl. rewrite Hinit. reflexivity.
    + rewrite Hinit. reflexivity.
  - injection Htoks as <- <-. simpl.
    destruct Hds as [|sp' prefix' d]; simpl.
    + destruct tail as [|sep tail]; simpl.
      * rewrite Hinit. reflexivity.
      * rewrite Htail. simpl. rewrite Hinit. reflexivity.
    + rewrite Hinit. reflexivity.
Qed.

Lemma params_loop_written : forall ps toks,
  written_params ps toks ->
  forall fuel, length toks <= fuel -> params_loop fuel toks = Ok ps.
Proof.
  induction 1 as [|p toks Hp|p toks sep ps rest Hp Hsep _ IH];
    intros fuel Hfuel.
  - destruct fuel; reflexivity.
  - destruct (written_param_nonempty Hp) as [n [it ->]].
    destruct fuel as [|fuel]; [simpl in Hfuel; lia|].
    simpl. rewrite <- (app_nil_r it).
    rewrite (@params_round_written p n it [] Hp I).
    simpl. destruct fuel; reflexivity.
  - destruct (written_param_nonempty Hp) as [n [it ->]].
    destruct fuel as [|fuel]; [simpl in Hfuel; lia|].
    simpl.
    rewrite (@params_round_written p n it (sep :: rest) Hp Hsep).
    simpl. rewrite IH; [reflexivity|].
    simpl in Hfuel. rewrite length_app in Hfuel. simpl in Hfuel. lia.
Qed.

(** X12: [_params] reads a parameter list back.  Empty parentheses give no
    parameter; a single child that is not a [typedargslist] is the one
    parameter, without stars or default; and the children of a
    [typedargslist] that write a list of parameters, each with its stars
    and its default, give exactly that list. *)
Theorem params_are_read_back def name lparen rparen rest :
  _params (def :: name :: Simple (Node "parameters") [lparen; rparen] :: rest)
  = Ok []
  /\ (forall n nm,
         is_node n ["typedargslist"] = false ->
         Param.get_name (Param.Build n None 0) = Ok nm ->
         _params (def :: name
                  :: Simple (Node "parameters") [lparen; n; rparen] :: rest)
         = Ok [Param.Build n None 0])
  /\ (forall ps toks,
         written_params ps toks ->
         _params (def :: name
                  :: Simple (Node "parameters")
                       [lparen; Simple (Node "typedargslist") toks; rparen]
                  :: rest)
         = Ok ps).
Proof.
  split; [reflexivity|split].
  - intros n nm Hn Hname. unfold _params, slice_1_m1, Param.init.
    cbn -[is_node Param.get_name]. rewrite Hn, Hname. reflexivity.
  - intros ps toks Hps. unfold _params. simpl.
    apply (params_loop_written Hps). lia.
Qed.

Lemma params_are_read_back_witness :
  _params def_four_params
  = Ok [ Param.Build (Examples.name_ "a" 1 6 "") None 0;
         Param.Build (Examples.name_ "b" 1 9 " ")
           (Some (Examples.lit_ "1" 1 11 "")) 0;
         Param.Build (Examples.name_ "args" 1 15 "") None 1;
         Param.Build (Examples.name_ "kwargs" 1 23 "") None 2 ].
Proof.
  apply (proj2 (proj2 (@params_are_read_back
                         (Examples.kw_ "def" 1 0 "")
                         (Examples.name_ "f" 1 4 " ")
                         (Examples.op_ "(" 1 5 "")
                         (Examples.op_ ")" 1 29 "")
                         [Examples.op_ ":" 1 30 ""]))).
  apply (@written_more _ [Examples.name_ "a" 1 6 ""]);
    [|reflexivity|].
  { apply (@written_param_intro _ None 0 [] [] (Examples.name_ "a" 1 6 ""));
      [constructor|constructor|reflexivity|reflexivity]. }
  apply (@written_more _
           [Examples.name_ "b" 1 9 " "; Examples.op_ "=" 1 10 "";
            Examples.lit_ "1" 1 11 ""]);
    [|reflexivity|].
  { apply (@written_param_intro _ (Some (Examples.lit_ "1" 1 11 "")) 0 []
             [Examples.op_ "=" 1 10 ""; Examples.lit_ "1" 1 11 ""]
             (Examples.name_ "b" 1 9 " "));
      [constructor|constructor|reflexivity|reflexivity]. }
  apply (@written_more _
           [Examples.op_ "*" 1 14 " "; Examples.name_ "args" 1 15 ""]);
    [|reflexivity|].
  { apply (@written_param_intro _ None 1 [Examples.op_ "*" 1 14 " "] []
             (Examples.name_ "args" 1 15 ""));
      [constructor|constructor|discriminate|reflexivity]. }
  apply written_last.
  apply (@written_param_intro _ None 2 [Examples.op_ "**" 1 21 " "] []
           (Examples.name_ "kwargs" 1 23 ""));
    [constructor|constructor|discriminate|reflexivity].
Defined.

(** The loop reads the parameters that are followed by a separator one by
    one and goes on with what is behind them. *)
Lemma params_loop_separated : forall items tail fuel,
  well_separated items ->
  length (separated items ++ tail) <= fuel ->
  params_loop fuel (separated items ++ tail)
  = (more <- params_loop (length tail) tail ;;
     Ok (map (fun i => fst (fst i)) items ++ more)).
Proof.
  induction items as [|[[p toks] sep] items IH]; intros tail fuel Hall Hfuel.
  - simpl in *. rewrite (@params_loop_fuel fuel (length tail) tail Hfuel)
      by lia.
    destruct (params_loop (length tail) tail); reflexivity.
  - inversion Hall as [|? ? [Hp Hsep] Hrest]; subst. simpl in Hp, Hsep.
    destruct (written_param_nonempty Hp) as [n [it ->]].
    assert (Heq : separated ((p, n :: it, sep) :: items) ++ tail
                  = n :: (it ++ sep :: (separated items ++ tail))).
    { unfold separated. simpl. rewrite <- !app_assoc. reflexivity. }
    rewrite Heq in *. clear Heq.
    destruct fuel as [|fuel]; [simpl in Hfuel; lia|].
    cbn [params_loop].
    rewrite (@params_round_written p n it (sep :: separated items ++ tail)
               Hp Hsep).
    cbn [Py.bind fst snd tl].
    rewrite IH; [|exact Hrest|].
    + destruct (params_loop (length tail) tail); reflexivity.
    + simpl in Hfuel. rewrite length_app in Hfuel. simpl in Hfuel. lia.
Qed.

(** X13: a parameter list that breaks off raises [StopIteration]: when,
    behind any number of parameters with their separators, the list ends
    with a star, or with a name and [=], [next(iterator)] finds nothing
    and its exception leaves [_params]. *)
Theorem params_of_a_list_that_breaks_off
  def name lparen rparen rest items star n eq :
  well_separated items ->
  Function_.is_star star = true ->
  Function_.is_star n = false ->
  eq_str eq "=" = true ->
  _params (def :: name
           :: Simple (Node "parameters")
                [lparen;
                 Simple (Node "typedargslist") (separated items ++ [star]);
                 rparen]
           :: rest)
  = Raise StopIteration
  /\ _params (def :: name
              :: Simple (Node "parameters")
                   [lparen;
                    Simple (Node "typedargslist")
                      (separated items ++ [n; eq]);
                    rparen]
              :: rest)
     = Raise StopIteration.
Proof.
  intros Hitems Hstar Hn Heq.
  assert (Hv : exists v, value_of star = Ok v).
  { destruct star as [cls v sp p|cls cs]; [|discriminate].
    exists v. reflexivity. }
  destruct Hv as [v Hv]. unfold _params. simpl. split.
  - rewrite (@params_loop_separated items [star] _ Hitems) by lia.
    cbn [length params_loop]. unfold params_round.
    rewrite Hstar, Hv. reflexivity.
  - rewrite (@params_loop_separated items [n; eq] _ Hitems) by lia.
    cbn [length params_loop]. unfold params_round.
    rewrite Hn. simpl. rewrite Heq. reflexivity.
Qed.

Lemma params_of_a_list_that_breaks_off_witness :
  _params [ Examples.kw_ "def" 1 0 ""; Examples.name_ "f" 1 4 " ";
            Simple (Node "parameters")
              [ Examples.op_ "(" 1 5 "";
                Simple (Node "typedargslist")
                  [ Examples.name_ "a" 1 6 ""; Examples.op_ "," 1 7 "";
                    Examples.op_ "*" 1 9 " " ];
                Examples.op_ ")" 1 10 "" ] ]
  = Raise StopIteration.
Proof.
  apply (@params_of_a_list_that_breaks_off
           (Examples.kw_ "def" 1 0 "") (Examples.name_ "f" 1 4 " ")
           (Examples.op_ "(" 1 5 "") (Examples.op_ ")" 1 10 "") []
           [ (Param.Build (Examples.name_ "a" 1 6 "") None 0,
              [Examples.name_ "a" 1 6 ""],
              Examples.op_ "," 1 7 "") ]
           (Examples.op_ "*" 1 9 " ")
           (Examples.name_ "b" 1 9 " ")
           (Examples.op_ "=" 1 10 "")).
  - constructor; [|constructor]. split; [|reflexivity].
    apply (@written_param_intro _ None 0 [] [] (Examples.name_ "a" 1 6 ""));
      [constructor|constructor|reflexivity|reflexivity].
  - reflexivity.
  - reflexivity.
  - reflexivity.
Defined.

(** Every parameter the loop makes has a name: [Param.__init__] has read
    it. *)
Lemma params_loop_named : forall fuel it ps,
  params_loop fuel it = Ok ps ->
  exists names, mapM Param.get_name ps = Ok names.
Proof.
  induction fuel as [|fuel IH]; intros it ps Hloop.
  - injection Hloop as <-. exists []. reflexivity.
  - destruct it as [|n it]; simpl in Hloop.
    { injection Hloop as <-. exists []. reflexivity. }
    destruct (params_round n it) as [[p it']|e] eqn:Hround; [|discriminate].
    simpl in Hloop.
    destruct (params_loop fuel it') as [more|e] eqn:Hmore; [|discriminate].
    injection Hloop as <-.
    destruct (IH it' more Hmore) as [names Hnames].
    assert (Hp : exists nm, Param.get_name p = Ok nm).
    { unfold params_round in Hround.
      destruct (if is_star n then _ else _) as [[[stars n'] it0]|];
        [|discriminate].
      simpl in Hround.
      destruct (if match hd_error it0 with
                   | Some o => eq_str o "="
                   | None => false
                   end then _ else _) as [[default it1]|]; [|discriminate].
      simpl in Hround. unfold Param.init in Hround.
      destruct (Param.get_name (Param.Build n' default stars)) as [nm|] eqn:Hn;
        [|discriminate].
      injection Hround as <- _. exists nm. exact Hn. }
    destruct Hp as [nm Hnm]. exists (nm :: names).
    simpl. rewrite Hnm, Hnames. reflexivity.
Qed.

Lemma mapM_param_name ps names :
  mapM Param.get_name ps = Ok names ->
  mapM param_name ps = Ok (map (fun n => [n]) names).
Proof.
  revert names. induction ps as [|p ps IH]; intros names Hnames.
  - injection Hnames as <-. reflexivity.
  - simpl in Hnames.
    destruct (Param.get_name p) as [n|] eqn:Hn; [|discriminate].
    simpl in Hnames.
    destruct (mapM Param.get_name ps) as [ns|]; [|discriminate].
    injection Hnames as <-.
    cbn [mapM]. unfold param_name at 1. rewrite Hn. cbn [Py.bind].
    rewrite (IH ns eq_refl). reflexivity.
Qed.

Lemma concat_singletons {A : Type} (l : list A) :
  List.concat (map (fun x => [x]) l) = l.
Proof. induction l as [|x l IH]; simpl; [|rewrite IH]; reflexivity. Qed.

Lemma mapM_length {A B : Type} (f : A -> result B) : forall l l',
  mapM f l = Ok l' -> length l' = length l.
Proof.
  induction l as [|x l IH]; intros l' Hl.
  - injection Hl as <-. reflexivity.
  - simpl in Hl. destruct (f x); [|discriminate]. simpl in Hl.
    destruct (mapM f l) as [ys|]; [|discriminate].
    injection Hl as <-. simpl. rewrite (IH ys eq_refl). reflexivity.
Qed.

(** X14: the names a function defines are the names of its scope followed
    by the names of its parameters, one for every parameter, in their
    order: no parameter that [_params] has made is left out. *)
Theorem function_defines_scope_names_then_parameters
  children params scope_names :
  _params children = Ok params ->
  Scope.get_defined_names children = Ok scope_names ->
  exists param_names,
    mapM Param.get_name params = Ok param_names
    /\ length param_names = length params
    /\ Function_.get_defined_names children
       = Ok (scope_names ++ param_names).
Proof.
  intros Hparams Hscope.
  assert (Hnamed : exists names, mapM Param.get_name params = Ok names).
  { unfold _params in Hparams.
    destruct (index children 2) as [c2|]; [|discriminate].
    simpl in Hparams.
    destruct (children_of c2) as [cs|]; [|discriminate].
    simpl in Hparams.
    destruct (slice_1_m1 cs) as [|n0 rest].
    - injection Hparams as <-. exists []. reflexivity.
    - destruct (is_node n0 ["typedargslist"]).
      + destruct (children_of n0) as [args|]; [|discriminate].
        exact (params_loop_named _ _ Hparams).
      + unfold Param.init in Hparams.
        destruct (Param.get_name (Param.Build n0 None 0)) as [nm|] eqn:Hn;
          [|discriminate].
        injection Hparams as <-. exists [nm]. simpl. rewrite Hn.
        reflexivity. }
  destruct Hnamed as [names Hnames]. exists names.
  split; [exact Hnames|]. split; [exact (mapM_length _ _ Hnames)|].
  unfold Function_.get_defined_names.
  rewrite Hparams, Hscope. simpl.
  rewrite (mapM_param_name _ Hnames). simpl.
  rewrite concat_singletons. reflexivity.
Qed.

Lemma function_defines_scope_names_then_parameters_witness :
  Function_.get_defined_names Examples.function_f_children
  = Ok [ Examples.name_ "a" 3 8 "        ";
         Examples.name_ "b" 4 8 "        ";
         Examples.name_ "p" 2 10 "" ].
Proof.
  destruct (@function_defines_scope_names_then_parameters
              Examples.function_f_children
              [Param.Build (Examples.name_ "p" 2 10 "") None 0]
              [ Examples.name_ "a" 3 8 "        ";
                Examples.name_ "b" 4 8 "        " ]
              eq_refl eq_refl) as [names [Hnames [_ Hdef]]].
  vm_compute in Hnames. injection Hnames as <-. exact Hdef.
Defined.

End ParamFacts.

(** ** The contents of a scope *)

Module ScopeContentsFacts.
Import ScopeContents.
Import ScopeContentsSpec.
Import StoreSpec.
Import StoreFacts.

Lemma scan_element_unfold typ element :
  scan_element typ element
  = if typ element then [element]
    else if is_block element then
      match element with
      | Simple _ children => scan typ children
      | Leaf _ _ _ _ => []
      end
    else [].
Proof.
  destruct element as [cls v sp p|cls cs]; [reflexivity|].
  unfold is_block, scan. cbn [scan_element].
  destruct (typ (Simple cls cs)); [reflexivity|].
  destruct (is_node (Simple cls cs) ["suite"]
            || is_node (Simple cls cs) ["simple_stmt"]); [|reflexivity].
  induction cs as [|c cs IH]; [reflexivity|].
  cbn [flat_map]. rewrite <- IH. reflexivity.
Qed.

Lemma in_scan typ children x :
  In x (scan typ children)
  <-> exists k e, nth_error children k = Some e
                  /\ In x (scan_element typ e).
Proof.
  unfold scan. rewrite in_flat_map. split.
  - intros [e [Hin Hx]]. apply In_nth_error in Hin.
    destruct Hin as [k Hk]. exists k, e. split; assumption.
  - intros [k [e [Hk Hx]]]. exists e. split; [|exact Hx].
    exact (nth_error_In _ _ Hk).
Qed.

Lemma found_at_cons typ children k rest :
  found_at typ children (k :: rest)
  = match nth_error children k with
    | None => None
    | Some e =>
        match rest with
        | [] => if typ e then Some e else None
        | _ :: _ =>
            if typ e then None
            else if is_block e then
              match e with
              | Simple _ cs => found_at typ cs rest
              | Leaf _ _ _ _ => None
              end
            else None
        end
    end.
Proof. reflexivity. Qed.

Lemma found_at_nonempty typ children path x :
  found_at typ children path = Some x -> path <> [].
Proof. destruct path; [discriminate|]. intros _. discriminate. Qed.

Lemma scan_element_found typ element x :
  In x (scan_element typ element)
  <-> (typ element = true /\ x = element)
      \/ (typ element = false
          /\ is_block element = true
          /\ exists cls cs path,
               element = Simple cls cs /\ found_at typ cs path = Some x).
Proof.
  revert x.
  induction element as [lc v sp p|cls cs IH] using tree_ind'; intros x.
  - rewrite scan_element_unfold.
    destruct (typ (Leaf lc v sp p)) eqn:Htyp.
    + split.
      * intros [<-|[]]. left. split; reflexivity.
      * intros [[_ ->]|[Hf _]]; [left; reflexivity|discriminate].
    + change (is_block (Leaf lc v sp p)) with false. simpl. split; [intros []|].
      intros [[Ht _]|(_ & Hb & _)]; discriminate.
  - rewrite scan_element_unfold.
    destruct (typ (Simple cls cs)) eqn:Htyp.
    { split.
      - intros [<-|[]]. left. split; reflexivity.
      - intros [[_ ->]|[Hf _]]; [left; reflexivity|discriminate]. }
    destruct (is_block (Simple cls cs)) eqn:Hblock.
    2:{ split; [intros []|].
        intros [[Ht _]|(_ & Hb & _)]; discriminate. }
    rewrite in_scan. rewrite Forall_forall in IH. split.
    + intros (k & e & Hk & Hx). right.
      split; [reflexivity|]. split; [reflexivity|].
      exists cls, cs.
      apply (IH e (nth_error_In _ _ Hk)) in Hx.
      destruct Hx as [[Ht ->]|(Hf & Hb & cls' & cs' & path & -> & Hfound)].
      * exists [k]. split; [reflexivity|].
        rewrite found_at_cons, Hk, Ht. reflexivity.
      * exists (k :: path). split; [reflexivity|].
        rewrite found_at_cons, Hk, Hf, Hb.
        destruct path; [discriminate|]. exact Hfound.
    + intros [[Ht _]|(_ & _ & cls' & cs' & path & Heq & Hfound)];
        [discriminate|].
      injection Heq as <- <-.
      destruct path as [|k rest]; [discriminate|].
      rewrite found_at_cons in Hfound.
      destruct (nth_error cs k) as [e|] eqn:Hk; [|discriminate].
      exists k, e. split; [exact Hk|].
      apply (IH e (nth_error_In _ _ Hk)).
      destruct rest as [|k' rest].
      * destruct (typ e) eqn:Ht; [|discriminate].
        injection Hfound as <-. left. split; reflexivity.
      * destruct (typ e) eqn:Ht; [discriminate|].
        destruct (is_block e) eqn:Hb; [|discriminate].
        destruct e as [|cls' cs']; [discriminate|].
        right. split; [reflexivity|]. split; [reflexivity|].
        exists cls', cs', (k' :: rest). split; [reflexivity|exact Hfound].
Qed.

(** X15: [_search_in_scope(typ)] lists exactly the elements of the type
    that are reached from the children of the scope through suites and
    simple statements that are not of the type themselves: it looks
    neither into an element it has found nor into any other kind of
    node. *)
Theorem search_in_scope_looks_through_blocks_only children x :
  (forall typ,
      In x (_search_in_scope typ children)
      <-> exists path, found_at typ children path = Some x)
  /\ (In x (subscopes children)
      <-> exists path, found_at is_Scope children path = Some x)
  /\ (In x (returns children)
      <-> exists path, found_at is_ReturnStmt children path = Some x).
Proof.
  assert (Hall : forall typ,
             In x (_search_in_scope typ children)
             <-> exists path, found_at typ children path = Some x).
  2:{ split; [exact Hall|]. split; apply Hall. }
  intros typ.
  unfold _search_in_scope. rewrite in_scan. split.
  - intros (k & e & Hk & Hx).
    apply scan_element_found in Hx.
    destruct Hx as [[Ht ->]|(Hf & Hb & cls & cs & path & -> & Hfound)].
    + exists [k]. rewrite found_at_cons, Hk, Ht. reflexivity.
    + exists (k :: path). rewrite found_at_cons, Hk, Hf, Hb.
      destruct path; [discriminate|]. exact Hfound.
  - intros [path Hfound].
    destruct path as [|k rest]; [discriminate|].
    rewrite found_at_cons in Hfound.
    destruct (nth_error children k) as [e|] eqn:Hk; [|discriminate].
    exists k, e. split; [exact Hk|].
    apply scan_element_found.
    destruct rest as [|k' rest].
    + destruct (typ e) eqn:Ht; [|discriminate].
      injection Hfound as <-. left. split; reflexivity.
    + destruct (typ e) eqn:Ht; [discriminate|].
      destruct (is_block e) eqn:Hb; [|discriminate].
      destruct e as [|cls' cs']; [discriminate|].
      right. split; [reflexivity|]. split; [reflexivity|].
      exists cls', cs', (k' :: rest). split; [reflexivity|exact Hfound].
Qed.

(** What [scan] finds is of the type, and no higher than where it was
    found. *)
Lemma scan_element_sound typ element : forall x,
  In x (scan_element typ element) ->
  typ x = true /\ height x <= height element.
Proof.
  induction element as [lc v sp p|cls cs IH] using tree_ind'; intros x;
    rewrite scan_element_unfold.
  - destruct (typ (Leaf lc v sp p)) eqn:Htyp.
    + intros [<-|[]]. split; [exact Htyp|lia].
    + change (is_block (Leaf lc v sp p)) with false. intros [].
  - destruct (typ (Simple cls cs)) eqn:Htyp.
    { intros [<-|[]]. split; [exact Htyp|lia]. }
    destruct (is_block (Simple cls cs)); [|intros []].
    rewrite in_scan. intros (k & e & Hk & Hx).
    rewrite Forall_forall in IH.
    pose proof (nth_error_In _ _ Hk) as Hin.
    destruct (IH e Hin x Hx) as [Ht Hh]. split; [exact Ht|].
    pose proof (height_child _ _ Hin). simpl. lia.
Qed.

Lemma scan_sound typ children x :
  In x (scan typ children) ->
  typ x = true /\ height x <= list_max (map height children).
Proof.
  rewrite in_scan. intros (k & e & Hk & Hx).
  destruct (scan_element_sound typ e x Hx) as [Ht Hh].
  split; [exact Ht|].
  pose proof (height_child _ _ (nth_error_In _ _ Hk)). lia.
Qed.

Lemma in_scan_element typ children e x :
  In e children -> In x (scan_element typ e) -> In x (scan typ children).
Proof.
  intros He Hx. unfold scan. apply in_flat_map. exists e.
  split; assumption.
Qed.

Lemma is_class_or_function_is_Scope c :
  is_class_or_function c = true -> is_Scope c = true.
Proof. destruct c as [|[] cs]; simpl; congruence. Qed.

Lemma index_last_In {A : Type} (l : list A) (x : A) :
  index_last l = Ok x -> In x l.
Proof.
  unfold index_last. intros H. apply in_rev.
  destruct (rev l) as [|y r]; [discriminate|].
  injection H as ->. left. reflexivity.
Qed.

(** X16: every class and every function whose name
    [Scope.get_defined_names] lists (the classes and functions among the
    children it goes through) is one of the [subscopes] of the scope. *)
Theorem named_classes_and_functions_are_subscopes children body c :
  body_of children = Ok body ->
  In c body ->
  is_class_or_function c = true ->
  In c (subscopes children)
  /\ Scope.child_names c
     = (cs <- children_of c ;; n <- Scope.name cs ;; Ok [n]).
Proof.
  intros Hbody Hc Hcf.
  split; [|destruct c as [|[] cs]; try discriminate; reflexivity].
  pose proof (is_class_or_function_is_Scope _ Hcf) as Hsc.
  assert (Hself : In c (scan_element is_Scope c)).
  { rewrite scan_element_unfold, Hsc. left. reflexivity. }
  unfold body_of in Hbody.
  destruct (index_last children) as [last|] eqn:Hlast; [|discriminate].
  simpl in Hbody. unfold subscopes, _search_in_scope.
  destruct (is_node last ["suite"]) eqn:Hsuite.
  - destruct last as [|cls cs]; [discriminate|].
    simpl in Hbody. injection Hbody as <-.
    apply (@in_scan_element is_Scope children (Simple cls cs) c).
    + exact (index_last_In _ Hlast).
    + rewrite scan_element_unfold.
      assert (Hns : is_Scope (Simple cls cs) = false)
        by (destruct cls; simpl in Hsuite; try discriminate; reflexivity).
      rewrite Hns. unfold is_block. rewrite Hsuite. simpl.
      exact (@in_scan_element is_Scope cs c c Hc Hself).
  - injection Hbody as <-.
    exact (@in_scan_element is_Scope children c c Hc Hself).
Qed.

Lemma named_classes_and_functions_are_subscopes_witness :
  body_of Examples.class_C_children
  = Ok [Examples.ws_ Examples.newline 1 8 ""; Examples.function_f]
  /\ In Examples.function_f (subscopes Examples.class_C_children)
  /\ Scope.child_names Examples.function_f
     = (cs <- children_of Examples.function_f ;;
        n <- Scope.name cs ;; Ok [n]).
Proof.
  split; [reflexivity|].
  apply (@named_classes_and_functions_are_subscopes
           Examples.class_C_children
           [Examples.ws_ Examples.newline 1 8 ""; Examples.function_f]
           Examples.function_f).
  - reflexivity.
  - right. left. reflexivity.
  - reflexivity.
Defined.

Lemma mapM_ok_map {A B : Type} (f : A -> result B) (g : A -> B)
  (l : list A) :
  (forall a, In a l -> f a = Ok (g a)) -> mapM f l = Ok (map g l).
Proof.
  induction l as [|a l IH]; intros Hfg; [reflexivity|].
  simpl. rewrite (Hfg a (or_introl eq_refl)). simpl.
  rewrite IH; [reflexivity|].
  intros b Hb. apply Hfg. right. exact Hb.
Qed.

Lemma flat_map_flat_map {A B C : Type} (f : A -> list B) (g : B -> list C)
  (l : list A) :
  flat_map g (flat_map f l) = flat_map (fun a => flat_map g (f a)) l.
Proof.
  induction l as [|a l IH]; [reflexivity|].
  simpl. rewrite flat_map_app, IH. reflexivity.
Qed.

Lemma flat_map_ext_in {A B : Type} (f g : A -> list B) (l : list A) :
  (forall a, In a l -> f a = g a) -> flat_map f l = flat_map g l.
Proof.
  induction l as [|a l IH]; intros Hfg; [reflexivity|].
  simpl. rewrite (Hfg a (or_introl eq_refl)), IH; [reflexivity|].
  intros b Hb. apply Hfg. right. exact Hb.
Qed.

(** The scopes within what [scan] finds in an element are the scopes
    within the element. *)
Lemma scopes_within_scan element :
  flat_map scopes_within (scan_element is_Scope element)
  = scopes_within element.
Proof.
  induction element as [lc v sp p|cls cs IH] using tree_ind';
    rewrite scan_element_unfold; [reflexivity|].
  destruct (is_Scope (Simple cls cs)) eqn:Hscope.
  { cbn [flat_map]. apply app_nil_r. }
  cbn [scopes_within]. rewrite Hscope.
  destruct (is_block (Simple cls cs)); [|reflexivity].
  unfold scan. rewrite flat_map_flat_map.
  apply flat_map_ext_in. rewrite Forall_forall in IH. exact IH.
Qed.

Lemma walk_scopes_within : forall fuel self,
  is_Scope self = true ->
  height self <= fuel ->
  walk fuel self = Ok (scopes_within self).
Proof.
  induction fuel as [|fuel IH]; intros self Hscope Hfuel.
  - destruct self as [|cls cs]; [discriminate|]. simpl in Hfuel. lia.
  - destruct self as [|cls cs]; [discriminate|].
    cbn [walk]. rewrite Hscope.
    rewrite (@mapM_ok_map _ _ (walk fuel) scopes_within).
    + cbn [Py.bind scopes_within]. rewrite Hscope.
      rewrite <- flat_map_concat_map.
      unfold subscopes, _search_in_scope, scan.
      rewrite flat_map_flat_map. do 2 f_equal.
      apply flat_map_ext. intros c. apply scopes_within_scan.
    + intros s Hs. destruct (scan_sound _ _ _ Hs) as [Ht Hh].
      apply IH; [exact Ht|]. cbn [height] in Hfuel. lia.
Qed.

(** X17: [walk] on a scope returns, given a recursion depth of its height,
    and yields the scope itself first and then, in the order of the
    source, every scope reached from it through scopes, suites and simple
    statements, each before the scopes inside it; everything it yields is
    a scope. *)
Theorem walk_yields_the_scopes_within fuel self :
  is_Scope self = true ->
  height self <= fuel ->
  walk fuel self = Ok (scopes_within self)
  /\ (exists below, scopes_within self = self :: below)
  /\ Forall (fun s => is_Scope s = true) (scopes_within self).
Proof.
  intros Hscope Hfuel. split; [exact (walk_scopes_within _ Hscope Hfuel)|].
  split.
  - destruct self as [|cls cs]; [discriminate|].
    cbn [scopes_within]. rewrite Hscope. eexists. reflexivity.
  - clear. induction self as [lc v sp p|cls cs IH] using tree_ind';
      [constructor|].
    assert (Hbelow : Forall (fun s => is_Scope s = true)
                       (flat_map scopes_within cs)).
    { induction IH as [|c cs Hc _ IHcs]; [constructor|].
      simpl. apply Forall_app. split; assumption. }
    cbn [scopes_within].
    destruct (is_Scope (Simple cls cs)) eqn:Hscope.
    + constructor; assumption.
    + destruct (is_block (Simple cls cs)); [exact Hbelow|constructor].
Qed.

Lemma walk_yields_the_scopes_within_witness :
  walk 7 Examples.module_of_C
  = Ok [Examples.module_of_C; Examples.class_C; Examples.function_f].
Proof.
  apply (@walk_yields_the_scopes_within 7 Examples.module_of_C).
  - reflexivity.
  - vm_compute. lia.
Defined.

Lemma mapM_ok_in {A B : Type} (f : A -> result B) : forall l l',
  mapM f l = Ok l' -> forall a, In a l -> exists b, f a = Ok b.
Proof.
  induction l as [|x l IH]; intros l' Hl a Ha; [destruct Ha|].
  simpl in Hl. destruct (f x) as [y|] eqn:Hx; [|discriminate].
  simpl in Hl. destruct (mapM f l) as [ys|] eqn:Hys; [|discriminate].
  destruct Ha as [<-|Ha]; [exists y; exact Hx|].
  exact (IH ys eq_refl a Ha).
Qed.

(** X18: [Scope.get_defined_names] returns only when none of the
    statements it asks for names is a [KeywordStatement]: one [pass],
    [return] or [del] among the statements of the children it goes through
    makes it raise, as a [KeywordStatement] has no [get_defined_names]. *)
Theorem keyword_statement_stops_get_defined_names children names :
  Scope.get_defined_names children = Ok names ->
  exists body,
    body_of children = Ok body
    /\ Forall (fun s => is_keyword_statement s = false) (statements body).
Proof.
  unfold Scope.get_defined_names, body_of. intros Hnames.
  destruct (index_last children) as [last|]; [|discriminate].
  simpl in *.
  destruct (if is_node last ["suite"] then children_of last else Ok children)
    as [body|]; [|discriminate].
  exists body. split; [reflexivity|].
  simpl in Hnames. unfold fmap in Hnames.
  destruct (mapM Scope.child_names body) as [per_child|] eqn:Hall;
    [|discriminate].
  apply Forall_forall. intros s Hs.
  unfold statements in Hs. apply in_flat_map in Hs.
  destruct Hs as [c [Hc Hs]].
  destruct (mapM_ok_in _ _ Hall c Hc) as [ns Hns].
  destruct (is_node c ["simple_stmt"]) eqn:Hstmt; [|destruct Hs].
  destruct c as [|cls cs]; [destruct Hs|].
  unfold Scope.child_names in Hns. rewrite Hstmt in Hns.
  unfold fmap in Hns.
  destruct (mapM Scope.statement_names (filter Scope.is_statement cs))
    as [per_stmt|] eqn:Hstmts; [|discriminate].
  destruct (mapM_ok_in _ _ Hstmts s Hs) as [sn Hsn].
  destruct s as [|[] scs]; try reflexivity. discriminate.
Qed.

Lemma pass_line_raises :
  Scope.get_defined_names [pass_line; Examples.ws_ "" 2 0 ""]
  = Raise AttributeError.
Proof. reflexivity. Qed.

Lemma keyword_statement_stops_get_defined_names_witness :
  Scope.get_defined_names Examples.class_C_children
  = Ok [Examples.name_ "f" 2 8 " "]
  /\ exists body,
       body_of Examples.class_C_children = Ok body
       /\ Forall (fun s => is_keyword_statement s = false) (statements body).
Proof.
  split; [reflexivity|].
  apply (@keyword_statement_stops_get_defined_names
           Examples.class_C_children [Examples.name_ "f" 2 8 " "]).
  reflexivity.
Defined.

End ScopeContentsFacts.

(** ** GlobalStmt *)

Module GlobalStmtFacts.
Import GlobalStmt_.
Import GlobalStmtSpec.

Lemma stride2_more_names : forall rest first,
  stride2 (first :: more_names rest) = first :: map snd rest.
Proof.
  induction rest as [|[sep n] rest IH]; intros first; [reflexivity|].
  change (stride2 (first :: more_names ((sep, n) :: rest)))
    with (first :: stride2 (n :: more_names rest)).
  rewrite IH. reflexivity.
Qed.

(** X19: the names of [global n1, n2, ...] are the children between the
    keyword and the separators, however many there are; a statement of
    the keyword alone, or without children, has none. *)
Theorem global_names_skip_the_keyword_and_the_separators kw first rest :
  names (kw :: first :: more_names rest) = first :: map snd rest
  /\ names [kw] = []
  /\ names [] = [].
Proof.
  split; [|split; reflexivity].
  unfold names. cbn [tl]. apply stride2_more_names.
Qed.

End GlobalStmtFacts.

(** ** Array.add_statement *)

Module AddStatementFacts.
Import Array.
Import ArraySpec.

Section WithStatement.
Variable stmt : Type.

(** What a row of [add_statement] calls leaves in the three fields. *)
Lemma add_all_fields : forall (adds : list (stmt * bool)) (a : Array.t stmt),
  values (add_all a adds)
  = values a ++ map fst (filter (fun p => negb (snd p)) adds)
  /\ keys (add_all a adds) = keys a ++ map fst (filter snd adds)
  /\ type (add_all a adds) = if existsb snd adds then DICT else type a.
Proof.
  induction adds as [|[s is_key] adds IH]; intros a.
  - simpl. rewrite !app_nil_r. repeat split; reflexivity.
  - unfold add_all in *. cbn [fold_left fst snd].
    destruct (IH (add_statement a s is_key)) as [Hv [Hk Ht]].
    rewrite Hv, Hk, Ht. unfold add_statement.
    destruct is_key; cbn [values keys type filter existsb negb snd map fst].
    + rewrite <- app_assoc. repeat split; try reflexivity.
      destruct (existsb snd adds); reflexivity.
    + rewrite <- app_assoc. repeat split; reflexivity.
Qed.

End WithStatement.

(** X20: one [add_statement] with [is_key] makes the array a dict for
    good: whatever was added before and whatever is added after,
    [__iter__] and [__getitem__] raise [TypeError] and [items] answers;
    and [__len__] counts the values only, not the keys. *)
Theorem a_key_makes_the_array_a_dict_for_good
  (stmt : Type) (a : Array.t stmt) before key after :
  let a' := add_all a (before ++ (key, true) :: after) in
  type a' = DICT
  /\ __iter__ a' = Raise TypeError
  /\ (forall k, __getitem__ a' k = Raise TypeError)
  /\ items a' = Ok (combine (keys a') (values a'))
  /\ In key (keys a')
  /\ __len__ a'
     = __len__ a
       + length (filter (fun p => negb (snd p)) (before ++ after)).
Proof.
  intros a'.
  destruct (add_all_fields (before ++ (key, true) :: after) a)
    as [Hv [Hk Ht]].
  fold a' in Hv, Hk, Ht.
  assert (Hdict : type a' = DICT).
  { rewrite Ht, existsb_app. simpl. rewrite Bool.orb_true_r. reflexivity. }
  unfold __iter__, __getitem__, items, __len__. rewrite Hdict. simpl.
  repeat (split; [reflexivity|]). split.
  - rewrite Hk, filter_app. simpl. rewrite map_app. simpl.
    apply in_or_app. right. apply in_or_app. right. left. reflexivity.
  - rewrite Hv, length_app, length_map, !filter_app. simpl. reflexivity.
Qed.

Lemma filter_all_values {stmt : Type} (l : list stmt) :
  filter (fun p : stmt * bool => negb (snd p)) (map (fun s => (s, false)) l)
  = map (fun s => (s, false)) l.
Proof. induction l as [|x l IH]; simpl; [|rewrite IH]; reflexivity. Qed.

Lemma no_key_among_values {stmt : Type} (l : list stmt) :
  existsb snd (map (fun s : stmt => (s, false)) l) = false.
Proof. induction l as [|x l IH]; simpl; [|rewrite IH]; reflexivity. Qed.

Lemma add_values_fields (stmt : Type) (a : Array.t stmt) (l : list stmt) :
  values (add_values a l) = values a ++ l
  /\ keys (add_values a l) = keys a
  /\ type (add_values a l) = type a.
Proof.
  unfold add_values.
  destruct (add_all_fields (map (fun s => (s, false)) l) a)
    as [Hv [Hk Ht]].
  rewrite Hv, Hk, Ht, filter_all_values, no_key_among_values, map_map.
  simpl. rewrite map_id. split; [reflexivity|]. split; [|reflexivity].
  replace (filter snd (map (fun s : stmt => (s, false)) l)) with
    (@nil (stmt * bool)); [apply app_nil_r|].
  clear. induction l as [|x l IH]; [reflexivity|exact IH].
Qed.

(** X21: an array that is not a dict gives back the values it has, those
    added to it last: [__iter__] runs over them in the order they were
    added, [__len__] is their number, [a[i]] is the value of index [i] and
    [a[-i]] the value of index [len - i]; an index beyond either end
    raises [IndexError]. *)
Theorem added_values_are_read_back
  (stmt : Type) (a : Array.t stmt) (l : list stmt) :
  type a <> DICT ->
  __iter__ (add_values a l) = Ok (values a ++ l)
  /\ __len__ (add_values a l) = __len__ a + length l
  /\ (forall i, __getitem__ (add_values a l) (Z.of_nat i)
                = index (values a ++ l) i)
  /\ (forall i, 0 < i <= length (values a ++ l) ->
                __getitem__ (add_values a l) (- Z.of_nat i)
                = index (values a ++ l) (length (values a ++ l) - i))
  /\ (forall k, (k < - Z.of_nat (length (values a ++ l))
                 \/ Z.of_nat (length (values a ++ l)) <= k)%Z ->
                __getitem__ (add_values a l) k = Raise IndexError).
Proof.
  intros Hty.
  destruct (add_values_fields a l) as [Hv [_ Ht]].
  assert (Hnd : array_type_eqb (type a) DICT = false)
    by (destruct (type a); try reflexivity; contradiction).
  unfold __iter__, __getitem__, __len__, list_getitem.
  rewrite Hv, Ht, Hnd.
  split; [reflexivity|]. split; [apply length_app|].
  generalize (values a ++ l) as vs. intros vs.
  split; [|split].
  - intros i.
    destruct (Z.leb_spec 0 (Z.of_nat i)) as [_|Hneg]; [|lia].
    rewrite Nat2Z.id. reflexivity.
  - intros i [Hpos Hle].
    destruct (Z.leb_spec 0 (- Z.of_nat i)) as [Hge|_]; [lia|].
    destruct (Z.leb_spec 0 (Z.of_nat (length vs) + - Z.of_nat i))
      as [_|Hlt]; [|lia].
    replace (Z.to_nat (Z.of_nat (length vs) + - Z.of_nat i))
      with (length vs - i) by lia.
    reflexivity.
  - intros k [Hlow|Hhigh].
    + destruct (Z.leb_spec 0 k) as [Hge|_]; [lia|].
      destruct (Z.leb_spec 0 (Z.of_nat (length vs) + k)) as [Hge|_]; [lia|].
      reflexivity.
    + destruct (Z.leb_spec 0 k) as [_|Hlt]; [|lia].
      unfold index.
      destruct (nth_error vs (Z.to_nat k)) as [x|] eqn:Hk; [|reflexivity].
      assert (Z.to_nat k < length vs)
        by (apply nth_error_Some; rewrite Hk; discriminate).
      lia.
Qed.

Lemma added_values_are_read_back_witness :
  type (Build LIST [10] []) <> DICT
  /\ __iter__ (add_values (Build LIST [10] []) [20; 30]) = Ok [10; 20; 30]
  /\ __getitem__ (add_values (Build LIST [10] []) [20; 30]) (- Z.of_nat 1)
     = Ok 30
  /\ __getitem__ (add_values (Build LIST [10] []) [20; 30]) 3
     = Raise IndexError.
Proof.
  assert (Hty : type (Build LIST [10] []) <> DICT) by discriminate.
  destruct (@added_values_are_read_back nat (Build LIST [10] []) [20; 30]
              Hty)
    as (Hiter & _ & _ & Hneg & Hout).
  split; [exact Hty|]. split; [exact Hiter|]. split.
  - apply (Hneg 1). simpl. lia.
  - apply (Hout 3%Z). right. simpl. lia.
Defined.

Lemma add_pairs_fields (stmt : Type) (a : Array.t stmt)
  (l : list (stmt * stmt)) :
  values (add_pairs a l) = values a ++ map snd l
  /\ keys (add_pairs a l) = keys a ++ map fst l
  /\ type (add_pairs a l)
     = match l with [] => type a | _ :: _ => DICT end.
Proof.
  unfold add_pairs.
  destruct (add_all_fields
              (flat_map (fun kv : stmt * stmt =>
                           [(fst kv, true); (snd kv, false)]) l)
              a) as [Hv [Hk Ht]].
  rewrite Hv, Hk, Ht. clear.
  assert (H : map fst
                (filter (fun p : stmt * bool => negb (snd p))
                   (flat_map (fun kv : stmt * stmt =>
                                [(fst kv, true); (snd kv, false)]) l))
              = map snd l
              /\ map fst
                   (filter snd
                      (flat_map (fun kv : stmt * stmt =>
                                   [(fst kv, true); (snd kv, false)]) l))
                 = map fst l).
  { induction l as [|[k v] l [IHv IHk]]; [split; reflexivity|].
    simpl. rewrite IHv, IHk. split; reflexivity. }
  destruct H as [-> ->].
  repeat split. destruct l; reflexivity.
Qed.

Lemma combine_fst_snd {A B : Type} (l : list (A * B)) :
  combine (map fst l) (map snd l) = l.
Proof.
  induction l as [|[a b] l IH]; simpl; [|rewrite IH]; reflexivity.
Qed.

Lemma combine_behind {A B : Type} (ks : list A) (vs : list B) :
  forall ks' vs',
  length ks = length vs ->
  combine (ks ++ ks') (vs ++ vs') = combine ks vs ++ combine ks' vs'.
Proof.
  revert vs. induction ks as [|k ks IH]; intros [|v vs] ks' vs' Hlen;
    try discriminate; [reflexivity|].
  simpl. rewrite IH by (simpl in Hlen; lia). reflexivity.
Qed.

(** X22: pairs added to an array, of each the key first, come back from
    [items]: [keys] and [values] grow by the keys and by the values in the
    order they were added, [items] zips the two, so that an array which had
    as many keys as values gives its former pairs followed by the added
    ones; [__len__] grows by their number.  With no pair added, [items]
    answers only if the array is a [DICT]. *)
Theorem added_pairs_are_read_back
  (stmt : Type) (a : Array.t stmt) (l : list (stmt * stmt)) :
  keys (add_pairs a l) = keys a ++ map fst l
  /\ values (add_pairs a l) = values a ++ map snd l
  /\ (l <> [] \/ type a = DICT ->
      items (add_pairs a l)
      = Ok (combine (keys a ++ map fst l) (values a ++ map snd l)))
  /\ (l <> [] \/ type a = DICT ->
      length (keys a) = length (values a) ->
      items (add_pairs a l) = Ok (combine (keys a) (values a) ++ l))
  /\ (l = [] -> type a <> DICT ->
      items (add_pairs a l) = Raise TypeError)
  /\ __len__ (add_pairs a l) = __len__ a + length l.
Proof.
  destruct (add_pairs_fields a l) as [Hv [Hk Ht]].
  assert (Hitems : l <> [] \/ type a = DICT ->
            items (add_pairs a l)
            = Ok (combine (keys a ++ map fst l) (values a ++ map snd l))).
  { intros Hdict. unfold items. rewrite Hv, Hk, Ht.
    destruct Hdict as [Hl|Hty].
    - destruct l; [contradiction|reflexivity].
    - destruct l; [rewrite Hty|]; reflexivity. }
  split; [exact Hk|]. split; [exact Hv|]. split; [exact Hitems|].
  split; [|split].
  - intros Hdict Hlen.
    rewrite (Hitems Hdict), (combine_behind _ _ _ _ Hlen), combine_fst_snd.
    reflexivity.
  - intros -> Hty. unfold items. rewrite Ht.
    destruct (type a); try reflexivity. contradiction.
  - unfold __len__. rewrite Hv, length_app, length_map. reflexivity.
Qed.

Lemma added_pairs_are_read_back_witness :
  items (add_pairs (Build NOARRAY [] []) [(1, 10); (2, 20)])
  = Ok [(1, 10); (2, 20)]
  /\ items (add_pairs (Build LIST [] []) (@nil (nat * nat)))
     = Raise TypeError.
Proof.
  destruct (@added_pairs_are_read_back nat (Build NOARRAY [] [])
              [(1, 10); (2, 20)])
    as (_ & _ & _ & Hitems & _).
  destruct (@added_pairs_are_read_back nat (Build LIST [] []) [])
    as (_ & _ & _ & _ & Hnone & _).
  split.
  - apply Hitems; [left; discriminate|reflexivity].
  - apply Hnone; [reflexivity|discriminate].
Defined.

End AddStatementFacts.

(** ** Call paths *)

Module CallPathFacts.
Import StatementElement.
Import CallPathSpec.

Lemma path_update_same h r o : update h r o r = o.
Proof. unfold update. rewrite Nat.eqb_refl. reflexivity. Qed.

Lemma path_update_other h r o x : x <> r -> update h r o x = h x.
Proof.
  intros Hx. unfold update.
  destruct (Nat.eqb_spec x r); [contradiction|reflexivity].
Qed.

Lemma path_functional h a l1 :
  chain h a l1 -> forall l2, chain h a l2 -> l1 = l2.
Proof.
  induction 1 as [a Ha|a b l Ha _ IH]; intros l2 H2;
    inversion H2 as [? Ha2|? b2 l2' Ha2 Hrest]; subst; try congruence.
  rewrite Ha in Ha2. injection Ha2 as <-.
  f_equal. apply IH. exact Hrest.
Qed.

Lemma path_suffix h a l :
  chain h a l ->
  forall x, In x l -> exists l', chain h x l' /\ length l' <= length l.
Proof.
  induction 1 as [a Ha|a b l Ha Hrest IH]; intros x Hx.
  - destruct Hx as [<-|[]]. exists [a]. split; [constructor; exact Ha|lia].
  - destruct Hx as [<-|Hx].
    + exists (a :: l). split; [econstructor; eassumption|lia].
    + destruct (IH x Hx) as [l' [Hl' Hlen]].
      exists l'. split; [exact Hl'|simpl; lia].
Qed.

(** A call path that ends has no element twice. *)
Lemma path_NoDup h a l : chain h a l -> NoDup l.
Proof.
  induction 1 as [a Ha|a b l Ha Hrest IH].
  - constructor; [intros []|constructor].
  - constructor; [|exact IH].
    intros Hin.
    destruct (path_suffix Hrest a Hin) as [l' [Hl' Hlen]].
    assert (Heq : l' = a :: l).
    { apply (path_functional Hl'). econstructor; eassumption. }
    subst l'. simpl in Hlen. lia.
Qed.

Lemma path_ext h h' a l :
  chain h a l ->
  (forall x, In x l -> next (h' x) = next (h x)) ->
  chain h' a l.
Proof.
  induction 1 as [a Ha|a b l Ha _ IH]; intros Hsame.
  - constructor. rewrite Hsame by (left; reflexivity). exact Ha.
  - econstructor.
    + rewrite Hsame by (left; reflexivity). exact Ha.
    + apply IH. intros x Hx. apply Hsame. right. exact Hx.
Qed.

(** A path whose last element gets a successor goes on with the path of
    the successor. *)
Lemma path_extend h h' call l2 : forall front tail self,
  chain h self (front ++ [tail]) ->
  (forall x, In x front -> next (h' x) = next (h x)) ->
  next (h' tail) = Some call ->
  chain h' call l2 ->
  chain h' self (front ++ tail :: l2).
Proof.
  induction front as [|a front IH]; intros tail self Hchain Hsame Htail Hcall.
  - simpl in *. inversion Hchain as [? Ha|? b l Ha Hrest]; subst.
    + econstructor; eassumption.
    + inversion Hrest.
  - simpl in *. inversion Hchain as [? Ha Heq|? b l Ha Hrest]; subst.
    + destruct front; discriminate.
    + econstructor.
      * rewrite Hsame by (left; reflexivity). exact Ha.
      * apply IH; [exact Hrest| |exact Htail|exact Hcall].
        intros x Hx. apply Hsame. right. exact Hx.
Qed.

(** [set_next] on a path that ends at [tail], with an element that is not
    on it. *)
Lemma set_next_path call : forall front tail h self fuel,
  chain h self (front ++ [tail]) ->
  ~ In call (front ++ [tail]) ->
  length (front ++ [tail]) <= fuel ->
  exists h',
    set_next fuel h self call = (h', Ok tt)
    /\ h' call
       = Build (what (h call)) (next (h call)) (Some tail) (parent (h tail))
    /\ h' tail
       = Build (what (h tail)) (Some call) (previous (h tail))
           (parent (h tail))
    /\ forall x, x <> call -> x <> tail -> h' x = h x.
Proof.
  induction front as [|a front IH]; intros tail h self fuel Hchain Hnot Hfuel.
  - simpl in *.
    assert (Hne : tail <> call) by (intros ->; apply Hnot; left; reflexivity).
    inversion Hchain as [? Ha|? b l Ha Hrest]; subst; [|inversion Hrest].
    destruct fuel as [|fuel]; [lia|].
    cbn [set_next]. rewrite (path_update_other _ _ Hne), Ha.
    eexists. split; [reflexivity|]. split; [|split].
    + rewrite path_update_same.
      rewrite (path_update_other _ _ (not_eq_sym Hne)), path_update_same.
      reflexivity.
    + rewrite (path_update_other _ _ Hne), path_update_same. reflexivity.
    + intros x Hx1 Hx2. rewrite !path_update_other by assumption.
      reflexivity.
  - simpl in Hchain, Hnot, Hfuel.
    inversion Hchain as [? Ha Heq|? b l Ha Hrest]; subst;
      [destruct front; discriminate|].
    assert (Hne : a <> call) by (intros ->; apply Hnot; left; reflexivity).
    destruct fuel as [|fuel]; [lia|].
    cbn [set_next]. rewrite (path_update_other _ _ Hne), Ha.
    set (h1 := update h call
                 (Build (what (h call)) (next (h call)) (previous (h call))
                    (parent (h a)))).
    assert (Hnext1 : forall x, next (h1 x) = next (h x)).
    { intros x. unfold h1. destruct (Nat.eq_dec x call) as [->|Hx].
      - rewrite path_update_same. reflexivity.
      - rewrite path_update_other by exact Hx. reflexivity. }
    assert (Htail : tail <> call).
    { intros ->. apply Hnot. right. apply in_or_app. right. left.
      reflexivity. }
    destruct (IH tail h1 b fuel) as [h' [Hrun [Hcall [Htl Hout]]]].
    + eapply path_ext; [exact Hrest|]. intros x _. apply Hnext1.
    + intros Hin. apply Hnot. right. exact Hin.
    + lia.
    + exists h'. split; [exact Hrun|].
      assert (H1tail : h1 tail = h tail)
        by (unfold h1; apply path_update_other; exact Htail).
      rewrite Hcall, Htl, H1tail. unfold h1 at 1 2.
      rewrite path_update_same. simpl.
      split; [reflexivity|]. split; [reflexivity|].
      intros x Hx1 Hx2. rewrite (Hout x Hx1 Hx2).
      unfold h1. apply path_update_other. exact Hx1.
Qed.

(** X23: [StatementElement.set_next], started anywhere on a call path that
    ends, with an element that is not on it, returns having linked the
    element behind the last one: that one's [next] is the element, the
    element's [previous] is that one, and the element's [parent] is the
    parent of that last one, not of the one the call started at; nothing
    else changes, so the path is the old one followed by the element and
    what follows it. *)
Theorem set_next_links_the_call_behind_the_last
  h self call front tail fuel :
  chain h self (front ++ [tail]) ->
  ~ In call (front ++ [tail]) ->
  length (front ++ [tail]) <= fuel ->
  exists h',
    set_next fuel h self call = (h', Ok tt)
    /\ h' call
       = Build (what (h call)) (next (h call)) (Some tail) (parent (h tail))
    /\ h' tail
       = Build (what (h tail)) (Some call) (previous (h tail))
           (parent (h tail))
    /\ (forall x, x <> call -> x <> tail -> h' x = h x)
    /\ forall l2,
         chain h call l2 ->
         (forall x, In x l2 -> ~ In x (front ++ [tail])) ->
         chain h' self (front ++ tail :: l2).
Proof.
  intros Hchain Hnot Hfuel.
  destruct (@set_next_path call front tail h self fuel Hchain Hnot Hfuel)
    as [h' [Hrun [Hcall [Htail Hout]]]].
  exists h'. repeat (split; [assumption|]).
  intros l2 Hl2 Hdisjoint.
  assert (Hnext : forall x, x <> tail -> next (h' x) = next (h x)).
  { intros x Hx. destruct (Nat.eq_dec x call) as [->|Hxc].
    - rewrite Hcall. reflexivity.
    - rewrite (Hout x Hxc Hx). reflexivity. }
  pose proof (path_NoDup Hchain) as Hnd.
  apply NoDup_remove_2 in Hnd. rewrite app_nil_r in Hnd.
  eapply path_extend.
  - exact Hchain.
  - intros x Hx. apply Hnext. intros ->. contradiction.
  - rewrite Htail. reflexivity.
  - eapply path_ext; [exact Hl2|]. intros x Hx. apply Hnext.
    intros ->. apply (Hdisjoint tail Hx). apply in_or_app. right. left.
    reflexivity.
Qed.

Lemma set_next_links_the_call_behind_the_last_witness :
  exists h',
    set_next 2 a_dot_b 0 2 = (h', Ok tt)
    /\ h' 2 = Build (IsArray Array.TUPLE) None (Some 1) (Some 9)
    /\ h' 1 = Build (IsCall "b") (Some 2) (Some 0) (Some 9)
    /\ chain h' 0 [0; 1; 2].
Proof.
  destruct (@set_next_links_the_call_behind_the_last a_dot_b 0 2 [0] 1 2)
    as [h' [Hrun [Hcall [Htail [_ Hpath]]]]].
  - econstructor; [reflexivity|]. constructor. reflexivity.
  - simpl. intros [H|[H|[]]]; discriminate.
  - simpl. lia.
  - exists h'. split; [exact Hrun|]. split; [exact Hcall|].
    split; [exact Htail|].
    apply (Hpath [2]).
    + constructor. reflexivity.
    + intros x [<-|[]] [H|[H|[]]]; discriminate.
Defined.

(** The call path of a path that ends, and the names at its head. *)
Lemma generate_call_path_chain h : forall l a fuel,
  chain h a l ->
  length l <= fuel ->
  generate_call_path fuel h a = Ok (map (step_of h) l).
Proof.
  induction l as [|x l IH]; intros a fuel Hchain Hfuel; [inversion Hchain|].
  destruct fuel as [|fuel]; [simpl in Hfuel; lia|].
  inversion Hchain as [? Ha|? b ? Ha Hrest]; subst; simpl; rewrite Ha.
  - reflexivity.
  - rewrite (IH b fuel Hrest) by (simpl in Hfuel; lia). reflexivity.
Qed.

Lemma names_loop_chain h : forall l a fuel,
  chain h a l ->
  length l <= fuel ->
  names_loop fuel h (Some a) = Some (leading_names h l).
Proof.
  induction l as [|x l IH]; intros a fuel Hchain Hfuel; [inversion Hchain|].
  destruct fuel as [|fuel]; [simpl in Hfuel; lia|].
  inversion Hchain as [? Ha|? b ? Ha Hrest]; subst; simpl;
    destruct (what (h x)) as [name|ty]; try reflexivity; rewrite Ha.
  - destruct fuel; reflexivity.
  - rewrite (IH b fuel Hrest) by (simpl in Hfuel; lia). reflexivity.
Qed.

Lemma leading_names_prefix h l :
  exists rest,
    map (step_of h) l = map StepName (leading_names h l) ++ rest.
Proof.
  induction l as [|x l [rest IH]]; [exists []; reflexivity|].
  simpl. unfold step_of at 1.
  destruct (what (h x)) as [name|ty].
  - exists rest. simpl. rewrite IH. reflexivity.
  - eexists. reflexivity.
Qed.

(** X24: on a call path that ends, [generate_call_path] yields one step
    for every element, in order: the name of a call, the element itself
    for an array; and [Call.names] returns the names of the calls up to
    the first array, which are the first steps of the call path. *)
Theorem names_are_the_head_of_the_call_path h self l fuel :
  chain h self l ->
  length l <= fuel ->
  generate_call_path fuel h self = Ok (map (step_of h) l)
  /\ names fuel h self = Some (leading_names h l)
  /\ exists rest,
       map (step_of h) l = map StepName (leading_names h l) ++ rest.
Proof.
  intros Hchain Hfuel. split; [|split].
  - exact (generate_call_path_chain Hchain Hfuel).
  - exact (names_loop_chain Hchain Hfuel).
  - apply leading_names_prefix.
Qed.

Lemma names_are_the_head_of_the_call_path_witness :
  generate_call_path 2 a_dot_b 0 = Ok [StepName "a"; StepName "b"]
  /\ names 2 a_dot_b 0 = Some ["a"; "b"].
Proof.
  destruct (@names_are_the_head_of_the_call_path a_dot_b 0 [0; 1] 2)
    as [Hpath [Hnames _]].
  - econstructor; [reflexivity|]. constructor. reflexivity.
  - simpl. lia.
  - split; [exact Hpath|exact Hnames].
Defined.

(** On an element that is its own [next], the generator exceeds every
    recursion depth and the loop of [names] runs for ever. *)
Lemma call_path_of_a_knot h c :
  next (h c) = Some c ->
  forall fuel, generate_call_path fuel h c = Raise RecursionError.
Proof.
  intros Hc. induction fuel as [|fuel IH]; [reflexivity|].
  simpl. rewrite Hc, IH. reflexivity.
Qed.

Lemma names_of_a_knot h c name :
  next (h c) = Some c ->
  what (h c) = IsCall name ->
  forall fuel, names_loop fuel h (Some c) = None.
Proof.
  intros Hc Hwhat. induction fuel as [|fuel IH]; [reflexivity|].
  simpl. rewrite Hwhat, Hc, IH. reflexivity.
Qed.

(** X25: [set_next] does not look whether the element is already on the
    path.  Called on a last element with that element itself, it returns,
    and has made the element its own [next] and [previous]; from then on
    [generate_call_path] exceeds every recursion depth and, for a call,
    the loop of [Call.names] does not end. *)
Theorem set_next_with_the_element_itself_ties_a_knot h c name fuel :
  next (h c) = None ->
  what (h c) = IsCall name ->
  exists h',
    set_next (S fuel) h c c = (h', Ok tt)
    /\ h' c = Build (IsCall name) (Some c) (Some c) (parent (h c))
    /\ (forall x, x <> c -> h' x = h x)
    /\ (forall fuel', generate_call_path fuel' h' c = Raise RecursionError)
    /\ (forall fuel', names fuel' h' c = None).
Proof.
  intros Hnext Hwhat. cbn [set_next].
  rewrite !path_update_same. cbn [next what previous parent].
  rewrite Hnext, Hwhat.
  eexists. split; [reflexivity|].
  assert (Hc : update
                 (update
                    (update h c
                       (Build (IsCall name) None (previous (h c))
                          (parent (h c))))
                    c (Build (IsCall name) (Some c) (previous (h c))
                         (parent (h c))))
                 c (Build (IsCall name) (Some c) (Some c) (parent (h c))) c
               = Build (IsCall name) (Some c) (Some c) (parent (h c)))
    by apply path_update_same.
  split; [exact Hc|]. split; [|split].
  - intros x Hx. rewrite !path_update_other by exact Hx. reflexivity.
  - apply call_path_of_a_knot. rewrite Hc. reflexivity.
  - intros fuel'. unfold names.
    apply names_of_a_knot with (name := name); rewrite Hc; reflexivity.
Qed.

Lemma set_next_with_the_element_itself_ties_a_knot_witness :
  exists h',
    set_next 1 a_dot_b 1 1 = (h', Ok tt)
    /\ h' 1 = Build (IsCall "b") (Some 1) (Some 1) (Some 9)
    /\ generate_call_path 1000 h' 1 = Raise RecursionError
    /\ names 1000 h' 1 = None.
Proof.
  destruct (@set_next_with_the_element_itself_ties_a_knot a_dot_b 1 "b" 0
              eq_refl eq_refl) as [h' [Hrun [Hc [Hout [Hpath Hnames]]]]].
  exists h'. split; [exact Hrun|]. split; [exact Hc|]. split.
  - apply Hpath.
  - apply Hnames.
Defined.

(** X26: [next_is_execution] never raises; it holds exactly when the
    [next] of the element is an array of type [TUPLE] or [NOARRAY], so not
    for a last element and not before a call.  After [set_next] with an
    element that was not on the path, it tells of the last element of the
    path whether the new element is such an array. *)
Theorem next_is_execution_tells_a_tuple_behind h self call front tail fuel :
  chain h self (front ++ [tail]) ->
  ~ In call (front ++ [tail]) ->
  length (front ++ [tail]) <= fuel ->
  (forall x,
      next_is_execution h x = true
      <-> exists n ty,
            next (h x) = Some n
            /\ what (h n) = IsArray ty
            /\ (ty = Array.TUPLE \/ ty = Array.NOARRAY))
  /\ next_is_execution h tail = false
  /\ next_is_execution (fst (set_next fuel h self call)) tail
     = match what (h call) with
       | IsArray Array.TUPLE | IsArray Array.NOARRAY => true
       | _ => false
       end.
Proof.
  intros Hchain Hnot Hfuel. split; [|split].
  - intros x. unfold next_is_execution, is_type.
    destruct (next (h x)) as [n|].
    + destruct (what (h n)) as [name|ty] eqn:Hwn.
      * split; [discriminate|]. intros (n' & ty & Hn & Hw & _).
        injection Hn as <-. rewrite Hwn in Hw. discriminate.
      * split.
        -- intros Hty. exists n, ty. split; [reflexivity|].
           split; [exact Hwn|]. destruct ty; try discriminate; auto.
        -- intros (n' & ty' & Hn & Hw & Hty). injection Hn as <-.
           rewrite Hwn in Hw. injection Hw as ->.
           destruct Hty as [-> | ->]; reflexivity.
    + split; [discriminate|]. intros (n & ty & Hn & _). discriminate.
  - unfold next_is_execution.
    assert (Hend : next (h tail) = None).
    { clear -Hchain. revert self Hchain.
      induction front as [|a front IH]; intros self Hchain; simpl in *.
      - inversion Hchain as [? Ha|? b l Ha Hrest]; subst;
          [exact Ha|inversion Hrest].
      - inversion Hchain as [? Ha Heq|? b l Ha Hrest]; subst;
          [destruct front; discriminate|].
        exact (IH b Hrest). }
    rewrite Hend. reflexivity.
  - destruct (@set_next_path call front tail h self fuel Hchain Hnot Hfuel)
      as [h' [Hrun [Hcall [Htail _]]]].
    rewrite Hrun. cbn [fst]. unfold next_is_execution, is_type.
    rewrite Htail. cbn [next]. rewrite Hcall. cbn [what].
    destruct (what (h call)) as [name|[]]; reflexivity.
Qed.

Lemma next_is_execution_tells_a_tuple_behind_witness :
  next_is_execution a_dot_b 1 = false
  /\ next_is_execution (fst (set_next 2 a_dot_b 0 2)) 1 = true.
Proof.
  destruct (@next_is_execution_tells_a_tuple_behind a_dot_b 0 2 [0] 1 2)
    as [_ [Hbefore Hafter]].
  - econstructor; [reflexivity|]. constructor. reflexivity.
  - simpl. intros [H|[H|[]]]; discriminate.
  - simpl. lia.
  - split; [exact Hbefore|exact Hafter].
Defined.

End CallPathFacts.

(** ** space *)

Module SpaceFacts.
Import Base.
Import SpaceSpec.
Import PositionSpec.
Import StoreFacts.

Lemma advance_app : forall s1 s2 pos,
  advance pos (s1 ++ s2) = advance (advance pos s1) s2.
Proof.
  induction s1 as [|c s1 IH]; intros s2 pos; [reflexivity|].
  simpl. destruct (Ascii.eqb c (ascii_of_nat 10)); apply IH.
Qed.

Lemma times_succ s n :
  (0 <= n)%Z -> times s (n + 1) = (s ++ times s n)%string.
Proof.
  intros Hn. unfold times.
  replace (Z.to_nat (n + 1)) with (S (Z.to_nat n)) by lia.
  cbn [repeat]. apply concat_cons.
Qed.

Lemma times_not_positive s n : (n <= 0)%Z -> times s n = "".
Proof.
  intros Hn. unfold times.
  replace (Z.to_nat n) with 0 by lia. reflexivity.
Qed.

Lemma advance_whitespace : forall n pos,
  advance pos (times whitespace (Z.of_nat n))
  = (fst pos, (snd pos + Z.of_nat n)%Z).
Proof.
  induction n as [|n IH]; intros pos.
  - simpl. rewrite Z.add_0_r. destruct pos. reflexivity.
  - replace (Z.of_nat (S n)) with (Z.of_nat n + 1)%Z by lia.
    rewrite times_succ by lia.
    change (advance pos (whitespace ++ times whitespace (Z.of_nat n)))
      with (advance (fst pos, (snd pos + 1)%Z)
              (times whitespace (Z.of_nat n))).
    rewrite IH. simpl. f_equal. lia.
Qed.

Lemma advance_newline : forall n pos,
  advance pos (times newline (Z.of_nat (S n)))
  = ((fst pos + Z.of_nat (S n))%Z, 0%Z).
Proof.
  induction n as [|n IH]; intros pos; [reflexivity|].
  replace (Z.of_nat (S (S n))) with (Z.of_nat (S n) + 1)%Z by lia.
  rewrite times_succ by lia.
  change (advance pos (newline ++ times newline (Z.of_nat (S n))))
    with (advance ((fst pos + 1)%Z, 0%Z) (times newline (Z.of_nat (S n)))).
  rewrite IH. simpl fst. f_equal. lia.
Qed.

(** X27: [space(from_pos, to_pos)] is the text that leads a cursor from
    the one position to the other: for a [to_pos] on the line of
    [from_pos] and not before it, or on a later line at a column that is
    not negative, a cursor at [from_pos] stands at [to_pos] after the
    text.  On the same line and not after [from_pos], the text is empty. *)
Theorem space_leads_from_the_one_position_to_the_other from_pos to_pos :
  (lex_le from_pos to_pos ->
   (0 <= snd to_pos)%Z \/ fst from_pos = fst to_pos ->
   advance from_pos (space from_pos to_pos) = to_pos)
  /\ (fst to_pos = fst from_pos ->
      (snd to_pos <= snd from_pos)%Z ->
      space from_pos to_pos = "").
Proof.
  destruct from_pos as [fl fc], to_pos as [tl tc].
  unfold space, lex_le. simpl fst. simpl snd. split.
  - intros Hle Hcol.
    destruct (Z.eqb_spec (tl - fl) 0) as [Hsame|Hother].
    + assert (Hc : (fc <= tc)%Z) by lia.
      replace (tc - fc)%Z with (Z.of_nat (Z.to_nat (tc - fc))) by lia.
      rewrite advance_whitespace. simpl. f_equal; lia.
    + assert (Hl : (fl < tl)%Z) by lia.
      assert (Hc : (0 <= tc)%Z) by lia.
      rewrite advance_app.
      replace (tl - fl)%Z with (Z.of_nat (S (Z.to_nat (tl - fl - 1))))
        by lia.
      rewrite advance_newline.
      replace tc with (Z.of_nat (Z.to_nat tc)) at 1 by lia.
      rewrite advance_whitespace. simpl. f_equal; lia.
  - intros -> Hc. rewrite Z.sub_diag. simpl.
    apply times_not_positive. lia.
Qed.

Lemma space_leads_from_the_one_position_to_the_other_witness :
  advance (1, 4)%Z (space (1, 4)%Z (3, 2)%Z) = (3, 2)%Z
  /\ space (1, 4)%Z (1, 2)%Z = "".
Proof.
  split.
  - apply (proj1 (@space_leads_from_the_one_position_to_the_other
                    (1, 4)%Z (3, 2)%Z)).
    + left. simpl. lia.
    + left. simpl. lia.
  - apply (proj2 (@space_leads_from_the_one_position_to_the_other
                    (1, 4)%Z (1, 2)%Z)).
    + reflexivity.
    + simpl. lia.
Defined.

End SpaceFacts.

(** ** The parent of a flow *)

Module FlowParentFacts.
Import Flow.
Import FlowSpec.
Import FlowFacts.

(** X28: assigning to the [parent] of a flow whose chain ends returns, and
    has written the value into every segment of the chain from that flow
    on, and into nothing else: the segments before it, the other flows,
    and every [next] and [previous] are as they were. *)
Theorem parent_setter_reaches_the_rest_of_the_chain value l h a fuel :
  chain h a l ->
  length l <= fuel ->
  exists h',
    set_parent fuel h a value = (h', Ok tt)
    /\ (forall x, In x l -> _parent (h' x) = value)
    /\ (forall x, ~ In x l -> h' x = h x)
    /\ (forall x, next (h' x) = next (h x)
                  /\ previous (h' x) = previous (h x))
    /\ chain h' a l.
Proof.
  intros Hchain Hfuel.
  destruct (@set_parent_chain value l h a fuel Hchain Hfuel)
    as [h' [Hrun [Hin Hout]]].
  pose proof (set_parent_keeps_links value fuel h a) as Hlinks.
  rewrite Hrun in Hlinks. simpl in Hlinks.
  exists h'. repeat (split; [assumption|]).
  eapply chain_ext; [exact Hchain|].
  intros x _. exact (proj1 (Hlinks x)).
Qed.

Lemma parent_setter_reaches_the_rest_of_the_chain_witness :
  exists h',
    set_parent 2 if_elif 0 (Some 8) = (h', Ok tt)
    /\ _parent (h' 0) = Some 8
    /\ _parent (h' 1) = Some 8
    /\ h' 2 = fresh.
Proof.
  destruct (@parent_setter_reaches_the_rest_of_the_chain
              (Some 8) [0; 1] if_elif 0 2)
    as [h' [Hrun [Hin [Hout _]]]].
  - econstructor; [reflexivity|]. constructor. reflexivity.
  - simpl. lia.
  - exists h'. split; [exact Hrun|]. split; [|split].
    + apply Hin. left. reflexivity.
    + apply Hin. right. left. reflexivity.
    + rewrite Hout; [reflexivity|].
      simpl. intros [H|[H|[]]]; discriminate.
Defined.

End FlowParentFacts.
